(** * Flattened Device Tree locator, validator and property lookup

    A shallow embedding of [src/fdt.c] (with the declarations of
    [src/fdt.h]) and the properties of it that the specification states.

    Memory is one byte buffer; a pointer is a byte offset into it.  A read
    that leaves the buffer is undefined behaviour in C and is the outcome
    [Fault] here.  Loops whose trip count is not bounded by the syntax of
    the code run on fuel and give [Timeout] when it is used up. *)

From Stdlib Require Import ZArith Lia Bool.
From Stdlib.Strings Require Import Byte.
From Stdlib.Strings Require String.
Import String.StringSyntax.
Delimit Scope string_scope with string.
Bind Scope string_scope with String.string.
From stdpp Require Import base tactics option list.

Local Open Scope Z_scope.

(** ** Outcomes *)

Inductive M (A : Type) : Type :=
| Ret (a : A)
| Fault
| Timeout.
Arguments Ret {A} a.
Arguments Fault {A}.
Arguments Timeout {A}.

Definition bind {A B : Type} (m : M A) (k : A -> M B) : M B :=
  match m with
  | Ret a => k a
  | Fault => Fault
  | Timeout => Timeout
  end.

Notation "'let*' x := m 'in' k" := (bind m (fun x => k))
  (at level 10, x name, m at level 100, k at level 200, only parsing).

(** ** Machine integers *)

Definition INT_MAX : Z := 2147483647.

(** [uint32_t] arithmetic wraps modulo 2^32. *)
Definition u32 (x : Z) : Z := x mod 2 ^ 32.

(** [size_t] arithmetic wraps modulo 2^64 (an LP64 host). *)
Definition size_t (x : Z) : Z := x mod 2 ^ 64.

(** The cast [(int)x] of an unsigned value. *)
Definition to_int (x : Z) : Z :=
  let y := x mod 2 ^ 32 in if y <? 2 ^ 31 then y else y - 2 ^ 32.

(** ** Constants of [fdt.h] *)

Definition FDT_MAGIC : Z := 0xd00dfeed.
Definition FDT_BEGIN_NODE : Z := 1.
Definition FDT_END_NODE : Z := 2.
Definition FDT_PROP : Z := 3.
Definition FDT_NOP : Z := 4.
Definition FDT_END : Z := 9.

(** [sizeof(fdt_header_t)]: ten packed 32-bit fields. *)
Definition sizeof_fdt_header : Z := 40.

(** Byte offsets of the fields of [fdt_header_t]. *)
Definition o_magic : Z := 0.
Definition o_totalsize : Z := 4.
Definition o_off_dt_struct : Z := 8.
Definition o_off_dt_strings : Z := 12.
Definition o_off_mem_rsvmap : Z := 16.
Definition o_version : Z := 20.
Definition o_last_comp_version : Z := 24.
Definition o_boot_cpuid_phys : Z := 28.
Definition o_size_dt_strings : Z := 32.
Definition o_size_dt_struct : Z := 36.

(** Byte offsets of the fields of [fdt_property_t]; [name] of
    [fdt_node_header_t] is at offset 4. *)
Definition o_prop_len : Z := 4.
Definition o_prop_nameoff : Z := 8.
Definition o_prop_data : Z := 12.
Definition o_node_name : Z := 4.

Definition MAX_FDT_DEPTH : Z := 32.

(** The fields of [fdt_header_t], decoded from big-endian. *)
Record fdt_header : Type := mk_fdt_header {
  magic : Z;
  totalsize : Z;
  off_dt_struct : Z;
  off_dt_strings : Z;
  off_mem_rsvmap : Z;
  version : Z;
  last_comp_version : Z;
  boot_cpuid_phys : Z;
  size_dt_strings : Z;
  size_dt_struct : Z
}.

Definition byte_val (b : byte) : Z := Z.of_N (Byte.to_N b).

Definition NUL : byte := x00.
Definition SLASH : byte := x2f.
Definition STAR : byte := x2a.

(** ** Host strings

    A [const char *] argument is the list of its bytes; the terminator is
    implicit, so reading index [strlen] gives NUL. *)

Abbreviation cstring := (list byte) (only parsing).

Fixpoint cstrlen (s : cstring) : Z :=
  match s with
  | [] => 0
  | b :: s' => if Byte.eqb b NUL then 0 else 1 + cstrlen s'
  end.

Definition char_at (s : cstring) (i : Z) : byte :=
  if i <? 0 then NUL else nth (Z.to_nat i) s NUL.

(** ** [get_path_depth]

    [tp] and [dn] are pointers into [path], kept as indices.  The loop runs
    [i] from [0] to [tplen] included: [n] counts the iterations left.
    [dn] never passes [tp + i], so the unsigned [dnlen] does not wrap. *)

Fixpoint get_path_depth_loop (n : nat) (path : cstring)
    (tp tplen i dn depth : Z) : Z :=
  match n with
  | O => depth
  | S n' =>
      if Byte.eqb (char_at path (tp + i)) SLASH || (i =? tplen) then
        let dnlen := tp + i - dn in
        if dnlen =? 0 then -12
        else get_path_depth_loop n' path tp tplen (i + 1) (tp + i + 1)
               (depth + 1)
      else get_path_depth_loop n' path tp tplen (i + 1) dn depth
  end.

Definition get_path_depth (path : cstring) : Z :=
  let tp := 0 in
  let tplen := cstrlen path in
  let '(tp, tplen) :=
    if Byte.eqb (char_at path tp) SLASH then (tp + 1, tplen - 1)
    else (tp, tplen) in
  if tplen =? 0 then 0 else
  let tplen :=
    if Byte.eqb (char_at path (tp + tplen - 1)) SLASH then tplen - 1
    else tplen in
  if tplen =? 0 then 0 else
  get_path_depth_loop (Z.to_nat (tplen + 1)) path tp tplen 0 tp 0.

(** ** The parse context [fdt_ctx_t]

    [hdr], [image] and [img] hold the same address and are the one field
    [image].  A pointer that may be NULL is an [option].  [path] is the
    array of [MAX_FDT_DEPTH + 1] name pointers. *)

Record fdt_ctx : Type := mk_ctx {
  image : Z;
  image_size : Z;
  tree : Z;
  tree_size : Z;
  strings : Z;
  strings_size : Z;
  depth : Z;
  path : list (option Z);
  pos : Z;
  target_path : option cstring;
  target_depth : Z;
  target_name : option cstring;
  res : option Z;
  show_error : bool;
  show_tree : bool
}.

Definition set_depth (c : fdt_ctx) (d : Z) : fdt_ctx :=
  mk_ctx (image c) (image_size c) (tree c) (tree_size c) (strings c)
    (strings_size c) d (path c) (pos c) (target_path c) (target_depth c)
    (target_name c) (res c) (show_error c) (show_tree c).

Definition set_path (c : fdt_ctx) (l : list (option Z)) : fdt_ctx :=
  mk_ctx (image c) (image_size c) (tree c) (tree_size c) (strings c)
    (strings_size c) (depth c) l (pos c) (target_path c) (target_depth c)
    (target_name c) (res c) (show_error c) (show_tree c).

Definition set_pos (c : fdt_ctx) (p : Z) : fdt_ctx :=
  mk_ctx (image c) (image_size c) (tree c) (tree_size c) (strings c)
    (strings_size c) (depth c) (path c) p (target_path c) (target_depth c)
    (target_name c) (res c) (show_error c) (show_tree c).

Definition set_res (c : fdt_ctx) (r : option Z) : fdt_ctx :=
  mk_ctx (image c) (image_size c) (tree c) (tree_size c) (strings c)
    (strings_size c) (depth c) (path c) (pos c) (target_path c)
    (target_depth c) (target_name c) r (show_error c) (show_tree c).

Definition set_show (c : fdt_ctx) (e t : bool) : fdt_ctx :=
  mk_ctx (image c) (image_size c) (tree c) (tree_size c) (strings c)
    (strings_size c) (depth c) (path c) (pos c) (target_path c)
    (target_depth c) (target_name c) (res c) e t.

Definition set_target (c : fdt_ctx) (p : option cstring) (d : Z)
    (n : option cstring) : fdt_ctx :=
  mk_ctx (image c) (image_size c) (tree c) (tree_size c) (strings c)
    (strings_size c) (depth c) (path c) (pos c) p d n (res c)
    (show_error c) (show_tree c).

(** [memset(ctx, 0, sizeof(fdt_ctx_t))] *)
Definition ctx_zero : fdt_ctx :=
  mk_ctx 0 0 0 0 0 0 0 (replicate (Z.to_nat (MAX_FDT_DEPTH + 1)) None) 0
    None 0 None None false false.

(** What one pass through the [switch] of [enum_fdt_nodes] does next. *)
Inductive action : Type :=
| Return (c : fdt_ctx)      (* return NULL *)
| Descend (c : fdt_ctx)     (* pos = enum_fdt_nodes(ctx) *)
| Continue (c : fdt_ctx).   (* continue *)

(** ** Reading the buffer *)

Section Memory.

Variable mem : list byte.

Definition load8 (p : Z) : M byte :=
  if p <? 0 then Fault
  else match mem !! Z.to_nat p with
       | Some b => Ret b
       | None => Fault
       end.

(** [be32toh( *(uint32_t * )p )] *)
Definition load32be (p : Z) : M Z :=
  let* b0 := load8 p in
  let* b1 := load8 (p + 1) in
  let* b2 := load8 (p + 2) in
  let* b3 := load8 (p + 3) in
  Ret (((byte_val b0 * 256 + byte_val b1) * 256 + byte_val b2) * 256
       + byte_val b3).

(** [strlen(p)] for [p] pointing into the buffer: the distance to the first
    NUL at or after [p]; running off the buffer is a fault. *)
Fixpoint strlen_from (l : list byte) : M Z :=
  match l with
  | [] => Fault
  | b :: l' => if Byte.eqb b NUL then Ret 0
               else let* n := strlen_from l' in Ret (1 + n)
  end.

Definition strlen (p : Z) : M Z :=
  if p <? 0 then Fault else strlen_from (drop (Z.to_nat p) mem).

(** [strcmp(p, s)] with [p] in the buffer and [s] a host string. *)
Fixpoint strcmp (p : Z) (s : cstring) : M Z :=
  let* a := load8 p in
  match s with
  | [] => Ret (byte_val a)
  | b :: s' =>
      if Byte.eqb a b then
        if Byte.eqb a NUL then Ret 0 else strcmp (p + 1) s'
      else Ret (byte_val a - byte_val b)
  end.

(** [strncmp(s + i, p, n)] with [s] a host string and [p] in the buffer. *)
Fixpoint strncmp (s : cstring) (i : Z) (p : Z) (n : nat) : M Z :=
  match n with
  | O => Ret 0
  | S n' =>
      let a := char_at s i in
      let* b := load8 p in
      if Byte.eqb a b then
        if Byte.eqb a NUL then Ret 0 else strncmp s (i + 1) (p + 1) n'
      else Ret (byte_val a - byte_val b)
  end.

(** ** [get_fdt_totalsize] *)

Definition get_fdt_totalsize (image offset : Z) (check : bool) : M Z :=
  let img := image + offset in
  let* magic := load32be (img + o_magic) in
  if negb (magic =? FDT_MAGIC) then Ret (-1) else
  let hdrsize := sizeof_fdt_header in
  let* totalsize := load32be (img + o_totalsize) in
  if (totalsize >=? INT_MAX) || (totalsize <? u32 (hdrsize + 128))
  then Ret (-1) else
  if negb check then Ret (to_int totalsize) else
  let* version := load32be (img + o_version) in
  let* last_comp_version := load32be (img + o_last_comp_version) in
  if negb (version =? 17) || negb (last_comp_version =? 16)
  then Ret (-1) else
  let* off_dt_struct := load32be (img + o_off_dt_struct) in
  let* size_dt_struct := load32be (img + o_size_dt_struct) in
  if (off_dt_struct <=? hdrsize) || (off_dt_struct >=? totalsize)
  then Ret (-1) else
  if u32 (off_dt_struct + size_dt_struct) >? totalsize then Ret (-1) else
  let* off_dt_strings := load32be (img + o_off_dt_strings) in
  let* size_dt_strings := load32be (img + o_size_dt_strings) in
  if (off_dt_strings <=? hdrsize) || (off_dt_strings >=? totalsize)
  then Ret (-1) else
  if u32 (off_dt_strings + size_dt_strings) >? totalsize then Ret (-1) else
  let* boot_cpuid_phys := load32be (img + o_boot_cpuid_phys) in
  if negb (boot_cpuid_phys =? 0) then Ret (-1) else
  Ret (to_int totalsize).

(** ** [find_fdt_offset]

    The [for] loop, one iteration per unit of fuel; [pos] and the bound
    [size - sizeof(fdt_header_t) - 8] are [size_t]. *)

Fixpoint find_fdt_loop (fuel : nat) (image size max_fdt_size pos : Z) : M Z :=
  match fuel with
  | O => Timeout
  | S fuel' =>
      if pos <? size_t (size_t (size - sizeof_fdt_header) - 8) then
        let img := image + pos in
        let continue :=
          find_fdt_loop fuel' image size max_fdt_size (size_t (pos + 1)) in
        let* magic := load32be img in
        if negb (magic =? FDT_MAGIC) then continue else
        let* totalsize := get_fdt_totalsize img 0 true in
        if totalsize <=? 0 then continue else
        if (max_fdt_size >? 0) && (totalsize >? max_fdt_size) then continue
        else Ret (to_int pos)
      else Ret (-1)
  end.

(** Every iteration reads four bytes at [image + pos], so the scan ends
    (with a result or a fault) within one iteration per byte of the
    buffer; see [find_fdt_loop_fuel]. *)
Definition find_fdt_offset (image size max_fdt_size : Z) : M Z :=
  find_fdt_loop (S (length mem)) image size max_fdt_size 0.

(** [find_fdt]: the header pointer, or [None] for NULL. *)
Definition find_fdt (image size max_fdt_size : Z) : M (option Z) :=
  let* pos := find_fdt_offset image size max_fdt_size in
  if pos >=? 0 then Ret (Some (image + pos)) else Ret None.

(** ** [check_search_target] *)

(** [ctx->path[d]]: the array has [MAX_FDT_DEPTH + 1] slots; an index
    outside it and a NULL slot handed to [strlen] are faults. *)
Definition path_at (ctx : fdt_ctx) (d : Z) : M Z :=
  if d <? 0 then Fault
  else match path ctx !! Z.to_nat d with
       | Some (Some a) => Ret a
       | _ => Fault
       end.

Fixpoint check_search_loop (n : nat) (ctx : fdt_ctx) (tpath : cstring)
    (tp tplen i dn depth : Z) : M Z :=
  match n with
  | O => Ret 0
  | S n' =>
      if Byte.eqb (char_at tpath (tp + i)) SLASH || (i =? tplen) then
        let dnlen := tp + i - dn in
        if dnlen =? 0 then Ret (-12) else
        let next :=
          check_search_loop n' ctx tpath tp tplen (i + 1) (tp + i + 1)
            (depth + 1) in
        if Byte.eqb (char_at tpath (dn + dnlen - 1)) STAR then
          let dnlen := dnlen - 1 in
          let* a := path_at ctx depth in
          let* len := strlen a in
          if len <? dnlen then Ret (-6) else
          let* c := strncmp tpath dn a (Z.to_nat dnlen) in
          if negb (c =? 0) then Ret (-7) else next
        else
          let* a := path_at ctx depth in
          let* len := strlen a in
          if negb (len =? dnlen) then Ret (-2) else
          let* c := strncmp tpath dn a (Z.to_nat dnlen) in
          if negb (c =? 0) then Ret (-3) else next
      else check_search_loop n' ctx tpath tp tplen (i + 1) dn depth
  end.

Definition check_search_target (ctx : fdt_ctx) (prop : Z) : M Z :=
  match target_path ctx with
  | None => Fault                      (* strlen(NULL) *)
  | Some tpath =>
      let tplen := cstrlen tpath in
      let tp := 0 in
      match target_name ctx with
      | None => Ret (-1)
      | Some tname =>
          if negb (depth ctx =? target_depth ctx) then Ret (-1) else
          let* nameoff := load32be (prop + o_prop_nameoff) in
          let name := strings ctx + nameoff in
          let* c := strcmp name tname in
          if negb (c =? 0) then Ret (-1) else
          if target_depth ctx <=? 0 then Ret (-1) else
          let '(tp, tplen) :=
            if Byte.eqb (char_at tpath tp) SLASH then (tp + 1, tplen - 1)
            else (tp, tplen) in
          if tplen =? 0 then Ret (-10) else
          let tplen :=
            if Byte.eqb (char_at tpath (tp + tplen - 1)) SLASH
            then tplen - 1 else tplen in
          if tplen =? 0 then Ret (-11) else
          check_search_loop (Z.to_nat (tplen + 1)) ctx tpath tp tplen 0 tp 0
      end
  end.

(** ** [show_fdt_prop] and the other diagnostics

    The text printed is not part of the model; the bytes that [printf]
    reads for a [%s] argument are, since reading them can fault. *)

Definition print_str (p : Z) : M unit :=
  let* n := strlen p in Ret tt.

Definition printable (d : byte) : bool :=
  (0x20 <=? byte_val d) && (byte_val d <=? 0x7E).

(** The scan [for (i = 0; i < (int)size - 1; i++)] over [prop->data],
    [l] being the buffer from [prop->data + i] on. *)
Fixpoint is_str_scan (l : list byte) (i n : Z) : M bool :=
  if i <? n then
    match l with
    | [] => Fault
    | d :: l' => if printable d then is_str_scan l' (i + 1) n else Ret false
    end
  else Ret true.

Definition show_fdt_prop (ctx : fdt_ctx) (prop : Z) (name : Z) : M Z :=
  if negb (show_tree ctx) then Ret 0 else
  let* nameoff := load32be (prop + o_prop_nameoff) in
  let name := strings ctx + nameoff in
  let* size := load32be (prop + o_prop_len) in
  let data := prop + o_prop_data in
  let* is_str :=
    (if data <? 0 then
       if 0 <? to_int size - 1 then Fault else Ret true
     else is_str_scan (drop (Z.to_nat data) mem) 0 (to_int size - 1)) in
  let* u :=
    (if (size >? 0) && is_str
     then let* u := print_str name in print_str data
     else print_str name) in
  Ret 0.

(** [for (i = 0; i < ctx->depth; i++) printf("%s/", ctx->path[i])] *)
Fixpoint print_path (n : nat) (ctx : fdt_ctx) (i : Z) : M unit :=
  match n with
  | O => Ret tt
  | S n' =>
      let* a := path_at ctx i in
      let* u := print_str a in
      print_path n' ctx (i + 1)
  end.

(** ** [enum_fdt_nodes] *)

(** [ctx->path[ctx->depth++] = name] *)
Definition push_path (ctx : fdt_ctx) (name : Z) : M fdt_ctx :=
  if (depth ctx <? 0) || (MAX_FDT_DEPTH + 1 <=? depth ctx) then Fault
  else Ret (set_depth
              (set_path ctx (<[Z.to_nat (depth ctx) := Some name]> (path ctx)))
              (depth ctx + 1)).

(** The body of [case FDT_BEGIN_NODE]. *)
Definition enum_begin_node (ctx : fdt_ctx) : M action :=
  let node := pos ctx in
  let name := node + o_node_name in
  let* name0 := load8 name in
  let* entered :=
    (if depth ctx <? 0 then
       if negb (Byte.eqb name0 NUL) then
         let* u := (if show_error ctx then print_str name else Ret tt) in
         Ret None
       else Ret (Some (set_depth ctx 0))
     else
       if Byte.eqb name0 NUL then Ret None
       else let* c := push_path ctx name in Ret (Some c)) in
  match entered with
  | None => Ret (Return ctx)
  | Some ctx =>
      let* u :=
        (if show_tree ctx && (depth ctx >=? 0)
         then print_path (Z.to_nat (depth ctx)) ctx 0 else Ret tt) in
      if depth ctx =? MAX_FDT_DEPTH then Ret (Return ctx) else
      let* len := strlen name in
      Ret (Descend (set_pos ctx (pos ctx + 4 * (1 + (len + 4) / 4))))
  end.

(** The body of [case FDT_PROP]. *)
Definition enum_prop (ctx : fdt_ctx) : M action :=
  let prop := pos ctx in
  let* nameoff := load32be (prop + o_prop_nameoff) in
  let name := strings ctx + nameoff in
  let* size := load32be (prop + o_prop_len) in
  if size >=? INT_MAX then
    let* u := (if show_error ctx then print_str name else Ret tt) in
    Ret (Return ctx)
  else
    let* u :=
      (if show_tree ctx then show_fdt_prop ctx prop name else Ret 0) in
    let* r := check_search_target ctx prop in
    if r =? 0 then Ret (Return (set_res ctx (Some prop))) else
    let ctx := set_pos ctx (pos ctx + 4 * 3) in
    Ret (Continue (set_pos ctx (pos ctx + 4 * (u32 (size + 3) / 4)))).

(** The [switch (tag)]. *)
Definition enum_step (ctx : fdt_ctx) : M action :=
  let* tag := load32be (pos ctx) in
  if tag =? FDT_BEGIN_NODE then enum_begin_node ctx
  else if tag =? FDT_PROP then enum_prop ctx
  else if tag =? FDT_NOP then Ret (Continue (set_pos ctx (pos ctx + 4 * 1)))
  else if tag =? FDT_END_NODE then
    let ctx := if depth ctx >? 0 then set_depth ctx (depth ctx - 1) else ctx in
    Ret (Continue (set_pos ctx (pos ctx + 4 * 1)))
  else if tag =? FDT_END then Ret (Return ctx)
  else Ret (Return ctx).

(** The [while (true)] loop with its recursive call; both a new iteration
    and a new invocation take one unit of fuel.  The result is the final
    context and the pointer returned. *)
Fixpoint enum_fdt_nodes (fuel : nat) (ctx : fdt_ctx)
    : M (fdt_ctx * option Z) :=
  match fuel with
  | O => Timeout
  | S fuel' =>
      let* a := enum_step ctx in
      match a with
      | Return c => Ret (c, None)
      | Continue c => enum_fdt_nodes fuel' c
      | Descend c =>
          let* r := enum_fdt_nodes fuel' c in
          match snd r with
          | None => Ret (fst r, None)
          | Some _ => enum_fdt_nodes fuel' (fst r)
          end
      end
  end.

(** ** [init_fdt_ctx]: the [int] returned and the context filled in. *)

Definition init_fdt_ctx (img : Z) : M (Z * fdt_ctx) :=
  let hdr := img in
  let ctx := ctx_zero in
  let* size := get_fdt_totalsize img 0 true in
  if size <=? 0 then Ret (-1, ctx) else
  let* off_dt_struct := load32be (hdr + o_off_dt_struct) in
  let* size_dt_struct := load32be (hdr + o_size_dt_struct) in
  let* off_dt_strings := load32be (hdr + o_off_dt_strings) in
  let* size_dt_strings := load32be (hdr + o_size_dt_strings) in
  Ret (0, mk_ctx img (u32 size) (img + off_dt_struct) size_dt_struct
            (img + off_dt_strings) size_dt_strings (depth ctx) (path ctx)
            (pos ctx) (target_path ctx) (target_depth ctx) (target_name ctx)
            (res ctx) (show_error ctx) (show_tree ctx)).

(** ** The accessors *)

(** Each pass of the walk reads the tag at [pos] and moves [pos] forward,
    so one unit of fuel per byte of the buffer is enough; see
    [enum_fdt_nodes_fuel]. *)
Definition walk_fuel : nat := S (length mem).
Arguments walk_fuel : simpl never.

Definition get_fdt_prop (img : Z) (path name : option cstring)
    : M (option Z) :=
  let* ic := init_fdt_ctx img in
  if negb (fst ic =? 0) then Ret None else
  let ctx := snd ic in
  let ctx :=
    match name with Some _ => ctx | None => set_show ctx true true end in
  let stop :=
    match name, path with None, None => true | _, _ => false end in
  if stop then Ret None else
  let bound :=
    match path with
    | Some p =>
        let d := get_path_depth p in
        if d <? 0 then None else Some (set_target ctx (Some p) d name)
    | None => Some ctx
    end in
  match bound with
  | None => Ret None
  | Some ctx =>
      let ctx := set_pos ctx (tree ctx) in
      let* tag := load32be (pos ctx) in
      if negb (tag =? FDT_BEGIN_NODE) then Ret None else
      let* w := load32be (pos ctx + 4) in
      if negb (w =? 0) then Ret None else
      let ctx := set_res ctx None in
      let ctx := set_depth ctx (-1) in
      let* r := enum_fdt_nodes walk_fuel ctx in
      let ctx := fst r in
      match name, res ctx with
      | Some _, Some prop => Ret (Some prop)
      | _, _ => Ret None
      end
  end.

(** [size] is the [int *] argument: [None] for NULL, else the value it
    points to; the result carries the value afterwards. *)
Definition get_fdt_prop_val (img : Z) (path name : option cstring)
    (size : option Z) : M (option Z * option Z) :=
  let* prop := get_fdt_prop img path name in
  match prop with
  | Some prop =>
      let* size' :=
        (match size with
         | Some _ => let* len := load32be (prop + o_prop_len) in
                     Ret (Some (to_int len))
         | None => Ret None
         end) in
      Ret (Some (prop + o_prop_data), size')
  | None => Ret (None, size)
  end.

(** The result is an [int64_t]: a decoded [uint32_t] keeps its value. *)
Definition get_fdt_prop_u32 (img : Z) (path name : option cstring) : M Z :=
  let* vs := get_fdt_prop_val img path name (Some (-1)) in
  match vs with
  | (Some val, Some size) => if size =? 4 then load32be val else Ret (-1)
  | _ => Ret (-1)
  end.

Definition get_fdt_prop_str (img : Z) (path name : option cstring)
    : M (option Z) :=
  let* vs := get_fdt_prop_val img path name (Some (-1)) in
  match vs with
  | (Some val, Some size) =>
      if size >? 0 then
        let* last := load8 (val + size - 1) in
        if Byte.eqb last NUL then Ret (Some val) else Ret None
      else Ret None
  | _ => Ret None
  end.

End Memory.

(** * Notions used by the statements *)

(** The buffer holds header [h] at address [p]. *)
Definition header_at (mem : list byte) (p : Z) (h : fdt_header) : Prop :=
  load32be mem (p + o_magic) = Ret (magic h) /\
  load32be mem (p + o_totalsize) = Ret (totalsize h) /\
  load32be mem (p + o_off_dt_struct) = Ret (off_dt_struct h) /\
  load32be mem (p + o_off_dt_strings) = Ret (off_dt_strings h) /\
  load32be mem (p + o_off_mem_rsvmap) = Ret (off_mem_rsvmap h) /\
  load32be mem (p + o_version) = Ret (version h) /\
  load32be mem (p + o_last_comp_version) = Ret (last_comp_version h) /\
  load32be mem (p + o_boot_cpuid_phys) = Ret (boot_cpuid_phys h) /\
  load32be mem (p + o_size_dt_strings) = Ret (size_dt_strings h) /\
  load32be mem (p + o_size_dt_struct) = Ret (size_dt_struct h).

(** The header invariants, each in exact integer arithmetic. *)
Definition magic_ok (h : fdt_header) : Prop := magic h = FDT_MAGIC.
Definition totalsize_ok (h : fdt_header) : Prop :=
  sizeof_fdt_header + 128 <= totalsize h < INT_MAX.
Definition version_ok (h : fdt_header) : Prop :=
  version h = 17 /\ last_comp_version h = 16.
Definition struct_ok (h : fdt_header) : Prop :=
  sizeof_fdt_header < off_dt_struct h < totalsize h /\
  off_dt_struct h + size_dt_struct h <= totalsize h.
Definition strings_ok (h : fdt_header) : Prop :=
  sizeof_fdt_header < off_dt_strings h < totalsize h /\
  off_dt_strings h + size_dt_strings h <= totalsize h.
Definition cpuid_ok (h : fdt_header) : Prop := boot_cpuid_phys h = 0.

Definition header_ok (h : fdt_header) : Prop :=
  magic_ok h /\ totalsize_ok h /\ version_ok h /\ struct_ok h /\
  strings_ok h /\ cpuid_ok h.

(** What strict validation decides, in the arithmetic of the code: the two
    sums are taken modulo 2^32. *)
Definition strict_accepts (h : fdt_header) : Prop :=
  magic_ok h /\ totalsize_ok h /\ version_ok h /\
  (sizeof_fdt_header < off_dt_struct h < totalsize h /\
   u32 (off_dt_struct h + size_dt_struct h) <= totalsize h) /\
  (sizeof_fdt_header < off_dt_strings h < totalsize h /\
   u32 (off_dt_strings h + size_dt_strings h) <= totalsize h) /\
  cpuid_ok h.

(** The candidate at offset [p] of the image passes the tests of the
    locator: strict validation accepts it and its size is within
    [max_fdt_size] when that is positive. *)
Definition candidate_ok (mem : list byte) (image max_fdt_size p : Z)
    : Prop :=
  exists ts,
    get_fdt_totalsize mem (image + p) 0 true = Ret ts /\ 0 < ts /\
    (max_fdt_size <= 0 \/ ts <= max_fdt_size).

(** The context a step hands on. *)
Definition ctx_of (a : action) : fdt_ctx :=
  match a with
  | Return c => c
  | Descend c => c
  | Continue c => c
  end.

(** The fields a walk never writes. *)
Definition same_query (c c' : fdt_ctx) : Prop :=
  image c' = image c /\ strings c' = strings c /\
  target_path c' = target_path c /\ target_depth c' = target_depth c /\
  target_name c' = target_name c /\
  show_error c' = show_error c /\ show_tree c' = show_tree c.

(** [c'] is the context of the pass that follows the pass at [c]: the
    switch at [c] ended in [continue] or in the recursive call. *)
Definition next (mem : list byte) (c c' : fdt_ctx) : Prop :=
  enum_step mem c = Ret (Continue c') \/ enum_step mem c = Ret (Descend c').

(** The contexts of the passes of the walk that starts at [c], in order. *)
Inductive visits (mem : list byte) (c : fdt_ctx) : fdt_ctx -> Prop :=
| visits_here : visits mem c c
| visits_later (c1 c2 : fdt_ctx) :
    visits mem c c1 -> next mem c1 c2 -> visits mem c c2.

(** The tag under [pos] is a property of acceptable length that the
    matcher accepts. *)
Definition matches (mem : list byte) (c : fdt_ctx) : Prop :=
  load32be mem (pos c) = Ret FDT_PROP /\
  (exists len, load32be mem (pos c + o_prop_len) = Ret len /\ len < INT_MAX)
  /\ check_search_target mem c (pos c) = Ret 0.

(** The context [n] passes after [c], if the walk goes on that long. *)
Fixpoint walk_to (mem : list byte) (n : nat) (c : fdt_ctx)
    : option fdt_ctx :=
  match n with
  | O => Some c
  | S n' =>
      match enum_step mem c with
      | Ret (Continue c') => walk_to mem n' c'
      | Ret (Descend c') => walk_to mem n' c'
      | _ => None
      end
  end.

(** The bytes of the C string at [p]. *)
Fixpoint cstring_from (l : list byte) : option cstring :=
  match l with
  | [] => None
  | b :: l' => if Byte.eqb b NUL then Some []
               else option_map (cons b) (cstring_from l')
  end.

Definition cstring_at (mem : list byte) (p : Z) : option cstring :=
  if p <? 0 then None else cstring_from (drop (Z.to_nat p) mem).

(** The host string [s] holds the bytes [l] from index [off] on. *)
Definition holds (s : cstring) (off : Z) (l : list byte) : Prop :=
  forall (k : nat) (x : byte),
    l !! k = Some x -> char_at s (off + Z.of_nat k) = x.

(** Segments joined by slashes. *)
Fixpoint join_path (segs : list (list byte)) : list byte :=
  match segs with
  | [] => []
  | s :: rest =>
      match rest with
      | [] => s
      | _ => s ++ SLASH :: join_path rest
      end
  end.

(** A segment of a path pattern: not empty, no slash, no NUL. *)
Definition good_seg (s : list byte) : Prop :=
  s <> [] /\ (SLASH ∉ s) /\ (NUL ∉ s).

(** What a pattern segment asks of a node name: a segment that ends in a
    star asks for the rest of it as a prefix, any other segment for
    equality. *)
Definition seg_match (seg anc : list byte) : Prop :=
  match last seg with
  | Some b => if Byte.eqb b STAR then (removelast seg `prefix_of` anc)
              else seg = anc
  | None => seg = anc
  end.

(** The slots [d], [d + 1], ... of the ancestor stack point to the names
    [ancs] in the buffer. *)
Definition names_at (mem : list byte) (ctx : fdt_ctx) (d : nat)
    (ancs : list (list byte)) : Prop :=
  forall (k : nat) (anc : list byte),
    ancs !! k = Some anc ->
    exists a, path ctx !! (d + k)%nat = Some (Some a) /\
              cstring_at mem a = Some anc.

(** The bytes of a host string up to its terminator. *)
Fixpoint c_bytes (s : cstring) : list byte :=
  match s with
  | [] => []
  | b :: s' => if Byte.eqb b NUL then [] else b :: c_bytes s'
  end.

Definition strip_leading_slash (l : list byte) : list byte :=
  match l with
  | b :: l' => if Byte.eqb b SLASH then l' else l
  | [] => []
  end.

Definition strip_trailing_slash (l : list byte) : list byte :=
  match last l with
  | Some b => if Byte.eqb b SLASH then removelast l else l
  | None => l
  end.

(** Nothing is left of the path once one leading and one trailing slash
    are taken off. *)
Definition zero_segments (path : cstring) : Prop :=
  strip_trailing_slash (strip_leading_slash (c_bytes path)) = [].

(** A segment that holds no slash and no NUL; it may be empty. *)
Definition plain_seg (s : list byte) : Prop :=
  (SLASH ∉ s) /\ (NUL ∉ s).

(** The context [get_fdt_prop] starts the walk with, for the path and the
    name asked for, from the context [ctx] of [init_fdt_ctx]. *)
Definition lookup_start (ctx : fdt_ctx) (path name : cstring) : fdt_ctx :=
  set_depth
    (set_res
       (set_pos
          (set_target ctx (Some path) (get_path_depth path) (Some name))
          (tree ctx))
       None)
    (-1).

(** The ancestor stack is in order: the depth is that of a walk that
    goes on, the array has its [MAX_FDT_DEPTH + 1] slots, and every slot
    below the depth points to a NUL-terminated name in the buffer, behind
    the cursor. *)
Definition stack_ok (mem : list byte) (c : fdt_ctx) : Prop :=
  -1 <= depth c < MAX_FDT_DEPTH /\
  length (path c) = Z.to_nat (MAX_FDT_DEPTH + 1) /\
  forall k : nat,
    Z.of_nat k < depth c ->
    exists a s, path c !! k = Some (Some a) /\ a < pos c /\
                cstring_at mem a = Some s.

(** * Test blobs *)

Definition byte_of (x : Z) : byte :=
  match Byte.of_N (Z.to_N (x mod 256)) with
  | Some b => b
  | None => NUL
  end.

Definition be32 (x : Z) : list byte :=
  [byte_of (x / 2 ^ 24); byte_of (x / 2 ^ 16); byte_of (x / 2 ^ 8); byte_of x].

Definition cstr (s : String.string) : cstring := String.list_byte_of_string s.
Arguments cstr s%_string.

(** [l] followed by NULs up to the next multiple of four bytes. *)
Definition pad4 (l : list byte) : list byte :=
  l ++ replicate (Z.to_nat ((- Z.of_nat (length l)) mod 4)) NUL.

Definition t_begin (name : String.string) : list byte :=
  be32 FDT_BEGIN_NODE ++ pad4 (cstr name ++ [NUL]).

Arguments t_begin name%_string.

Definition t_prop (nameoff : Z) (data : list byte) : list byte :=
  be32 FDT_PROP ++ be32 (Z.of_nat (length data)) ++ be32 nameoff ++ pad4 data.

Definition t_end_node : list byte := be32 FDT_END_NODE.
Definition t_end : list byte := be32 FDT_END.

Definition mk_header (totalsize off_struct off_strings version last_comp
    boot_cpuid size_strings size_struct : Z) : list byte :=
  be32 FDT_MAGIC ++ be32 totalsize ++ be32 off_struct ++ be32 off_strings
  ++ be32 40 ++ be32 version ++ be32 last_comp ++ be32 boot_cpuid
  ++ be32 size_strings ++ be32 size_struct.

(** A blob from a struct block and a strings block: header, one empty
    reservation entry, the two blocks, and NULs up to 168 bytes at least. *)
Definition mk_blob (st strs : list byte) : list byte :=
  let off_struct := 56 in
  let off_strings := off_struct + Z.of_nat (length st) in
  let used := off_strings + Z.of_nat (length strs) in
  let total := Z.max used 168 in
  mk_header total off_struct off_strings 17 16 0 (Z.of_nat (length strs))
    (Z.of_nat (length st))
  ++ replicate 16 NUL ++ st ++ strs
  ++ replicate (Z.to_nat (total - used)) NUL.

(** Strings block: "model" at 0, "bootargs" at 6, "cell" at 15. *)
Definition demo_strings : list byte :=
  cstr "model" ++ [NUL] ++ cstr "bootargs" ++ [NUL] ++ cstr "cell" ++ [NUL].

(** [/] with [model = "root"], [/chosen] with [bootargs], [cell] and
    [model], [/eth0] with [model]. *)
Definition demo_struct : list byte :=
  t_begin ""
  ++ t_prop 0 (cstr "root" ++ [NUL])
  ++ t_begin "chosen"
  ++ t_prop 6 (cstr "console=ttyS0" ++ [NUL])
  ++ t_prop 15 [xff; xff; xff; xff]
  ++ t_prop 0 (cstr "deep" ++ [NUL])
  ++ t_end_node
  ++ t_begin "eth0"
  ++ t_prop 0 (cstr "nic" ++ [NUL])
  ++ t_end_node
  ++ t_end_node
  ++ t_end.

Definition demo_blob : list byte := mk_blob demo_struct demo_strings.

(** A 40-byte buffer holding one header that meets every invariant. *)
Definition good_header : list byte := mk_header 168 56 100 17 16 0 20 44.

Definition good_fields : fdt_header :=
  mk_fdt_header FDT_MAGIC 168 56 100 40 17 16 0 20 44.

(** The same header with [size_dt_struct] (resp. [size_dt_strings]) far
    past the end of the blob. *)
Definition wrap_struct_header : list byte :=
  mk_header 168 56 100 17 16 0 20 0xFFFFFFFF.

Definition wrap_struct_fields : fdt_header :=
  mk_fdt_header FDT_MAGIC 168 56 100 40 17 16 0 20 0xFFFFFFFF.

Definition wrap_strings_header : list byte :=
  mk_header 168 56 100 17 16 0 0xFFFFFFF0 44.

Definition wrap_strings_fields : fdt_header :=
  mk_fdt_header FDT_MAGIC 168 56 100 40 17 16 0 0xFFFFFFF0 44.

(** A struct block of the root and [n] nodes nested in one another, with
    no END_NODE. *)
Definition nested_struct (n : nat) : list byte :=
  t_begin "" ++ mjoin (replicate n (t_begin "n")) ++ t_end.

Definition deep_blob : list byte := mk_blob (nested_struct 32) [NUL].

(** The context of a lookup in [deep_blob] as the walk starts. *)
Definition deep_start : fdt_ctx :=
  mk_ctx 0 325 56 268 324 1 (-1) (path ctx_zero) 56 (Some (cstr "/n"))
    1 (Some (cstr "x")) None false false.

(** A context with the walk at the 33rd BEGIN_NODE of [deep_blob], 31
    levels below the root. *)
Definition deep_ctx31 : fdt_ctx :=
  set_pos (set_depth deep_start 31) (56 + 8 + 31 * 8).

(** The context of the lookup of [model] under the path "/*" in the demo
    blob as the walk starts. *)
Definition demo_start : fdt_ctx :=
  mk_ctx 0 224 56 148 204 20 (-1) (path ctx_zero) 56 (Some (cstr "/*"))
    1 (Some (cstr "model")) None false false.

(** A blob with one node [name] below the root, carrying [model]. *)
Definition one_node_blob (name : String.string) : list byte :=
  mk_blob (t_begin "" ++ t_begin name ++ t_prop 0 (cstr "x" ++ [NUL])
           ++ t_end_node ++ t_end_node ++ t_end)
    (cstr "model" ++ [NUL]).
Arguments one_node_blob name%_string.

(** A blob with [/soc/eth0] carrying [model]. *)
Definition soc_blob : list byte :=
  mk_blob (t_begin "" ++ t_begin "soc" ++ t_begin "eth0"
           ++ t_prop 0 (cstr "x" ++ [NUL])
           ++ t_end_node ++ t_end_node ++ t_end_node ++ t_end)
    (cstr "model" ++ [NUL]).

(** The context of the lookup of [model] under "/soc/eth*" in [soc_blob],
    with the walk at the property of [/soc/eth0]: the names "soc" and
    "eth0" are at 68 and 76, the property at 84. *)
Definition soc_ctx : fdt_ctx :=
  mk_ctx 0 168 56 60 116 6 2
    (<[1%nat := Some 76]> (<[0%nat := Some 68]> (path ctx_zero))) 84
    (Some (cstr "/soc/eth*")) 2 (Some (cstr "model")) None false false.

(** The demo blob behind five bytes of another kind. *)
Definition shifted_blob : list byte := replicate 5 xff ++ demo_blob.

(** A context at depth 0 with an END_NODE tag under [pos], as at the
    END_NODE of the root. *)
Definition root_end_mem : list byte := t_end_node ++ t_end.
Definition root_end_ctx : fdt_ctx := set_depth ctx_zero 0.

(** * Properties *)

(** ** Outcomes and reads *)

Lemma bind_Ret {A B : Type} (m : M A) (k : A -> M B) (b : B) :
  bind m k = Ret b -> exists a, m = Ret a /\ k a = Ret b.
Proof. destruct m; simpl; intros H; try discriminate. eauto. Qed.

Lemma bind_not_Timeout {A B : Type} (m : M A) (k : A -> M B) :
  m <> Timeout -> (forall a, m = Ret a -> k a <> Timeout) ->
  bind m k <> Timeout.
Proof. destruct m; simpl; intros H1 H2; auto; congruence. Qed.

Ltac inv_bind H :=
  let a := fresh "v" in
  let E := fresh "E" in
  apply bind_Ret in H as (a & E & H).

Lemma byte_val_range (b : byte) : 0 <= byte_val b < 256.
Proof.
  unfold byte_val. pose proof (Byte.to_N_bounded b) as H.
  split; [apply N2Z.is_nonneg|].
  change 256 with (Z.of_N 256). apply N2Z.inj_lt. lia.
Qed.

Lemma byte_val_inj (a b : byte) : byte_val a = byte_val b -> a = b.
Proof.
  unfold byte_val. intros H. apply N2Z.inj in H.
  assert (Some a = Some b) as [= ->]; [|reflexivity].
  rewrite <- (Byte.of_to_N a), <- (Byte.of_to_N b). congruence.
Qed.

Lemma byte_eqb_true (a b : byte) : Byte.eqb a b = true <-> a = b.
Proof. split; [apply Byte.byte_dec_bl | apply Byte.byte_dec_lb]. Qed.

Lemma byte_eqb_false (a b : byte) : Byte.eqb a b = false <-> a <> b.
Proof.
  split; [apply Byte.eqb_false|].
  intros H. destruct (Byte.eqb a b) eqn:E; [|reflexivity].
  apply byte_eqb_true in E. contradiction.
Qed.

Section MemoryFacts.

Variable mem : list byte.

Lemma load8_Ret (p : Z) (b : byte) :
  load8 mem p = Ret b <->
  0 <= p /\ mem !! Z.to_nat p = Some b.
Proof.
  unfold load8. destruct (Z.ltb_spec p 0).
  - split; [discriminate | lia].
  - destruct (mem !! Z.to_nat p) eqn:E; split; intros H1;
      try discriminate; try (injection H1 as ->); auto.
    + destruct H1 as [_ [= ->]]. reflexivity.
    + destruct H1 as [_ H1]. discriminate.
Qed.

Lemma load8_bounds (p : Z) (b : byte) :
  load8 mem p = Ret b -> 0 <= p < Z.of_nat (length mem).
Proof.
  intros H. apply load8_Ret in H as [H0 H].
  apply lookup_lt_Some in H. lia.
Qed.

Lemma load8_not_Timeout (p : Z) : load8 mem p <> Timeout.
Proof.
  unfold load8. destruct (p <? 0); [discriminate|].
  destruct (mem !! Z.to_nat p); discriminate.
Qed.

Lemma load32be_bounds (p v : Z) :
  load32be mem p = Ret v ->
  0 <= p /\ p + 4 <= Z.of_nat (length mem) /\ 0 <= v < 2 ^ 32.
Proof.
  unfold load32be. intros H.
  inv_bind H. inv_bind H. inv_bind H. inv_bind H. injection H as <-.
  apply load8_bounds in E, E2.
  pose proof (byte_val_range v0). pose proof (byte_val_range v1).
  pose proof (byte_val_range v2). pose proof (byte_val_range v3).
  lia.
Qed.

Lemma load32be_not_Timeout (p : Z) : load32be mem p <> Timeout.
Proof.
  unfold load32be.
  repeat (apply bind_not_Timeout; [apply load8_not_Timeout | intros ? _]).
  discriminate.
Qed.

Lemma load32be_out (p : Z) :
  p < 0 \/ Z.of_nat (length mem) < p + 4 -> load32be mem p = Fault.
Proof.
  intros H. destruct (load32be mem p) eqn:E; [|reflexivity|].
  - apply load32be_bounds in E. lia.
  - exfalso. revert E. apply load32be_not_Timeout.
Qed.

Lemma strlen_from_nonneg (l : list byte) (n : Z) :
  strlen_from l = Ret n -> 0 <= n <= Z.of_nat (length l).
Proof.
  revert n. induction l as [|b l IH]; simpl; intros n H; [discriminate|].
  destruct (Byte.eqb b NUL).
  - injection H as <-. lia.
  - inv_bind H. injection H as <-. apply IH in E. lia.
Qed.

Lemma strlen_from_not_Timeout (l : list byte) : strlen_from l <> Timeout.
Proof.
  induction l as [|b l IH]; simpl; [discriminate|].
  destruct (Byte.eqb b NUL); [discriminate|].
  apply bind_not_Timeout; [assumption | discriminate].
Qed.

Lemma strlen_nonneg (p n : Z) : strlen mem p = Ret n -> 0 <= n.
Proof.
  unfold strlen. destruct (p <? 0); [discriminate|].
  intros H. apply strlen_from_nonneg in H. lia.
Qed.

Lemma strlen_not_Timeout (p : Z) : strlen mem p <> Timeout.
Proof.
  unfold strlen. destruct (p <? 0); [discriminate|].
  apply strlen_from_not_Timeout.
Qed.

End MemoryFacts.

(** ** The header validator *)

Ltac zbool :=
  rewrite ?Z.geb_leb, ?Z.gtb_ltb in *;
  repeat match goal with
  | |- context [Z.eqb ?a ?b] => destruct (Z.eqb_spec a b)
  | |- context [Z.leb ?a ?b] => destruct (Z.leb_spec a b)
  | |- context [Z.ltb ?a ?b] => destruct (Z.ltb_spec a b)
  end.

Lemma u32_small (x : Z) : 0 <= x < 2 ^ 32 -> u32 x = x.
Proof. intros H. unfold u32. apply Z.mod_small. assumption. Qed.

Lemma to_int_small (x : Z) : 0 <= x < 2 ^ 31 -> to_int x = x.
Proof.
  intros H. unfold to_int. rewrite Z.mod_small by lia.
  destruct (Z.ltb_spec x (2 ^ 31)); lia.
Qed.

Lemma header_at_range (mem : list byte) (p : Z) (h : fdt_header) :
  header_at mem p h ->
  0 <= totalsize h < 2 ^ 32 /\
  0 <= off_dt_struct h < 2 ^ 32 /\ 0 <= size_dt_struct h < 2 ^ 32 /\
  0 <= off_dt_strings h < 2 ^ 32 /\ 0 <= size_dt_strings h < 2 ^ 32.
Proof.
  intros (_ & H1 & H2 & H3 & _ & _ & _ & _ & H4 & H5).
  apply load32be_bounds in H1, H2, H3, H4, H5. lia.
Qed.

Lemma get_fdt_totalsize_strict_accept (mem : list byte) (image offset : Z)
    (h : fdt_header) :
  header_at mem (image + offset) h -> strict_accepts h ->
  get_fdt_totalsize mem image offset true = Ret (totalsize h).
Proof.
  intros (H0 & H1 & H2 & H3 & _ & H5 & H6 & H7 & H8 & H9).
  unfold strict_accepts, magic_ok, totalsize_ok, version_ok, cpuid_ok.
  unfold sizeof_fdt_header, INT_MAX. intros A.
  unfold get_fdt_totalsize.
  rewrite H0, H1, H5, H6, H2, H9, H3, H8, H7. simpl bind.
  change (u32 (sizeof_fdt_header + 128)) with 168.
  unfold sizeof_fdt_header, INT_MAX.
  zbool; simpl; try lia.
  f_equal. apply to_int_small. lia.
Qed.

Lemma get_fdt_totalsize_strict_reject (mem : list byte) (image offset : Z)
    (h : fdt_header) :
  header_at mem (image + offset) h -> ~ strict_accepts h ->
  get_fdt_totalsize mem image offset true = Ret (-1).
Proof.
  intros (H0 & H1 & H2 & H3 & _ & H5 & H6 & H7 & H8 & H9).
  unfold strict_accepts, magic_ok, totalsize_ok, version_ok, cpuid_ok.
  unfold sizeof_fdt_header, INT_MAX. intros A.
  unfold get_fdt_totalsize.
  rewrite H0, H1, H5, H6, H2, H9, H3, H8, H7. simpl bind.
  change (u32 (sizeof_fdt_header + 128)) with 168.
  unfold sizeof_fdt_header, INT_MAX.
  zbool; simpl; try reflexivity; exfalso; apply A; lia.
Qed.

(** A header that satisfies every invariant is accepted, and strict
    validation returns its [totalsize]. *)
Lemma get_fdt_totalsize_valid (mem : list byte) (image offset : Z)
    (h : fdt_header) :
  header_at mem (image + offset) h -> header_ok h ->
  get_fdt_totalsize mem image offset true = Ret (totalsize h).
Proof.
  intros Hat Hok. apply get_fdt_totalsize_strict_accept; [assumption|].
  pose proof (header_at_range _ _ _ Hat) as R.
  destruct Hok as (A & B & C & [D1 D2] & [E1 E2] & F).
  unfold strict_accepts. rewrite !u32_small by lia. tauto.
Qed.

(** A header that breaks an invariant is rejected, as long as neither
    [off + size] sum passes 2^32. *)
Lemma get_fdt_totalsize_invalid_nowrap (mem : list byte) (image offset : Z)
    (h : fdt_header) :
  header_at mem (image + offset) h -> ~ header_ok h ->
  off_dt_struct h + size_dt_struct h < 2 ^ 32 ->
  off_dt_strings h + size_dt_strings h < 2 ^ 32 ->
  get_fdt_totalsize mem image offset true = Ret (-1).
Proof.
  intros Hat Hok W1 W2.
  apply (get_fdt_totalsize_strict_reject _ _ _ h); [assumption|].
  pose proof (header_at_range _ _ _ Hat) as R.
  intros (A & B & C & D & E & F). apply Hok.
  unfold header_ok, struct_ok, strings_ok.
  destruct D as [D1 D2], E as [E1 E2].
  rewrite u32_small in D2 by lia. rewrite u32_small in E2 by lia.
  unfold magic_ok, totalsize_ok, version_ok, cpuid_ok in *. tauto.
Qed.

(** The invariants gate acceptance one by one where no sum wraps: for the
    good header, changing a single field so that its invariant fails
    makes strict validation return -1. *)
Lemma strict_gates_good_header :
  header_at good_header 0 good_fields /\ header_ok good_fields /\
  get_fdt_totalsize good_header 0 0 true = Ret 168 /\
  get_fdt_totalsize (mk_header 168 56 100 17 16 0 20 44) 0 0 false = Ret 168 /\
  get_fdt_totalsize (mk_header 167 56 100 17 16 0 20 44) 0 0 true = Ret (-1) /\
  get_fdt_totalsize (mk_header 0x7FFFFFFF 56 100 17 16 0 20 44) 0 0 true
    = Ret (-1) /\
  get_fdt_totalsize (mk_header 168 56 100 16 16 0 20 44) 0 0 true = Ret (-1) /\
  get_fdt_totalsize (mk_header 168 56 100 17 17 0 20 44) 0 0 true = Ret (-1) /\
  get_fdt_totalsize (mk_header 168 40 100 17 16 0 20 44) 0 0 true = Ret (-1) /\
  get_fdt_totalsize (mk_header 168 168 100 17 16 0 20 44) 0 0 true
    = Ret (-1) /\
  get_fdt_totalsize (mk_header 168 56 100 17 16 0 20 113) 0 0 true
    = Ret (-1) /\
  get_fdt_totalsize (mk_header 168 56 40 17 16 0 20 44) 0 0 true = Ret (-1) /\
  get_fdt_totalsize (mk_header 168 56 100 17 16 0 69 44) 0 0 true = Ret (-1) /\
  get_fdt_totalsize (mk_header 168 56 100 17 16 1 20 44) 0 0 true = Ret (-1) /\
  get_fdt_totalsize (tail good_header) 0 0 true = Ret (-1).
Proof.
  repeat split; try (vm_compute; reflexivity);
    vm_compute; intros; discriminate.
Qed.

(** ** The locator *)

Lemma size_t_small (x : Z) : 0 <= x < 2 ^ 64 -> size_t x = x.
Proof. intros H. unfold size_t. apply Z.mod_small. assumption. Qed.

Lemma find_fdt_bound_range (size : Z) :
  0 <= size_t (size_t (size - sizeof_fdt_header) - 8) < 2 ^ 64.
Proof. unfold size_t. apply Z.mod_pos_bound. lia. Qed.

(** For a size below 48 the bound of the scan wraps around. *)
Lemma find_fdt_bound_short (size : Z) :
  0 <= size < sizeof_fdt_header + 8 ->
  size_t (size_t (size - sizeof_fdt_header) - 8) = 2 ^ 64 + size - 48.
Proof.
  unfold sizeof_fdt_header, size_t. intros H.
  pose proof (Z.mod_pos_bound (size - 40) (2 ^ 64) ltac:(lia)).
  pose proof (Z.mod_pos_bound ((size - 40) mod 2 ^ 64 - 8) (2 ^ 64)
                ltac:(lia)).
  pose proof (Z.div_mod (size - 40) (2 ^ 64) ltac:(lia)).
  pose proof (Z.div_mod ((size - 40) mod 2 ^ 64 - 8) (2 ^ 64) ltac:(lia)).
  lia.
Qed.

(** The scan ends within one iteration per byte of the buffer. *)
Lemma find_fdt_loop_fuel (mem : list byte) (image size max_fdt_size : Z)
    (fuel : nat) (pos : Z) :
  0 <= pos ->
  (0 < fuel)%nat ->
  image + pos < 0 \/ Z.of_nat (length mem) - (image + pos) < Z.of_nat fuel ->
  find_fdt_loop mem fuel image size max_fdt_size pos <> Timeout.
Proof.
  revert pos. induction fuel as [|fuel IH]; intros pos Hpos Hf Hm; [lia|].
  simpl. pose proof (find_fdt_bound_range size) as Hb.
  destruct (Z.ltb_spec pos (size_t (size_t (size - sizeof_fdt_header) - 8)));
    [|discriminate].
  destruct (load32be mem (image + pos)) as [magic| |] eqn:E; simpl;
    [|discriminate|].
  - apply load32be_bounds in E.
    assert (find_fdt_loop mem fuel image size max_fdt_size (size_t (pos + 1))
            <> Timeout) as Hnext.
    { rewrite size_t_small by lia. apply IH; lia. }
    destruct (negb (magic =? FDT_MAGIC)); [assumption|].
    apply bind_not_Timeout.
    + unfold get_fdt_totalsize.
      repeat first
        [ apply bind_not_Timeout; [apply load32be_not_Timeout | intros ? _]
        | match goal with |- context [if ?b then _ else _] => destruct b end
        | discriminate ].
    + intros ts _. destruct (ts <=? 0); [assumption|].
      destruct ((max_fdt_size >? 0) && (ts >? max_fdt_size));
        [assumption | discriminate].
  - exfalso. revert E. apply load32be_not_Timeout.
Qed.

Lemma find_fdt_offset_terminates (mem : list byte)
    (image size max_fdt_size : Z) :
  find_fdt_offset mem image size max_fdt_size <> Timeout.
Proof.
  unfold find_fdt_offset. apply find_fdt_loop_fuel; [lia | lia |].
  destruct (Z.ltb_spec (image + 0) 0); [left; lia|].
  destruct (Z.ltb_spec 0 image).
  - right. lia.
  - right. lia.
Qed.

(** On a buffer shorter than 48 bytes the scan never reaches its exit: it
    ends by returning a candidate or by reading outside the buffer. *)
Lemma find_fdt_loop_short (mem : list byte) (max_fdt_size : Z) (fuel : nat)
    (pos : Z) :
  Z.of_nat (length mem) < sizeof_fdt_header + 8 ->
  0 <= pos <= Z.of_nat (length mem) ->
  match find_fdt_loop mem fuel 0 (Z.of_nat (length mem)) max_fdt_size pos with
  | Ret r => 0 <= r
  | Fault => True
  | Timeout => True
  end.
Proof.
  intros Hlen. revert pos. induction fuel as [|fuel IH]; intros pos Hpos;
    [exact I|].
  simpl. rewrite find_fdt_bound_short by lia.
  unfold sizeof_fdt_header in *.
  destruct (Z.ltb_spec pos (2 ^ 64 + Z.of_nat (length mem) - 48)); [|lia].
  destruct (load32be mem (0 + pos)) as [magic| |] eqn:E; simpl;
    [|exact I|exact I].
  pose proof E as E'. apply load32be_bounds in E'.
  assert (Hnext := IH (size_t (pos + 1))).
  rewrite size_t_small in Hnext by lia. rewrite size_t_small by lia.
  specialize (Hnext ltac:(lia)).
  destruct (negb (magic =? FDT_MAGIC)); [assumption|].
  destruct (get_fdt_totalsize mem (0 + pos) 0 true) as [ts| |]; simpl;
    try exact I.
  destruct (ts <=? 0); [assumption|].
  destruct ((max_fdt_size >? 0) && (ts >? max_fdt_size)); [assumption|].
  rewrite to_int_small; lia.
Qed.

Lemma find_fdt_offset_short (mem : list byte) (max_fdt_size : Z) :
  Z.of_nat (length mem) < sizeof_fdt_header + 8 ->
  find_fdt_offset mem 0 (Z.of_nat (length mem)) max_fdt_size = Fault \/
  exists r, find_fdt_offset mem 0 (Z.of_nat (length mem)) max_fdt_size = Ret r
            /\ 0 <= r.
Proof.
  intros Hlen.
  pose proof (find_fdt_offset_terminates mem 0 (Z.of_nat (length mem))
                max_fdt_size) as Ht.
  pose proof (find_fdt_loop_short mem max_fdt_size (S (length mem)) 0 Hlen
                ltac:(lia)) as Hs.
  unfold find_fdt_offset in *.
  destruct (find_fdt_loop mem (S (length mem)) 0 (Z.of_nat (length mem))
              max_fdt_size 0) as [r| |]; [right; eauto | left; reflexivity|].
  contradiction.
Qed.

(** C1, at a 40-byte buffer that holds a header and at the empty buffer.
    Both are shorter than 48 bytes.  The bound
    [size - sizeof(fdt_header_t) - 8] is unsigned and wraps around, so the
    scan starts: on the 40-byte buffer it validates the candidate at
    offset 0 and returns 0 instead of -1; on the empty buffer its first
    read is outside the buffer. *)
Theorem find_fdt_offset_short_buffer_scans :
  length good_header = 40%nat /\
  find_fdt_offset good_header 0 40 0 = Ret 0 /\
  find_fdt_offset [] 0 0 0 = Fault.
Proof. repeat split; vm_compute; reflexivity. Qed.

(** C3, at two headers whose declared block size runs far past the end of
    the blob: [off_dt_struct + size_dt_struct] (resp. the strings sum)
    exceeds [totalsize] as an integer, yet the 32-bit sum wraps below it
    and strict validation accepts the header. *)
Theorem strict_validation_accepts_wrapped_block :
  (header_at wrap_struct_header 0 wrap_struct_fields /\
   off_dt_struct wrap_struct_fields + size_dt_struct wrap_struct_fields
     > totalsize wrap_struct_fields /\
   get_fdt_totalsize wrap_struct_header 0 0 true = Ret 168) /\
  (header_at wrap_strings_header 0 wrap_strings_fields /\
   off_dt_strings wrap_strings_fields + size_dt_strings wrap_strings_fields
     > totalsize wrap_strings_fields /\
   get_fdt_totalsize wrap_strings_header 0 0 true = Ret 168).
Proof. repeat split; vm_compute; reflexivity. Qed.

(** C6, at the good header with one field changed: with [size_dt_struct]
    set to 0xFFFFFFFF the struct block no longer fits in [totalsize], but
    strict validation still returns [totalsize].  The good header itself
    is accepted with its [totalsize]. *)
Theorem strict_validation_struct_size_not_gating :
  header_ok good_fields /\
  get_fdt_totalsize good_header 0 0 true = Ret (totalsize good_fields) /\
  header_at wrap_struct_header 0 wrap_struct_fields /\
  magic_ok wrap_struct_fields /\ totalsize_ok wrap_struct_fields /\
  version_ok wrap_struct_fields /\ strings_ok wrap_struct_fields /\
  cpuid_ok wrap_struct_fields /\
  ~ struct_ok wrap_struct_fields /\
  get_fdt_totalsize wrap_struct_header 0 0 true
    = Ret (totalsize wrap_struct_fields).
Proof.
  assert (~ struct_ok wrap_struct_fields) as Hn.
  { unfold struct_ok. simpl. lia. }
  repeat split; try (vm_compute; reflexivity); try exact Hn;
    vm_compute; intros; discriminate.
Qed.

(** ** One pass through the switch *)

Ltac inv_all :=
  repeat match goal with
  | H : bind _ _ = Ret _ |- _ => apply bind_Ret in H as (? & ? & H)
  | H : (if ?b then _ else _) = Ret _ |- _ => destruct b eqn:?
  | H : match ?x with _ => _ end = Ret _ |- _ => destruct x eqn:?
  | H : Fault = Ret _ |- _ => discriminate H
  | H : Timeout = Ret _ |- _ => discriminate H
  | H : Ret _ = Ret _ |- _ => injection H as H
  end.

(** Goals [m <> Timeout] for [m] built from reads, binds and branches. *)
Ltac no_timeout :=
  repeat first
    [ discriminate
    | assumption
    | apply load8_not_Timeout
    | apply load32be_not_Timeout
    | apply strlen_not_Timeout
    | match goal with
      | |- bind _ _ <> _ => apply bind_not_Timeout; [|intros ? _]
      | |- (if ?b then _ else _) <> _ => destruct b
      | |- match ?x with _ => _ end <> _ => destruct x
      end ].

Section Walk.

Variable mem : list byte.

Lemma same_query_refl (c : fdt_ctx) : same_query c c.
Proof. unfold same_query. tauto. Qed.

Lemma same_query_trans (c1 c2 c3 : fdt_ctx) :
  same_query c1 c2 -> same_query c2 c3 -> same_query c1 c3.
Proof. unfold same_query. intuition congruence. Qed.

Lemma push_path_Ret (ctx c : fdt_ctx) (name : Z) :
  push_path ctx name = Ret c ->
  0 <= depth ctx <= MAX_FDT_DEPTH /\
  c = set_depth
        (set_path ctx (<[Z.to_nat (depth ctx) := Some name]> (path ctx)))
        (depth ctx + 1).
Proof.
  unfold push_path, MAX_FDT_DEPTH. intros H.
  destruct (Z.ltb_spec (depth ctx) 0); simpl in H; [discriminate|].
  destruct (Z.leb_spec (32 + 1) (depth ctx)); simpl in H; [discriminate|].
  injection H as <-. split; [lia | reflexivity].
Qed.

(** A step that goes on moves [pos] forward and leaves the result slot
    alone; a step that returns leaves [pos] where it is and either leaves
    the result slot alone or stores the property at [pos] in it. *)
Lemma enum_step_frame (ctx : fdt_ctx) (a : action) :
  enum_step mem ctx = Ret a ->
  same_query ctx (ctx_of a) /\
  0 <= pos ctx /\ pos ctx + 4 <= Z.of_nat (length mem) /\
  match a with
  | Return c =>
      pos c = pos ctx /\
      (c = ctx \/
       (c = set_res ctx (Some (pos ctx)) /\ matches mem ctx) \/
       (res c = res ctx /\ load32be mem (pos ctx) = Ret FDT_BEGIN_NODE))
  | Continue c => pos ctx < pos c /\ res c = res ctx
  | Descend c =>
      pos ctx < pos c /\ res c = res ctx /\
      load32be mem (pos ctx) = Ret FDT_BEGIN_NODE
  end.
Proof.
  unfold enum_step. intros H.
  apply bind_Ret in H as (tag & Etag & H).
  pose proof (load32be_bounds _ _ _ Etag) as (Hp0 & Hp1 & _).
  split; [|split; [assumption|split; [assumption|]]].
  - destruct (tag =? FDT_BEGIN_NODE).
    { unfold enum_begin_node in H. inv_all; simplify_eq;
        try apply same_query_refl;
        try (match goal with
             | Hp : push_path _ _ = Ret _ |- _ =>
                 apply push_path_Ret in Hp as [_ ->]
             end); unfold same_query; simpl; tauto. }
    destruct (tag =? FDT_PROP).
    { unfold enum_prop in H. inv_all; simplify_eq;
        unfold same_query; simpl; tauto. }
    inv_all; simplify_eq; try destruct (depth ctx >? 0);
      unfold same_query; simpl; tauto.
  - destruct (Z.eqb_spec tag FDT_BEGIN_NODE) as [->|Hn1].
    { unfold enum_begin_node in H. inv_all; simplify_eq; simpl;
        try (match goal with
             | Hp : push_path _ _ = Ret _ |- _ =>
                 apply push_path_Ret in Hp as [_ ->]
             end); simpl; auto.
      all: try (split; [reflexivity|]; right; right; simpl; auto).
      all: match goal with
           | Hs : strlen _ _ = Ret ?n |- _ =>
               apply strlen_nonneg in Hs;
               pose proof (Z.div_pos (n + 4) 4 ltac:(lia) ltac:(lia))
           end; repeat split; auto; lia. }
    destruct (Z.eqb_spec tag FDT_PROP) as [->|Hn2].
    { unfold enum_prop in H. inv_all; simplify_eq; simpl; auto.
      all: repeat match goal with
           | Hr : (?r =? 0) = true |- _ => apply Z.eqb_eq in Hr; subst r
           end.
      all: try (split; [reflexivity|]; right; left; unfold matches;
                repeat split; eauto;
                match goal with
                | Hs : (?s >=? INT_MAX) = false |- _ =>
                    exists s; split; [assumption|];
                    rewrite Z.geb_leb in Hs; apply Z.leb_gt in Hs; exact Hs
                end).
      all: split; [|reflexivity].
      all: match goal with
           | |- context [u32 (?s + 3) `div` 4] =>
               pose proof (Z.div_pos (u32 (s + 3)) 4
                             ltac:(unfold u32; apply Z.mod_pos_bound; lia)
                             ltac:(lia))
           end; lia. }
    inv_all; simplify_eq; try destruct (depth ctx >? 0); simpl; auto;
      split; try reflexivity; lia.
Qed.

(** Only fuel gives [Timeout]; everything but the walk itself runs
    without fuel. *)

Lemma strcmp_not_Timeout (p : Z) (s : cstring) : strcmp mem p s <> Timeout.
Proof.
  revert p. induction s as [|b s IH]; intros p; simpl; no_timeout.
  apply IH.
Qed.

Lemma strncmp_not_Timeout (s : cstring) (i p : Z) (n : nat) :
  strncmp mem s i p n <> Timeout.
Proof.
  revert i p. induction n as [|n IH]; intros i p; simpl; no_timeout.
  apply IH.
Qed.

Lemma path_at_not_Timeout (ctx : fdt_ctx) (d : Z) : path_at ctx d <> Timeout.
Proof. unfold path_at. no_timeout. Qed.

Lemma check_search_loop_not_Timeout (n : nat) (ctx : fdt_ctx)
    (tpath : cstring) (tp tplen i dn d : Z) :
  check_search_loop mem n ctx tpath tp tplen i dn d <> Timeout.
Proof.
  revert i dn d. induction n as [|n IH]; intros i dn d; simpl;
    no_timeout; try apply path_at_not_Timeout;
    try apply strncmp_not_Timeout; apply IH.
Qed.

Lemma check_search_target_not_Timeout (ctx : fdt_ctx) (prop : Z) :
  check_search_target mem ctx prop <> Timeout.
Proof.
  unfold check_search_target. no_timeout;
    try apply strcmp_not_Timeout; apply check_search_loop_not_Timeout.
Qed.

Lemma print_str_not_Timeout (p : Z) : print_str mem p <> Timeout.
Proof. unfold print_str. no_timeout. Qed.

Lemma is_str_scan_not_Timeout (l : list byte) (i n : Z) :
  is_str_scan l i n <> Timeout.
Proof.
  revert i. induction l as [|d l IH]; intros i; simpl; no_timeout.
  apply IH.
Qed.

Lemma show_fdt_prop_not_Timeout (ctx : fdt_ctx) (prop name : Z) :
  show_fdt_prop mem ctx prop name <> Timeout.
Proof.
  unfold show_fdt_prop. no_timeout;
    try apply is_str_scan_not_Timeout; apply print_str_not_Timeout.
Qed.

Lemma print_path_not_Timeout (n : nat) (ctx : fdt_ctx) (i : Z) :
  print_path mem n ctx i <> Timeout.
Proof.
  revert i. induction n as [|n IH]; intros i; simpl; no_timeout;
    try apply path_at_not_Timeout; try apply print_str_not_Timeout.
  apply IH.
Qed.

Lemma enum_step_not_Timeout (ctx : fdt_ctx) : enum_step mem ctx <> Timeout.
Proof.
  unfold enum_step, enum_begin_node, enum_prop, push_path. no_timeout;
    try apply print_str_not_Timeout; try apply print_path_not_Timeout;
    try apply show_fdt_prop_not_Timeout;
    try apply check_search_target_not_Timeout.
Qed.

(** ** The walk *)

(** Every [return] of [enum_fdt_nodes] is [return NULL]. *)
Lemma enum_fdt_nodes_returns_null (fuel : nat) (ctx c : fdt_ctx)
    (r : option Z) :
  enum_fdt_nodes mem fuel ctx = Ret (c, r) -> r = None.
Proof.
  revert ctx c r. induction fuel as [|fuel IH]; intros ctx c r H;
    [discriminate|].
  simpl in H. apply bind_Ret in H as (a & Ea & H).
  destruct a as [c1|c1|c1].
  - injection H as _ <-. reflexivity.
  - apply bind_Ret in H as ([c2 r2] & E2 & H). simpl in H.
    apply IH in E2 as ->. injection H as _ <-. reflexivity.
  - eapply IH. eassumption.
Qed.

(** The walk from [ctx] ends within one pass per byte left after [pos]. *)
Lemma enum_fdt_nodes_fuel (fuel : nat) (ctx : fdt_ctx) :
  (0 < fuel)%nat ->
  pos ctx < 0 \/ Z.of_nat (length mem) - pos ctx < Z.of_nat fuel ->
  enum_fdt_nodes mem fuel ctx <> Timeout.
Proof.
  revert ctx. induction fuel as [|fuel IH]; intros ctx Hf Hm; [lia|].
  simpl. apply bind_not_Timeout; [apply enum_step_not_Timeout|].
  intros a Ea. apply enum_step_frame in Ea as (_ & Hp0 & Hp1 & Ha).
  destruct a as [c|c|c]; [discriminate| |].
  - destruct Ha as (Hlt & _).
    assert (enum_fdt_nodes mem fuel c <> Timeout) as Hc
      by (apply IH; lia).
    apply bind_not_Timeout; [assumption|].
    intros [c2 r2] E2. apply enum_fdt_nodes_returns_null in E2 as ->.
    simpl. discriminate.
  - destruct Ha as (Hlt & _). apply IH; lia.
Qed.

Lemma enum_fdt_nodes_terminates (ctx : fdt_ctx) :
  enum_fdt_nodes mem (walk_fuel mem) ctx <> Timeout.
Proof.
  apply enum_fdt_nodes_fuel; unfold walk_fuel; [lia|].
  destruct (Z.ltb_spec (pos ctx) 0); [left; assumption | right; lia].
Qed.

(** More fuel does not change an outcome that is not [Timeout]. *)
Lemma enum_fdt_nodes_more_fuel (fuel fuel' : nat) (ctx : fdt_ctx) :
  (fuel <= fuel')%nat ->
  enum_fdt_nodes mem fuel ctx <> Timeout ->
  enum_fdt_nodes mem fuel' ctx = enum_fdt_nodes mem fuel ctx.
Proof.
  revert fuel' ctx. induction fuel as [|fuel IH]; intros fuel' ctx Hle H;
    [contradiction|].
  destruct fuel' as [|fuel']; [lia|].
  simpl in *. destruct (enum_step mem ctx) as [a| |]; simpl in *;
    try reflexivity.
  destruct a as [c|c|c]; [reflexivity| |].
  - assert (enum_fdt_nodes mem fuel c <> Timeout) as Hc.
    { intros E. rewrite E in H. contradiction. }
    rewrite (IH fuel' c) by (assumption || lia).
    destruct (enum_fdt_nodes mem fuel c) as [[c2 r2]| |] eqn:E2; simpl in *;
      try reflexivity.
    apply enum_fdt_nodes_returns_null in E2 as ->. reflexivity.
  - apply IH; [lia | assumption].
Qed.

End Walk.

Section WalkClaims.

Variable mem : list byte.

(** The nesting depth stays below the cap while the walk goes on, and is
    at most the cap when it ends. *)
Lemma enum_step_depth (ctx : fdt_ctx) (a : action) :
  depth ctx < MAX_FDT_DEPTH -> enum_step mem ctx = Ret a ->
  match a with
  | Return c => depth c <= MAX_FDT_DEPTH
  | Continue c => depth c < MAX_FDT_DEPTH
  | Descend c => depth c < MAX_FDT_DEPTH
  end.
Proof.
  unfold MAX_FDT_DEPTH, enum_step. intros Hd H.
  apply bind_Ret in H as (tag & Etag & H).
  destruct (tag =? FDT_BEGIN_NODE).
  { unfold enum_begin_node, MAX_FDT_DEPTH in H. inv_all; simplify_eq;
      try (match goal with
           | Hp : push_path _ _ = Ret _ |- _ =>
               apply push_path_Ret in Hp as [_ ->]
           end);
      repeat match goal with
      | Hb : (_ =? _) = true |- _ => apply Z.eqb_eq in Hb
      | Hb : (_ =? _) = false |- _ => apply Z.eqb_neq in Hb
      end; simpl in *; lia. }
  destruct (tag =? FDT_PROP).
  { unfold enum_prop in H. inv_all; simplify_eq; simpl; lia. }
  inv_all; simplify_eq; try destruct (Z.gtb_spec (depth ctx) 0); simpl; lia.
Qed.

Lemma enum_fdt_nodes_depth (fuel : nat) (ctx c : fdt_ctx) (r : option Z) :
  depth ctx < MAX_FDT_DEPTH -> enum_fdt_nodes mem fuel ctx = Ret (c, r) ->
  depth c <= MAX_FDT_DEPTH.
Proof.
  revert ctx c r. induction fuel as [|fuel IH]; intros ctx c r Hd H;
    [discriminate|].
  simpl in H. apply bind_Ret in H as (a & Ea & H).
  pose proof (enum_step_depth _ _ Hd Ea) as Ha.
  destruct a as [c1|c1|c1].
  - injection H as <- _. assumption.
  - apply bind_Ret in H as ([c2 r2] & E2 & H). simpl in H.
    pose proof (enum_fdt_nodes_returns_null _ _ _ _ _ E2) as ->.
    injection H as <- _. eapply IH; eassumption.
  - eapply IH; eassumption.
Qed.

(** C4 (amended): an END_NODE tag decrements the depth counter when the
    current depth is above 0 and leaves it alone at depth 0; either way
    the walk moves one tag word on and goes on in the same loop, with the
    ancestor names and the result slot as they were. *)
Theorem end_node_pops_above_root (ctx : fdt_ctx) :
  load32be mem (pos ctx) = Ret FDT_END_NODE ->
  exists c,
    enum_step mem ctx = Ret (Continue c) /\
    depth c = (if 0 <? depth ctx then depth ctx - 1 else depth ctx) /\
    pos c = pos ctx + 4 /\ path c = path ctx /\ res c = res ctx /\
    forall fuel,
      enum_fdt_nodes mem (S fuel) ctx = enum_fdt_nodes mem fuel c.
Proof.
  intros Htag.
  assert (enum_step mem ctx
          = Ret (Continue
                   (let c1 := if depth ctx >? 0
                              then set_depth ctx (depth ctx - 1) else ctx in
                    set_pos c1 (pos c1 + 4 * 1)))) as Hstep.
  { unfold enum_step. rewrite Htag. reflexivity. }
  rewrite Z.gtb_ltb in Hstep.
  eexists. split; [exact Hstep|].
  destruct (0 <? depth ctx); simpl;
    (repeat split; try lia; try reflexivity);
    intros fuel; simpl; rewrite Hstep; reflexivity.
Qed.

(** C7: at a BEGIN_NODE that brings the nesting depth to 32 the walk
    returns at once: the position and the result slot are as before, and
    there is no descent.  (With the tree dump on, printing the path may
    read outside the buffer first.)  And the walk from any context comes
    to an end within one pass per byte of the buffer. *)
Theorem depth_guard_aborts (ctx : fdt_ctx) (b : byte) :
  load32be mem (pos ctx) = Ret FDT_BEGIN_NODE ->
  depth ctx = MAX_FDT_DEPTH - 1 ->
  load8 mem (pos ctx + o_node_name) = Ret b -> b <> NUL ->
  (exists c,
     depth c = MAX_FDT_DEPTH /\ pos c = pos ctx /\ res c = res ctx /\
     forall fuel,
       enum_fdt_nodes mem (S fuel) ctx = Ret (c, None) \/
       (show_tree ctx = true /\ enum_fdt_nodes mem (S fuel) ctx = Fault)) /\
  (forall c0 fuel,
     (length mem < fuel)%nat -> enum_fdt_nodes mem fuel c0 <> Timeout).
Proof.
  intros Htag Hd Hname Hb. split.
  - set (c := set_depth
                (set_path ctx
                   (<[Z.to_nat (depth ctx) := Some (pos ctx + o_node_name)]>
                      (path ctx)))
                (depth ctx + 1)).
    exists c. unfold c at 1 2 3. rewrite Hd.
    repeat split; try reflexivity.
    intros fuel.
    assert (enum_begin_node mem ctx
            = let* u := (if show_tree c && (depth c >=? 0)
                         then print_path mem (Z.to_nat (depth c)) c 0
                         else Ret tt) in
              Ret (Return c)) as Hbegin.
    { assert ((depth ctx <? 0) = false) as Hneg
        by (rewrite Hd; reflexivity).
      assert (push_path ctx (pos ctx + o_node_name) = Ret c) as Hpush.
      { unfold push_path. rewrite Hneg.
        replace (MAX_FDT_DEPTH + 1 <=? depth ctx) with false
          by (rewrite Hd; reflexivity).
        reflexivity. }
      assert ((depth c =? MAX_FDT_DEPTH) = true) as Hcap.
      { unfold c. simpl. rewrite Hd. reflexivity. }
      unfold enum_begin_node. rewrite Hname. cbn [bind].
      apply byte_eqb_false in Hb. rewrite Hneg, Hb, Hpush. cbn [bind].
      rewrite Hcap. reflexivity. }
    cbn [enum_fdt_nodes]. unfold enum_step. rewrite Htag. cbn [bind].
    change (FDT_BEGIN_NODE =? FDT_BEGIN_NODE) with true. cbv iota.
    rewrite Hbegin.
    assert (show_tree c = show_tree ctx) as Hs by reflexivity.
    rewrite Hs. destruct (show_tree ctx); cbn [andb].
    + destruct (depth c >=? 0); cbn [bind]; [|left; reflexivity].
      destruct (print_path mem (Z.to_nat (depth c)) c 0) as [[]| |] eqn:E;
        cbn [bind].
      * left. reflexivity.
      * right. split; reflexivity.
      * exfalso. revert E. apply print_path_not_Timeout.
    + left. reflexivity.
  - intros c0 fuel Hf. apply enum_fdt_nodes_fuel; [lia|].
    destruct (Z.ltb_spec (pos c0) 0); [left; assumption | right; lia].
Qed.

End WalkClaims.

(** C4, as first stated, fails at the END_NODE of the root: the depth is
    0, which is not below 0, yet the step leaves it at 0 and does not
    bring it to -1. *)
Lemma end_node_at_depth_zero_keeps_depth :
  depth root_end_ctx >= 0 /\
  load32be root_end_mem (pos root_end_ctx) = Ret FDT_END_NODE /\
  exists c,
    enum_step root_end_mem root_end_ctx = Ret (Continue c) /\
    depth c = 0 /\ depth c <> depth root_end_ctx - 1.
Proof.
  split; [vm_compute; discriminate|]. split; [reflexivity|].
  eexists. split; [vm_compute; reflexivity|].
  split; [reflexivity | vm_compute; discriminate].
Qed.

Lemma end_node_pops_above_root_witness :
  exists c,
    enum_step root_end_mem root_end_ctx = Ret (Continue c) /\
    depth c = (if 0 <? depth root_end_ctx then depth root_end_ctx - 1
               else depth root_end_ctx) /\
    pos c = pos root_end_ctx + 4 /\ path c = path root_end_ctx /\
    res c = res root_end_ctx /\
    forall fuel,
      enum_fdt_nodes root_end_mem (S fuel) root_end_ctx
      = enum_fdt_nodes root_end_mem fuel c.
Proof.
  apply (end_node_pops_above_root root_end_mem root_end_ctx).
  reflexivity.
Defined.

Lemma depth_guard_aborts_witness :
  (exists c,
     depth c = MAX_FDT_DEPTH /\ pos c = pos deep_ctx31 /\
     res c = res deep_ctx31 /\
     forall fuel,
       enum_fdt_nodes deep_blob (S fuel) deep_ctx31 = Ret (c, None) \/
       (show_tree deep_ctx31 = true /\
        enum_fdt_nodes deep_blob (S fuel) deep_ctx31 = Fault)) /\
  (forall c0 fuel,
     (length deep_blob < fuel)%nat ->
     enum_fdt_nodes deep_blob fuel c0 <> Timeout).
Proof.
  apply (depth_guard_aborts deep_blob deep_ctx31 "n"%byte).
  - reflexivity.
  - reflexivity.
  - reflexivity.
  - discriminate.
Defined.

(** The stream of the specification: 33 BEGIN_NODEs, none closed.  The
    walk from the start of the struct block stops at the 33rd with depth
    32 and nothing found, and the lookup returns NULL. *)
Example deep_blob_walk :
  (exists c,
     enum_fdt_nodes deep_blob (walk_fuel deep_blob) deep_start = Ret (c, None)
     /\ depth c = 32 /\ pos c = 56 + 8 * 32 /\ res c = None) /\
  get_fdt_prop deep_blob 0 (Some (cstr "/n")) (Some (cstr "x")) = Ret None.
Proof.
  split; [|vm_compute; reflexivity].
  eexists. split; [vm_compute; reflexivity|].
  repeat split; reflexivity.
Qed.

(** ** Paths without segments *)

Lemma zero_segments_depth (path : cstring) :
  zero_segments path -> get_path_depth path = 0.
Proof.
  unfold zero_segments, get_path_depth.
  destruct path as [|b0 path]; [reflexivity|].
  simpl. unfold char_at. simpl.
  destruct (Byte.eqb b0 NUL) eqn:E0.
  { apply byte_eqb_true in E0 as ->. reflexivity. }
  simpl. destruct (Byte.eqb b0 SLASH) eqn:S0.
  - destruct path as [|b1 path]; [reflexivity|].
    simpl. destruct (Byte.eqb b1 NUL) eqn:E1; [reflexivity|].
    unfold strip_trailing_slash.
    destruct path as [|b2 path].
    + simpl. destruct (Byte.eqb b1 SLASH) eqn:S1; [|discriminate].
      intros _. reflexivity.
    + simpl. destruct (Byte.eqb b2 NUL) eqn:E2.
      * simpl. destruct (Byte.eqb b1 SLASH) eqn:S1; [|discriminate].
        intros _. reflexivity.
      * intros H. exfalso.
        destruct (last (b1 :: b2 :: c_bytes path)) as [x|]; [|discriminate].
        destruct (Byte.eqb x SLASH); discriminate.
  - unfold strip_trailing_slash. intros H. exfalso.
    destruct (c_bytes path) as [|b1 l] eqn:El.
    + simpl in H. rewrite S0 in H. discriminate.
    + destruct (last (b0 :: b1 :: l)) as [x|]; [|discriminate].
      destruct (Byte.eqb x SLASH); discriminate.
Qed.

(** ** Lookups that cannot match *)

Section Lookup.

Variable mem : list byte.

(** A match is found at a depth equal to the target depth, and that is
    above 0: no property of the root node matches. *)
Lemma check_search_target_match_depth (ctx : fdt_ctx) (prop : Z) :
  check_search_target mem ctx prop = Ret 0 ->
  depth ctx = target_depth ctx /\ 0 < depth ctx /\
  exists nm, target_name ctx = Some nm.
Proof.
  unfold check_search_target. intros H.
  destruct (target_path ctx) as [tpath|]; [|discriminate].
  destruct (target_name ctx) as [nm|]; [|discriminate].
  destruct (Z.eqb_spec (depth ctx) (target_depth ctx)) as [Hd|];
    [|discriminate].
  simpl in H. apply bind_Ret in H as (nameoff & _ & H).
  apply bind_Ret in H as (c & _ & H).
  destruct (negb (c =? 0)); [discriminate|].
  destruct (Z.leb_spec (target_depth ctx) 0); [discriminate|].
  split; [assumption|]. split; [lia|]. eauto.
Qed.

Lemma enum_fdt_nodes_no_target (fuel : nat) (ctx c : fdt_ctx)
    (r : option Z) :
  target_depth ctx <= 0 ->
  enum_fdt_nodes mem fuel ctx = Ret (c, r) -> res c = res ctx.
Proof.
  revert ctx c r. induction fuel as [|fuel IH]; intros ctx c r Ht H;
    [discriminate|].
  simpl in H. apply bind_Ret in H as (a & Ea & H).
  apply enum_step_frame in Ea as (Hq & _ & _ & Ha).
  assert (target_depth (ctx_of a) <= 0) as Ht'.
  { destruct Hq as (_ & _ & _ & -> & _). assumption. }
  destruct a as [c1|c1|c1]; simpl in *.
  - injection H as <- _.
    destruct Ha as (_ & [-> | [(_ & _ & _ & Hm) | (Hr & _)]]);
      [reflexivity | | assumption].
    apply check_search_target_match_depth in Hm. lia.
  - apply bind_Ret in H as ([c2 r2] & E2 & H). simpl in H.
    pose proof (enum_fdt_nodes_returns_null _ _ _ _ _ E2) as ->.
    injection H as <- _. destruct Ha as (_ & <- & _).
    eapply IH; eassumption.
  - destruct Ha as (_ & <-). eapply IH; eassumption.
Qed.

Lemma get_fdt_totalsize_not_Timeout (image offset : Z) (check : bool) :
  get_fdt_totalsize mem image offset check <> Timeout.
Proof. unfold get_fdt_totalsize. no_timeout. Qed.

Lemma init_fdt_ctx_not_Timeout (img : Z) : init_fdt_ctx mem img <> Timeout.
Proof.
  unfold init_fdt_ctx. no_timeout. apply get_fdt_totalsize_not_Timeout.
Qed.

Lemma get_fdt_prop_not_Timeout (img : Z) (path name : option cstring) :
  get_fdt_prop mem img path name <> Timeout.
Proof.
  unfold get_fdt_prop. no_timeout;
    try apply init_fdt_ctx_not_Timeout; apply enum_fdt_nodes_terminates.
Qed.

(** With a path of depth 0, or one that [get_path_depth] rejects, the
    lookup returns NULL (unless the walk reads outside the buffer). *)
Lemma get_fdt_prop_depth_le_0 (img : Z) (path : cstring)
    (name : option cstring) :
  get_path_depth path <= 0 ->
  get_fdt_prop mem img (Some path) name = Ret None \/
  get_fdt_prop mem img (Some path) name = Fault.
Proof.
  intros Hd.
  destruct (get_fdt_prop mem img (Some path) name) as [r| |] eqn:E;
    [left | right; reflexivity
    | exfalso; revert E; apply get_fdt_prop_not_Timeout].
  f_equal. unfold get_fdt_prop in E.
  apply bind_Ret in E as ([r0 c0] & _ & E). cbn [fst snd] in E.
  destruct (negb (r0 =? 0)); [congruence|].
  replace (match name, Some path with None, None => true | _, _ => false end)
    with false in E by (destruct name; reflexivity).
  destruct (Z.ltb_spec (get_path_depth path) 0); [congruence|].
  cbv zeta in E.
  apply bind_Ret in E as (tag & _ & E).
  destruct (negb (tag =? FDT_BEGIN_NODE)); [congruence|].
  apply bind_Ret in E as (w & _ & E).
  destruct (negb (w =? 0)); [congruence|].
  apply bind_Ret in E as ([c r1] & Ew & E). cbn [fst snd] in E.
  apply enum_fdt_nodes_no_target in Ew; [|simpl; lia].
  simpl in Ew. rewrite Ew in E. destruct name; congruence.
Qed.

(** C2 (amended): for every buffer the lookup with path "//" returns
    NULL, the result of a lookup that finds nothing: [get_path_depth]
    gives "//" the depth 0, which is no error code, and a path that it does
    reject with a negative code ends in the same NULL. *)
Theorem double_slash_lookup_returns_null (img : Z) (name : option cstring) :
  get_path_depth (cstr "//") = 0 /\
  (get_fdt_prop mem img (Some (cstr "//")) name = Ret None \/
   get_fdt_prop mem img (Some (cstr "//")) name = Fault) /\
  forall path,
    get_path_depth path < 0 ->
    get_fdt_prop mem img (Some path) name = Ret None \/
    get_fdt_prop mem img (Some path) name = Fault.
Proof.
  split; [reflexivity|]. split.
  - apply get_fdt_prop_depth_le_0. vm_compute. discriminate.
  - intros path Hd. apply get_fdt_prop_depth_le_0. lia.
Qed.

(** C10: a lookup whose path has no segment returns NULL whatever the
    buffer and the property name; and whatever the path, the matcher
    accepts a property only at a depth above 0, that is, never a property
    of the root node. *)
Theorem root_properties_unreachable (img : Z) (path : cstring)
    (name : option cstring) :
  zero_segments path ->
  (get_fdt_prop mem img (Some path) name = Ret None \/
   get_fdt_prop mem img (Some path) name = Fault) /\
  (forall ctx prop,
     check_search_target mem ctx prop = Ret 0 -> 0 < depth ctx).
Proof.
  intros Hz. split.
  - apply get_fdt_prop_depth_le_0. rewrite zero_segments_depth by assumption.
    lia.
  - intros ctx prop H. apply check_search_target_match_depth in H. tauto.
Qed.

(** C5 (amended): the integer accessor returns -1 exactly when no property
    matches or the matched property's length is not 4; a property of
    length 4 gives its big-endian value, which lies in [0, 2^32) and so
    differs from the sentinel. *)
Theorem get_fdt_prop_u32_sentinel (img : Z) (path name : option cstring) :
  (get_fdt_prop_u32 mem img path name = Ret (-1) <->
   get_fdt_prop mem img path name = Ret None \/
   exists prop len,
     get_fdt_prop mem img path name = Ret (Some prop) /\
     load32be mem (prop + o_prop_len) = Ret len /\ len <> 4) /\
  (forall prop,
     get_fdt_prop mem img path name = Ret (Some prop) ->
     load32be mem (prop + o_prop_len) = Ret 4 ->
     get_fdt_prop_u32 mem img path name
     = load32be mem (prop + o_prop_data)) /\
  (forall v,
     get_fdt_prop_u32 mem img path name = Ret v ->
     v = -1 \/ 0 <= v < 2 ^ 32).
Proof.
  unfold get_fdt_prop_u32, get_fdt_prop_val.
  destruct (get_fdt_prop mem img path name) as [[prop|]| |] eqn:Ep;
    cbn [bind].
  - destruct (load32be mem (prop + o_prop_len)) as [len| |] eqn:El;
      cbn [bind].
    + pose proof (load32be_bounds _ _ _ El) as (_ & _ & Hlen).
      assert (to_int len = 4 <-> len = 4) as Hto.
      { unfold to_int. rewrite Z.mod_small by assumption.
        destruct (Z.ltb_spec len (2 ^ 31)); lia. }
      destruct (Z.eqb_spec (to_int len) 4) as [H4|H4].
      * apply Hto in H4. subst len. repeat split.
        -- intros H. apply load32be_bounds in H. lia.
        -- intros [H | (p' & l' & H1 & H2 & H3)]; [discriminate|].
           injection H1 as <-. congruence.
        -- intros p' [= <-] _. reflexivity.
        -- intros v H. apply load32be_bounds in H. lia.
      * repeat split.
        -- intros _. right. exists prop, len. tauto.
        -- intros p' [= <-] H. rewrite H in El. injection El as <-.
           exfalso. apply H4. reflexivity.
        -- intros v [= <-]. left. reflexivity.
    + repeat split; try discriminate.
      * intros [H | (p' & l' & H1 & H2 & H3)]; [discriminate|].
        injection H1 as <-. congruence.
      * intros p' [= <-] H. congruence.
    + exfalso. revert El. apply load32be_not_Timeout.
  - repeat split.
    + intros _. left. reflexivity.
    + discriminate.
    + intros v [= <-]. left. reflexivity.
  - repeat split; try discriminate.
    intros [H | (p' & l' & H1 & _)]; discriminate.
  - exfalso. revert Ep. apply get_fdt_prop_not_Timeout.
Qed.

End Lookup.

(** C2, as first stated, fails on the demo blob: with path "//" the lookup
    gives the very result of a lookup that finds nothing, and so does a
    path with an empty segment; "//" is not even given an error code. *)
Lemma double_slash_same_as_not_found :
  get_path_depth (cstr "//") = 0 /\
  get_fdt_prop demo_blob 0 (Some (cstr "//")) (Some (cstr "bootargs"))
    = Ret None /\
  get_fdt_prop demo_blob 0 (Some (cstr "/chosen")) (Some (cstr "missing"))
    = Ret None /\
  get_path_depth (cstr "/chosen//x") = -12 /\
  get_fdt_prop demo_blob 0 (Some (cstr "/chosen//x")) (Some (cstr "bootargs"))
    = Ret None.
Proof. repeat split; vm_compute; reflexivity. Qed.

(** The root of the demo blob carries [model]; the lookups with the three
    paths without segments do not find it. *)
Lemma root_properties_unreachable_witness :
  zero_segments (cstr "/") /\
  ((get_fdt_prop demo_blob 0 (Some (cstr "/")) (Some (cstr "model"))
      = Ret None \/
    get_fdt_prop demo_blob 0 (Some (cstr "/")) (Some (cstr "model"))
      = Fault) /\
   (forall ctx prop,
      check_search_target demo_blob ctx prop = Ret 0 -> 0 < depth ctx)).
Proof.
  split; [reflexivity|].
  apply (root_properties_unreachable demo_blob 0 (cstr "/")
           (Some (cstr "model"))).
  reflexivity.
Defined.

Example root_model_not_found :
  get_fdt_prop demo_blob 0 (Some (cstr "")) (Some (cstr "model")) = Ret None /\
  get_fdt_prop demo_blob 0 (Some (cstr "/")) (Some (cstr "model")) = Ret None /\
  get_fdt_prop demo_blob 0 (Some (cstr "//")) (Some (cstr "model")) = Ret None /\
  get_fdt_prop demo_blob 0 (Some (cstr "/chosen")) (Some (cstr "model"))
    = Ret (Some 140).
Proof. repeat split; vm_compute; reflexivity. Qed.

(** C5, as first stated, fails on the demo blob: [/chosen/cell] holds
    ff ff ff ff and the accessor returns 4294967295, which is not the
    sentinel -1; a missing property gives -1. *)
Lemma u32_all_ones_is_not_sentinel :
  get_fdt_prop_u32 demo_blob 0 (Some (cstr "/chosen")) (Some (cstr "cell"))
    = Ret 0xFFFFFFFF /\
  get_fdt_prop_u32 demo_blob 0 (Some (cstr "/chosen")) (Some (cstr "missing"))
    = Ret (-1) /\
  0xFFFFFFFF <> -1.
Proof. repeat split; try (vm_compute; reflexivity). discriminate. Qed.

Lemma get_fdt_prop_u32_sentinel_witness :
  get_fdt_prop_u32 demo_blob 0 (Some (cstr "/chosen")) (Some (cstr "cell"))
  = load32be demo_blob (124 + o_prop_data).
Proof.
  apply (proj1 (proj2 (get_fdt_prop_u32_sentinel demo_blob 0
                         (Some (cstr "/chosen")) (Some (cstr "cell"))))).
  - vm_compute. reflexivity.
  - vm_compute. reflexivity.
Defined.

(** ** The order of the walk *)

Section Order.

Variable mem : list byte.

Lemma next_det (c c1 c2 : fdt_ctx) :
  next mem c c1 -> next mem c c2 -> c1 = c2.
Proof. unfold next. intros [H1|H1] [H2|H2]; congruence. Qed.

Lemma next_frame (c c' : fdt_ctx) :
  next mem c c' -> same_query c c' /\ pos c < pos c' /\ res c' = res c.
Proof.
  intros [H|H]; apply enum_step_frame in H; simpl in H; tauto.
Qed.

Lemma visits_first (c c1 c2 : fdt_ctx) :
  next mem c c1 -> visits mem c1 c2 -> visits mem c c2.
Proof.
  intros Hn Hv. induction Hv as [|c2 c3 Hv IH Hn'].
  - eapply visits_later; [apply visits_here | assumption].
  - eapply visits_later; eassumption.
Qed.

Lemma visits_inv_first (c c2 : fdt_ctx) :
  visits mem c c2 ->
  c2 = c \/ exists c1, next mem c c1 /\ visits mem c1 c2.
Proof.
  intros Hv. induction Hv as [|c2 c3 Hv IH Hn]; [left; reflexivity|].
  right. destruct IH as [-> | (c1 & Hn1 & Hv1)].
  - exists c3. split; [assumption | apply visits_here].
  - exists c1. split; [assumption|]. eapply visits_later; eassumption.
Qed.

Lemma visits_frame (c c' : fdt_ctx) :
  visits mem c c' ->
  same_query c c' /\ res c' = res c /\ (c' = c \/ pos c < pos c').
Proof.
  intros Hv. induction Hv as [|c1 c2 Hv IH Hn].
  - split; [apply same_query_refl|]. split; [reflexivity | left; reflexivity].
  - apply next_frame in Hn as (Hq & Hp & Hr).
    destruct IH as (Hq1 & Hr1 & Hp1).
    split; [eapply same_query_trans; eassumption|].
    split; [congruence|]. right. destruct Hp1 as [-> | Hp1]; lia.
Qed.

(** The passes of a walk are in one line. *)
Lemma visits_linear (c0 c c' : fdt_ctx) :
  visits mem c0 c -> visits mem c0 c' ->
  visits mem c c' \/ visits mem c' c.
Proof.
  intros Hc Hc'. induction Hc' as [|c1 c2 Hv IH Hn].
  - right. assumption.
  - destruct IH as [IH|IH].
    + left. eapply visits_later; eassumption.
    + apply visits_inv_first in IH as [-> | (y & Hy & Hvy)].
      * left. eapply visits_later; [apply visits_here | assumption].
      * right. rewrite (next_det _ _ _ Hn Hy). assumption.
Qed.

Lemma walk_to_visits (n : nat) (c c' : fdt_ctx) :
  walk_to mem n c = Some c' -> visits mem c c'.
Proof.
  revert c. induction n as [|n IH]; intros c H; simpl in H.
  - injection H as <-. apply visits_here.
  - destruct (enum_step mem c) as [[c1|c1|c1]| |] eqn:E; try discriminate.
    + apply (visits_first c c1); [right; assumption | apply IH; assumption].
    + apply (visits_first c c1); [left; assumption | apply IH; assumption].
Qed.

(** A pass at a property that matches returns with that property as the
    result, and does nothing else. *)
Lemma matches_step (c : fdt_ctx) (a : action) :
  matches mem c -> enum_step mem c = Ret a ->
  a = Return (set_res c (Some (pos c))).
Proof.
  intros (Htag & (len & Hlen & Hmax) & Hm) H.
  unfold enum_step in H. rewrite Htag in H. simpl in H.
  unfold enum_prop in H. rewrite Hlen, Hm in H.
  apply bind_Ret in H as (nameoff & _ & H). simpl in H.
  rewrite Z.geb_leb in H.
  destruct (Z.leb_spec INT_MAX len); [lia|].
  apply bind_Ret in H as (u & _ & H). simpl in H. congruence.
Qed.

Lemma matches_step_quiet (c : fdt_ctx) :
  matches mem c -> show_tree c = false ->
  enum_step mem c = Ret (Return (set_res c (Some (pos c)))).
Proof.
  intros (Htag & (len & Hlen & Hmax) & Hm) Hs.
  assert (exists nameoff,
            load32be mem (pos c + o_prop_nameoff) = Ret nameoff)
    as (nameoff & Hoff).
  { unfold check_search_target in Hm.
    destruct (target_path c); [|discriminate].
    destruct (target_name c); [|discriminate].
    destruct (negb (depth c =? target_depth c)); [discriminate|].
    apply bind_Ret in Hm as (nameoff & E & _). eauto. }
  unfold enum_step. rewrite Htag. simpl.
  unfold enum_prop. rewrite Hoff, Hlen, Hs, Hm. simpl.
  rewrite Z.geb_leb. destruct (Z.leb_spec INT_MAX len); [lia|].
  reflexivity.
Qed.

(** The walk ends at a pass that returns. *)
Lemma enum_fdt_nodes_last (fuel : nat) (c0 cf : fdt_ctx) (r : option Z) :
  enum_fdt_nodes mem fuel c0 = Ret (cf, r) ->
  exists cl, visits mem c0 cl /\ enum_step mem cl = Ret (Return cf).
Proof.
  revert c0 cf r. induction fuel as [|fuel IH]; intros c0 cf r H;
    [discriminate|].
  simpl in H. apply bind_Ret in H as (a & Ea & H).
  destruct a as [c1|c1|c1].
  - injection H as <- _. exists c0. split; [apply visits_here | assumption].
  - apply bind_Ret in H as ([c2 r2] & E2 & H). simpl in H.
    pose proof (enum_fdt_nodes_returns_null _ _ _ _ _ E2) as ->.
    injection H as <- _. apply IH in E2 as (cl & Hv & Hl).
    exists cl. split; [|assumption].
    apply (visits_first c0 c1); [right|]; assumption.
  - apply IH in H as (cl & Hv & Hl).
    exists cl. split; [|assumption].
    apply (visits_first c0 c1); [left|]; assumption.
Qed.

Lemma visits_enum (c0 c : fdt_ctx) (fuel : nat)
    (o : M (fdt_ctx * option Z)) :
  visits mem c0 c -> enum_fdt_nodes mem fuel c = o -> o <> Timeout ->
  exists fuel', enum_fdt_nodes mem fuel' c0 = o.
Proof.
  intros Hv. revert fuel. induction Hv as [|c1 c2 Hv IH Hn];
    intros fuel H Ho; [eauto|].
  apply (IH (S fuel)); [|assumption]. simpl.
  destruct Hn as [Hn|Hn]; rewrite Hn; simpl; [assumption|].
  rewrite H. destruct o as [[cf r]| |]; [|reflexivity|contradiction].
  simpl. apply enum_fdt_nodes_returns_null in H as ->. reflexivity.
Qed.

(** C8: the passes of the walk go through the stream in increasing
    position.  When the walk returns, the pass it ended at is the only one
    that may match: every pass before it was at a smaller position and did
    not match, and no pass comes after it.  The result slot holds a
    property exactly when that last pass matches, and then it holds the
    property of that pass.  Conversely, once the walk reaches a pass that
    matches, it returns with the property of that pass as the result.
    (With the tree dump on, printing that property may read outside the
    buffer first.) *)
Theorem first_match_wins (c0 : fdt_ctx) :
  res c0 = None ->
  (forall fuel cf r,
     enum_fdt_nodes mem fuel c0 = Ret (cf, r) ->
     exists cl,
       visits mem c0 cl /\ pos cf = pos cl /\
       (forall c, visits mem c0 c -> c <> cl ->
                  pos c < pos cl /\ ~ matches mem c) /\
       match res cf with
       | Some p => matches mem cl /\ p = pos cl /\ cf = set_res cl (Some p)
       | None => ~ matches mem cl
       end) /\
  (forall cm,
     visits mem c0 cm -> matches mem cm ->
     forall fuel,
       (length mem < fuel)%nat ->
       enum_fdt_nodes mem fuel c0 = Ret (set_res cm (Some (pos cm)), None) \/
       (show_tree c0 = true /\ enum_fdt_nodes mem fuel c0 = Fault)).
Proof.
  intros Hres. split.
  - intros fuel cf r H.
    apply enum_fdt_nodes_last in H as (cl & Hvl & Hl).
    exists cl. split; [assumption|].
    pose proof (enum_step_frame _ _ _ Hl) as (_ & _ & _ & Hpos & Hcase).
    split; [assumption|]. split.
    + intros c Hv Hne.
      destruct (visits_linear _ _ _ Hv Hvl) as [Hcl|Hcl].
      * pose proof (visits_frame _ _ Hcl) as (_ & _ & [->|Hlt]);
          [contradiction|].
        split; [assumption|]. intros Hm.
        apply visits_inv_first in Hcl as [->|(y & Hy & _)];
          [contradiction|].
        destruct Hy as [Hy|Hy];
          apply (matches_step _ _ Hm) in Hy; discriminate.
      * apply visits_inv_first in Hcl as [->|(y & Hy & _)];
          [contradiction|].
        destruct Hy as [Hy|Hy]; congruence.
    + pose proof (visits_frame _ _ Hvl) as (_ & Hrl & _).
      rewrite Hres in Hrl.
      destruct Hcase as [-> | [(-> & Hm) | (Hr & _)]].
      * rewrite Hrl. intros Hm.
        apply (matches_step _ _ Hm) in Hl. injection Hl as Hl.
        rewrite Hl in Hrl. discriminate.
      * simpl. tauto.
      * rewrite Hr, Hrl. intros Hm.
        apply (matches_step _ _ Hm) in Hl. injection Hl as Hl.
        rewrite Hl in Hr. simpl in Hr. congruence.
  - intros cm Hv Hm fuel Hf.
    assert (show_tree cm = show_tree c0) as Hs.
    { apply visits_frame in Hv as ((_ & _ & _ & _ & _ & _ & ->) & _).
      reflexivity. }
    assert (enum_fdt_nodes mem fuel c0 <> Timeout) as Hnt.
    { apply enum_fdt_nodes_fuel; [lia|].
      destruct (Z.ltb_spec (pos c0) 0); [left; assumption | right; lia]. }
    assert (forall o, enum_fdt_nodes mem 1 cm = o -> o <> Timeout ->
                      enum_fdt_nodes mem fuel c0 = o) as Hsame.
    { intros o H1 Ho.
      destruct (visits_enum _ _ _ _ Hv H1 Ho) as (fuel' & H').
      destruct (Nat.le_ge_cases fuel fuel') as [Hle|Hle].
      - rewrite <- H'. symmetry.
        apply enum_fdt_nodes_more_fuel; assumption.
      - rewrite <- H'. apply enum_fdt_nodes_more_fuel; [assumption|].
        rewrite H'. assumption. }
    destruct (enum_step mem cm) as [a| |] eqn:Estep.
    + left. apply (matches_step _ _ Hm) in Estep as Ha. subst a.
      apply Hsame; [|discriminate]. simpl. rewrite Estep. reflexivity.
    + right. split.
      * destruct (show_tree c0); [reflexivity|].
        rewrite (matches_step_quiet _ Hm Hs) in Estep. discriminate.
      * apply Hsame; [|discriminate]. simpl. rewrite Estep. reflexivity.
    + exfalso. revert Estep. apply enum_step_not_Timeout.
Qed.

End Order.

Lemma first_match_wins_witness :
  exists cm,
    walk_to demo_blob 5 demo_start = Some cm /\ pos cm = 140 /\
    forall fuel,
      (length demo_blob < fuel)%nat ->
      enum_fdt_nodes demo_blob fuel demo_start
      = Ret (set_res cm (Some (pos cm)), None).
Proof.
  eexists. split; [vm_compute; reflexivity|]. split; [reflexivity|].
  match goal with
  | |- forall fuel, _ -> enum_fdt_nodes _ _ _ = Ret (set_res ?cm _, _) =>
      assert (visits demo_blob demo_start cm) as Hv
        by (apply (walk_to_visits demo_blob 5); vm_compute; reflexivity);
      assert (matches demo_blob cm) as Hm
        by (split; [reflexivity|]; split; [|vm_compute; reflexivity];
            exists 5; split; reflexivity)
  end.
  intros fuel Hf.
  destruct (proj2 (first_match_wins demo_blob demo_start eq_refl) _ Hv Hm
              fuel Hf) as [H | [H _]].
  - exact H.
  - discriminate H.
Defined.

(** In the demo blob both [/chosen] and [/eth0] carry [model]; under the
    pattern "/*" the lookup returns the one of [/chosen], which comes
    first in the stream. *)
Example first_of_two_matches :
  get_fdt_prop demo_blob 0 (Some (cstr "/*")) (Some (cstr "model"))
    = Ret (Some 140) /\
  get_fdt_prop demo_blob 0 (Some (cstr "/chosen")) (Some (cstr "model"))
    = Ret (Some 140) /\
  get_fdt_prop demo_blob 0 (Some (cstr "/eth0")) (Some (cstr "model"))
    = Ret (Some 176).
Proof. repeat split; vm_compute; reflexivity. Qed.

(** ** The matcher on a wildcard segment *)

Lemma char_at_lookup (s : cstring) (k : nat) (x : byte) :
  s !! k = Some x -> char_at s (Z.of_nat k) = x.
Proof.
  intros H. unfold char_at.
  destruct (Z.ltb_spec (Z.of_nat k) 0); [lia|].
  rewrite Nat2Z.id. apply nth_lookup_Some with (d := NUL) in H. exact H.
Qed.

Lemma char_at_app_r (l1 l2 : cstring) (j : Z) :
  0 <= j -> char_at (l1 ++ l2) (Z.of_nat (length l1) + j) = char_at l2 j.
Proof.
  intros Hj. unfold char_at.
  destruct (Z.ltb_spec (Z.of_nat (length l1) + j) 0); [lia|].
  destruct (Z.ltb_spec j 0); [lia|].
  replace (Z.to_nat (Z.of_nat (length l1) + j))
    with (length l1 + Z.to_nat j)%nat by lia.
  rewrite app_nth2 by lia. f_equal. lia.
Qed.

Lemma cstrlen_no_nul (l : cstring) :
  NUL ∉ l -> cstrlen l = Z.of_nat (length l).
Proof.
  induction l as [|b l IH]; intros H; [reflexivity|].
  apply not_elem_of_cons in H as [Hb Hl]. simpl.
  destruct (Byte.eqb b NUL) eqn:E.
  - apply byte_eqb_true in E. congruence.
  - rewrite IH by assumption. lia.
Qed.

Lemma cstring_from_cons (l : list byte) (y : byte) (anc : cstring) :
  cstring_from l = Some (y :: anc) ->
  exists l', l = y :: l' /\ y <> NUL /\ cstring_from l' = Some anc.
Proof.
  destruct l as [|b l]; simpl; [discriminate|].
  destruct (Byte.eqb b NUL) eqn:E; [discriminate|].
  destruct (cstring_from l) as [t|] eqn:Et; simpl; [|discriminate].
  intros [= <- <-]. exists l. apply byte_eqb_false in E.
  split; [reflexivity|]. split; [assumption | exact Et].
Qed.

Lemma cstring_from_strlen (l : list byte) (anc : cstring) :
  cstring_from l = Some anc -> strlen_from l = Ret (Z.of_nat (length anc)).
Proof.
  revert anc. induction l as [|b l IH]; intros anc; simpl; [discriminate|].
  destruct (Byte.eqb b NUL); [intros [= <-]; reflexivity|].
  destruct (cstring_from l) as [t|]; simpl; [|discriminate].
  intros [= <-]. rewrite (IH t eq_refl). simpl. f_equal. lia.
Qed.

Lemma holds_app (s : cstring) (off : Z) (l1 l2 : list byte) :
  holds s off (l1 ++ l2) ->
  holds s off l1 /\ holds s (off + Z.of_nat (length l1)) l2.
Proof.
  intros H. split; intros k x Hk.
  - apply H. rewrite lookup_app_l; [assumption|].
    eapply lookup_lt_Some. eassumption.
  - replace (off + Z.of_nat (length l1) + Z.of_nat k)
      with (off + Z.of_nat (length l1 + k)) by lia.
    apply H. rewrite lookup_app_r by lia.
    replace (length l1 + k - length l1)%nat with k by lia. assumption.
Qed.

Lemma holds_middle (pre mid post : list byte) :
  holds (pre ++ mid ++ post) (Z.of_nat (length pre)) mid.
Proof.
  intros k x Hk. rewrite char_at_app_r by lia.
  apply char_at_lookup. rewrite lookup_app_l; [assumption|].
  eapply lookup_lt_Some. eassumption.
Qed.

Lemma join_path_cons (s s' : list byte) (rest : list (list byte)) :
  join_path (s :: s' :: rest) = s ++ SLASH :: join_path (s' :: rest).
Proof. reflexivity. Qed.

Lemma seg_match_star (seg anc : list byte) :
  seg_match (seg ++ [STAR]) anc <-> seg `prefix_of` anc.
Proof.
  unfold seg_match. rewrite last_snoc, removelast_last. reflexivity.
Qed.

Lemma check_search_loop_S (mem : list byte) (n : nat) (ctx : fdt_ctx)
    (tpath : cstring) (tp tplen i dn d : Z) :
  check_search_loop mem (S n) ctx tpath tp tplen i dn d =
  if Byte.eqb (char_at tpath (tp + i)) SLASH || (i =? tplen) then
    let dnlen := tp + i - dn in
    if dnlen =? 0 then Ret (-12) else
    let next :=
      check_search_loop mem n ctx tpath tp tplen (i + 1) (tp + i + 1)
        (d + 1) in
    if Byte.eqb (char_at tpath (dn + dnlen - 1)) STAR then
      let dnlen := dnlen - 1 in
      let* a := path_at ctx d in
      let* len := strlen mem a in
      if len <? dnlen then Ret (-6) else
      let* c := strncmp mem tpath dn a (Z.to_nat dnlen) in
      if negb (c =? 0) then Ret (-7) else next
    else
      let* a := path_at ctx d in
      let* len := strlen mem a in
      if negb (len =? dnlen) then Ret (-2) else
      let* c := strncmp mem tpath dn a (Z.to_nat dnlen) in
      if negb (c =? 0) then Ret (-3) else next
  else check_search_loop mem n ctx tpath tp tplen (i + 1) dn d.
Proof. reflexivity. Qed.

Section Matcher.

Variable mem : list byte.

Lemma cstring_at_strlen (a : Z) (anc : cstring) :
  cstring_at mem a = Some anc -> strlen mem a = Ret (Z.of_nat (length anc)).
Proof.
  unfold cstring_at, strlen. destruct (a <? 0); [discriminate|].
  apply cstring_from_strlen.
Qed.

Lemma cstring_at_cons (a : Z) (y : byte) (anc : cstring) :
  cstring_at mem a = Some (y :: anc) ->
  load8 mem a = Ret y /\ y <> NUL /\ cstring_at mem (a + 1) = Some anc.
Proof.
  unfold cstring_at. destruct (Z.ltb_spec a 0) as [|Ha]; [discriminate|].
  intros Hc. apply cstring_from_cons in Hc as (l' & Hd & Hy & Hl').
  destruct (Z.ltb_spec (a + 1) 0); [lia|].
  assert (mem !! Z.to_nat a = Some y) as Hlk.
  { rewrite <- (Nat.add_0_r (Z.to_nat a)), <- lookup_drop, Hd.
    reflexivity. }
  split; [apply load8_Ret; auto|]. split; [assumption|].
  replace (Z.to_nat (a + 1)) with (Z.to_nat a + 1)%nat by lia.
  rewrite <- drop_drop, Hd. simpl. rewrite drop_0. assumption.
Qed.

(** [strncmp] of [seg], held by the host string at index [i], against
    the name [anc] in the buffer, over the length of [seg]. *)
Lemma strncmp_segment (seg : list byte) (s : cstring) (i a : Z)
    (anc : cstring) :
  holds s i seg ->
  cstring_at mem a = Some anc ->
  (length seg <= length anc)%nat ->
  exists c, strncmp mem s i a (length seg) = Ret c /\
            (c = 0 <-> take (length seg) anc = seg).
Proof.
  revert i a anc. induction seg as [|x seg IH]; intros i a anc Hs Ha Hl.
  - exists 0. simpl. split; [reflexivity|]. rewrite take_0. tauto.
  - destruct anc as [|y anc]; [simpl in Hl; lia|].
    apply cstring_at_cons in Ha as (Hload & Hy & Ha').
    simpl. rewrite Hload. simpl.
    assert (char_at s i = x) as ->.
    { rewrite <- (Hs 0%nat x eq_refl). f_equal. lia. }
    destruct (Byte.eqb x y) eqn:E.
    + apply byte_eqb_true in E. subst y.
      apply byte_eqb_false in Hy. rewrite Hy.
      destruct (IH (i + 1) (a + 1) anc) as (c & Hc & Hiff);
        [ | assumption | simpl in Hl; lia |].
      { intros k z Hk. rewrite <- (Hs (S k) z Hk). f_equal. lia. }
      exists c. split; [assumption|]. rewrite Hiff.
      split; [intros ->; reflexivity | intros [= H]; assumption].
    + apply byte_eqb_false in E. eexists. split; [reflexivity|].
      split.
      * intros H. exfalso. apply E. apply byte_val_inj. lia.
      * intros [= H _]. congruence.
Qed.

Lemma prefix_take (seg anc : cstring) :
  seg `prefix_of` anc <-> take (length seg) anc = seg.
Proof.
  split.
  - intros [k ->]. apply take_app_length.
  - intros H. exists (drop (length seg) anc).
    rewrite <- H at 1. symmetry. apply take_drop.
Qed.

Section Loop.

Variables (ctx : fdt_ctx) (tpath : cstring) (tp tplen : Z).

(** The iterations inside a segment do nothing. *)
Lemma check_search_loop_skip (k m : nat) (i dn d : Z) :
  (forall j, i <= j < i + Z.of_nat k ->
             Byte.eqb (char_at tpath (tp + j)) SLASH = false /\ j <> tplen) ->
  check_search_loop mem (k + S m) ctx tpath tp tplen i dn d
  = check_search_loop mem (S m) ctx tpath tp tplen (i + Z.of_nat k) dn d.
Proof.
  revert i. induction k as [|k IH]; intros i Hns.
  - change (0 + S m)%nat with (S m).
    replace (i + Z.of_nat 0) with i by lia. reflexivity.
  - change (S k + S m)%nat with (S (k + S m)).
    rewrite check_search_loop_S.
    destruct (Hns i ltac:(lia)) as [-> Hne].
    destruct (Z.eqb_spec i tplen); [contradiction|]. simpl orb. cbv iota.
    rewrite IH; [f_equal; lia|].
    intros j Hj. apply Hns. lia.
Qed.

(** The iteration at the end of segment [s]: the comparison with the
    name in slot [d] of the ancestor stack either fails, and the matcher
    returns a code other than 0, or succeeds, and the loop goes on with
    the next segment. *)
Lemma check_search_loop_compare (m : nat) (i dn d : Z) (s : list byte)
    (a : Z) (anc : list byte) :
  Byte.eqb (char_at tpath (tp + i)) SLASH = true \/ i = tplen ->
  s <> [] -> holds tpath dn s -> tp + i - dn = Z.of_nat (length s) ->
  0 <= d -> path ctx !! Z.to_nat d = Some (Some a) ->
  cstring_at mem a = Some anc ->
  (seg_match s anc /\
   check_search_loop mem (S m) ctx tpath tp tplen i dn d
   = check_search_loop mem m ctx tpath tp tplen (i + 1) (tp + i + 1) (d + 1))
  \/
  (~ seg_match s anc /\
   exists r, r <> 0 /\
     check_search_loop mem (S m) ctx tpath tp tplen i dn d = Ret r).
Proof.
  intros Hend Hne Hs Hlen Hd Hslot Hanc.
  rewrite check_search_loop_S.
  assert (Byte.eqb (char_at tpath (tp + i)) SLASH || (i =? tplen) = true)
    as ->.
  { destruct Hend as [-> | ->]; [reflexivity|].
    rewrite Z.eqb_refl. apply orb_true_r. }
  cbv zeta. rewrite Hlen.
  destruct (Z.eqb_spec (Z.of_nat (length s)) 0) as [H0|_].
  { destruct s; [contradiction | simpl in H0; lia]. }
  assert (path_at ctx d = Ret a) as Hpa.
  { unfold path_at. destruct (Z.ltb_spec d 0); [lia|].
    rewrite Hslot. reflexivity. }
  rewrite Hpa. cbn [bind].
  rewrite (cstring_at_strlen _ _ Hanc). cbn [bind].
  destruct (proj2 (last_is_Some s) Hne) as [x Hx].
  pose proof Hx as Hx'. apply last_Some in Hx' as [s0 ->].
  rewrite length_app in *. simpl length in *.
  apply holds_app in Hs as [Hs0 Hsx].
  assert (char_at tpath (dn + Z.of_nat (length s0 + 1) - 1) = x) as ->.
  { rewrite <- (Hsx 0%nat x eq_refl). f_equal. lia. }
  unfold seg_match. rewrite Hx, removelast_last.
  destruct (Byte.eqb x STAR) eqn:Ex.
  - replace (Z.of_nat (length s0 + 1) - 1) with (Z.of_nat (length s0))
      by lia.
    rewrite Nat2Z.id.
    destruct (Z.ltb_spec (Z.of_nat (length anc)) (Z.of_nat (length s0))).
    + right. split.
      * intros Hp. apply prefix_length in Hp. lia.
      * exists (-6). split; [discriminate | reflexivity].
    + destruct (strncmp_segment s0 tpath dn a anc Hs0 Hanc ltac:(lia))
        as (c & Hc & Hiff).
      rewrite Hc. cbn [bind]. rewrite prefix_take, <- Hiff.
      destruct (Z.eqb_spec c 0); simpl.
      * left. split; [assumption | reflexivity].
      * right. split; [assumption|].
        exists (-7). split; [discriminate | reflexivity].
  - destruct (Z.eqb_spec (Z.of_nat (length anc))
                (Z.of_nat (length s0 + 1))) as [Hl|Hl]; simpl.
    + rewrite Nat2Z.id.
      assert (holds tpath dn (s0 ++ [x])) as Hs.
      { intros k z Hk.
        destruct (Nat.lt_ge_cases k (length s0)).
        - apply Hs0. rewrite lookup_app_l in Hk by assumption. assumption.
        - rewrite lookup_app_r in Hk by assumption.
          replace (dn + Z.of_nat k)
            with (dn + Z.of_nat (length s0) + Z.of_nat (k - length s0))
            by lia.
          apply Hsx. assumption. }
      destruct (strncmp_segment (s0 ++ [x]) tpath dn a anc Hs Hanc)
        as (c & Hc & Hiff); [rewrite length_app; simpl; lia|].
      rewrite length_app in Hc, Hiff. simpl length in Hc, Hiff.
      rewrite Hc. cbn [bind].
      rewrite take_ge in Hiff by lia.
      destruct (Z.eqb_spec c 0); simpl.
      * left. split; [symmetry; apply Hiff; assumption | reflexivity].
      * right. split; [intros <-; tauto|].
        exists (-3). split; [discriminate | reflexivity].
    + right. split.
      * intros <-. rewrite length_app in Hl. simpl in Hl. lia.
      * exists (-2). split; [discriminate | reflexivity].
Qed.

(** The loop from the start of the segments [segs], which the path holds
    at index [tp + i] and which end at [tplen], against the names from
    slot [d] on: the matcher returns 0 exactly when every segment matches
    its name. *)
Lemma check_search_loop_segments (segs : list (list byte))
    (ancs : list (list byte)) (i : Z) (d : nat) :
  segs <> [] -> Forall good_seg segs ->
  holds tpath (tp + i) (join_path segs) ->
  i + Z.of_nat (length (join_path segs)) = tplen ->
  length ancs = length segs -> names_at mem ctx d ancs ->
  exists r,
    check_search_loop mem (S (length (join_path segs))) ctx tpath tp tplen
      i (tp + i) (Z.of_nat d) = Ret r /\
    (r = 0 <-> Forall2 seg_match segs ancs).
Proof.
  revert ancs i d. induction segs as [|s rest IH];
    intros ancs i d Hne Hgood Hh Hend Hlen Hnames; [contradiction|].
  destruct ancs as [|anc ancs]; [discriminate|].
  apply Forall_cons in Hgood as [(Hs_ne & Hs_slash & _) Hgood].
  destruct (Hnames 0%nat anc eq_refl) as (a & Hslot & Hanc).
  rewrite Nat.add_0_r in Hslot.
  assert (forall j, i <= j < i + Z.of_nat (length s) ->
            Byte.eqb (char_at tpath (tp + j)) SLASH = false) as Hin.
  { intros j Hj. apply byte_eqb_false.
    destruct (lookup_lt_is_Some_2 s (Z.to_nat (j - i))) as [x Hx]; [lia|].
    assert (holds tpath (tp + i) s) as Hs.
    { destruct rest; [exact Hh|].
      rewrite join_path_cons in Hh. apply holds_app in Hh. tauto. }
    replace (tp + j) with (tp + i + Z.of_nat (Z.to_nat (j - i))) by lia.
    rewrite (Hs _ _ Hx). intros ->. apply Hs_slash.
    eapply list_elem_of_lookup_2. eassumption. }
  assert (path ctx !! Z.to_nat (Z.of_nat d) = Some (Some a)) as Hslot'
    by (rewrite Nat2Z.id; assumption).
  assert (tp + (i + Z.of_nat (length s)) - (tp + i) = Z.of_nat (length s))
    as Hdn by lia.
  destruct rest as [|s' rest].
  - (* the last segment *)
    simpl join_path in *.
    replace (S (length s)) with (length s + 1)%nat by lia.
    rewrite check_search_loop_skip.
    2:{ intros j Hj. split; [apply Hin; assumption | lia]. }
    destruct (check_search_loop_compare 0 (i + Z.of_nat (length s)) (tp + i)
                (Z.of_nat d) s a anc (or_intror Hend) Hs_ne Hh Hdn
                (Nat2Z.is_nonneg d) Hslot' Hanc)
      as [(Hm & ->) | (Hm & r & Hr & ->)].
    + exists 0. split; [reflexivity|]. split; [|reflexivity].
      intros _. destruct ancs; [|discriminate].
      constructor; [assumption | constructor].
    + exists r. split; [reflexivity|]. split; [contradiction|].
      intros HF. apply Forall2_cons in HF as [HF _]. contradiction.
  - (* a segment followed by a slash *)
    rewrite join_path_cons in *.
    set (J := join_path (s' :: rest)) in *.
    apply holds_app in Hh as [Hs Hrest].
    rewrite length_app in *. simpl length in *.
    replace (S (length s + S (length J)))
      with (length s + S (S (length J)))%nat by lia.
    rewrite check_search_loop_skip.
    2:{ intros j Hj. split; [apply Hin; assumption | lia]. }
    assert (Byte.eqb (char_at tpath (tp + (i + Z.of_nat (length s)))) SLASH
            = true) as Hsl.
    { apply byte_eqb_true.
      replace (tp + (i + Z.of_nat (length s)))
        with (tp + i + Z.of_nat (length s) + Z.of_nat 0) by lia.
      apply Hrest. reflexivity. }
    destruct (check_search_loop_compare (S (length J))
                (i + Z.of_nat (length s)) (tp + i) (Z.of_nat d) s a anc
                (or_introl Hsl) Hs_ne Hs Hdn (Nat2Z.is_nonneg d) Hslot' Hanc)
      as [(Hm & ->) | (Hm & r & Hr & ->)].
    + destruct (IH ancs (i + Z.of_nat (length s) + 1) (S d))
        as (r & Hr & Hiff); try assumption; try discriminate.
      * intros k x Hk.
        replace (tp + (i + Z.of_nat (length s) + 1) + Z.of_nat k)
          with (tp + i + Z.of_nat (length s) + Z.of_nat (S k)) by lia.
        apply Hrest. exact Hk.
      * lia.
      * simpl in Hlen. lia.
      * intros k x Hk. destruct (Hnames (S k) x Hk) as (a' & Ha' & Hc').
        exists a'. split; [|assumption].
        rewrite <- Ha'. f_equal. lia.
      * exists r. split.
        -- rewrite <- Hr. f_equal; lia.
        -- rewrite Hiff. split.
           ++ intros HF. constructor; assumption.
           ++ intros HF. apply Forall2_cons in HF. tauto.
    + exists r. split; [reflexivity|]. split; [contradiction|].
      intros HF. apply Forall2_cons in HF as [HF _]. contradiction.
Qed.

End Loop.

Lemma join_path_facts (segs : list (list byte)) :
  segs <> [] -> Forall good_seg segs ->
  (NUL ∉ join_path segs) /\
  (exists x l, join_path segs = x :: l /\ x <> SLASH) /\
  (exists l y, join_path segs = l ++ [y] /\ y <> SLASH).
Proof.
  induction segs as [|s rest IH]; intros Hne Hgood; [contradiction|].
  apply Forall_cons in Hgood as [(Hs_ne & Hs_slash & Hs_nul) Hgood].
  assert (exists x l, s = x :: l /\ x <> SLASH) as (x & l & -> & Hx).
  { destruct s as [|x l]; [contradiction|]. exists x, l.
    split; [reflexivity|]. intros ->. apply Hs_slash. left. }
  destruct rest as [|s' rest].
  - simpl. split; [assumption|]. split; [eauto|].
    destruct (proj2 (last_is_Some (x :: l)) Hs_ne) as [y Hy].
    pose proof Hy as Hy'. apply last_Some in Hy' as [l' Hl'].
    exists l', y. split; [assumption|]. intros ->. apply Hs_slash.
    rewrite Hl'. apply elem_of_app. right. left.
  - destruct (IH ltac:(discriminate) Hgood)
      as (Hnul & _ & (l' & y & Hl' & Hy)).
    rewrite join_path_cons. split; [|split].
    + intros Hin. apply elem_of_app in Hin as [Hin|Hin]; [contradiction|].
      apply elem_of_cons in Hin as [Hin|Hin]; [discriminate|contradiction].
    + exists x, (l ++ SLASH :: join_path (s' :: rest)).
      split; [reflexivity | assumption].
    + exists ((x :: l) ++ SLASH :: l'), y. rewrite Hl'.
      split; [|assumption]. rewrite <- !app_assoc. reflexivity.
Qed.

(** The matcher on a path of good segments, with or without a leading
    and a trailing slash, at a property of the target name found at the
    depth of the path: it returns 0 exactly when every segment matches
    the name in its slot of the ancestor stack. *)
Lemma check_search_target_segments (ctx : fdt_ctx) (prop : Z)
    (lead trail : bool) (segs : list (list byte)) (nm : cstring)
    (ancs : list (list byte)) (nameoff : Z) :
  target_path ctx
    = Some ((if lead then [SLASH] else []) ++ join_path segs
            ++ (if trail then [SLASH] else [])) ->
  segs <> [] -> Forall good_seg segs ->
  target_name ctx = Some nm ->
  depth ctx = target_depth ctx ->
  target_depth ctx = Z.of_nat (length segs) ->
  load32be mem (prop + o_prop_nameoff) = Ret nameoff ->
  strcmp mem (strings ctx + nameoff) nm = Ret 0 ->
  length ancs = length segs -> names_at mem ctx 0 ancs ->
  exists r,
    check_search_target mem ctx prop = Ret r /\
    (r = 0 <-> Forall2 seg_match segs ancs).
Proof.
  intros Htp Hne Hgood Hname Hd Htd Hoff Hcmp Hlen Hnames.
  set (pre := if lead then [SLASH] else []) in *.
  set (post := if trail then [SLASH] else []) in *.
  set (J := join_path segs) in *.
  set (tpath := pre ++ J ++ post) in *.
  destruct (join_path_facts segs Hne Hgood)
    as (Hnul & (x & l & HJx & Hx) & (l' & y & HJy & Hy)).
  fold J in Hnul, HJx, HJy.
  assert (0 < length J)%nat as HJpos by (rewrite HJx; simpl; lia).
  assert (cstrlen tpath
          = Z.of_nat (length pre) + Z.of_nat (length J)
            + Z.of_nat (length post)) as Hcl.
  { rewrite cstrlen_no_nul.
    - unfold tpath. rewrite !length_app. lia.
    - unfold tpath, pre, post. intros Hin.
      apply elem_of_app in Hin as [Hin|Hin].
      + destruct lead; [|inversion Hin].
        apply list_elem_of_singleton in Hin. discriminate.
      + apply elem_of_app in Hin as [Hin|Hin]; [contradiction|].
        destruct trail; [|inversion Hin].
        apply list_elem_of_singleton in Hin. discriminate. }
  assert (Byte.eqb (char_at tpath 0) SLASH = lead) as Hfirst.
  { unfold tpath, pre. destruct lead; [reflexivity|].
    rewrite HJx. simpl. apply byte_eqb_false. exact Hx. }
  assert (Byte.eqb
            (char_at tpath
               (Z.of_nat (length pre)
                + (Z.of_nat (length J) + Z.of_nat (length post)) - 1))
            SLASH = trail) as Hlast.
  { unfold post. destruct trail.
    - unfold tpath, post. replace (Z.of_nat (length pre)
               + (Z.of_nat (length J) + Z.of_nat (length [SLASH])) - 1)
        with (Z.of_nat (length pre) + (Z.of_nat (length J) + 0))
        by (simpl; lia).
      rewrite !char_at_app_r by lia. reflexivity.
    - apply byte_eqb_false.
      replace (Z.of_nat (length pre)
               + (Z.of_nat (length J) + Z.of_nat (length (@nil byte))) - 1)
        with (Z.of_nat (length pre) + Z.of_nat (length l'))
        by (rewrite HJy, length_app; simpl; lia).
      unfold tpath, post.
      rewrite (holds_middle pre J [] (length l') y); [assumption|].
      rewrite HJy. rewrite lookup_app_r by lia.
      rewrite Nat.sub_diag. reflexivity. }
  unfold check_search_target.
  rewrite Htp, Hname, Hd, Z.eqb_refl, Hoff. cbn [negb bind].
  rewrite Hcmp. cbn [bind]. change (negb (0 =? 0)) with false. cbv iota.
  destruct (Z.leb_spec (target_depth ctx) 0) as [Hle|_].
  { destruct segs; [contradiction | simpl in Htd; lia]. }
  fold pre post J tpath. rewrite Hfirst, Hcl.
  assert ((if lead
           then (0 + 1,
                 Z.of_nat (length pre) + Z.of_nat (length J)
                 + Z.of_nat (length post) - 1)
           else (0, Z.of_nat (length pre) + Z.of_nat (length J)
                    + Z.of_nat (length post)))
          = (Z.of_nat (length pre),
             Z.of_nat (length J) + Z.of_nat (length post))) as ->.
  { unfold pre. destruct lead; simpl length; f_equal; lia. }
  destruct (Z.eqb_spec (Z.of_nat (length J) + Z.of_nat (length post)) 0);
    [lia|].
  rewrite Hlast.
  assert ((if trail
           then Z.of_nat (length J) + Z.of_nat (length post) - 1
           else Z.of_nat (length J) + Z.of_nat (length post))
          = Z.of_nat (length J)) as ->.
  { unfold post. destruct trail; simpl length; lia. }
  destruct (Z.eqb_spec (Z.of_nat (length J)) 0); [lia|].
  replace (Z.to_nat (Z.of_nat (length J) + 1)) with (S (length J)) by lia.
  pose proof (check_search_loop_segments ctx tpath (Z.of_nat (length pre))
                (Z.of_nat (length J)) segs ancs 0 0%nat Hne Hgood) as Hloop.
  replace (Z.of_nat (length pre) + 0) with (Z.of_nat (length pre)) in Hloop
    by lia.
  fold J in Hloop. apply Hloop; try assumption.
  - apply holds_middle.
  - lia.
Qed.

(** C9: in a path of good segments one of which is [seg] followed by a
    star, with every other segment matching the name in its slot of the
    ancestor stack, the matcher accepts (returns 0) exactly when [seg] is
    a prefix of the name [anc] in the slot of the wildcard segment. *)
Theorem wildcard_segment_matches_prefix (ctx : fdt_ctx) (prop : Z)
    (lead trail : bool) (before after : list (list byte))
    (seg nm : cstring) (abefore aafter : list (list byte))
    (anc : list byte) (nameoff : Z) :
  target_path ctx
    = Some ((if lead then [SLASH] else [])
            ++ join_path (before ++ (seg ++ [STAR]) :: after)
            ++ (if trail then [SLASH] else [])) ->
  Forall good_seg (before ++ (seg ++ [STAR]) :: after) ->
  target_name ctx = Some nm ->
  depth ctx = target_depth ctx ->
  target_depth ctx
    = Z.of_nat (length (before ++ (seg ++ [STAR]) :: after)) ->
  load32be mem (prop + o_prop_nameoff) = Ret nameoff ->
  strcmp mem (strings ctx + nameoff) nm = Ret 0 ->
  names_at mem ctx 0 (abefore ++ anc :: aafter) ->
  Forall2 seg_match before abefore ->
  Forall2 seg_match after aafter ->
  exists r,
    check_search_target mem ctx prop = Ret r /\
    (r = 0 <-> seg `prefix_of` anc).
Proof.
  intros Htp Hgood Hname Hd Htd Hoff Hcmp Hnames Hb Ha.
  destruct (check_search_target_segments ctx prop lead trail
              (before ++ (seg ++ [STAR]) :: after) nm
              (abefore ++ anc :: aafter) nameoff)
    as (r & Hr & Hiff); try assumption.
  - destruct before; discriminate.
  - rewrite !length_app. simpl.
    rewrite (Forall2_length _ _ _ Hb), (Forall2_length _ _ _ Ha).
    reflexivity.
  - exists r. split; [assumption|]. rewrite Hiff, <- seg_match_star.
    split.
    + intros HF. apply Forall2_app_inv in HF as [_ HF].
      * apply Forall2_cons in HF. tauto.
      * eapply Forall2_length. eassumption.
    + intros Hm. apply Forall2_app; [assumption|].
      constructor; assumption.
Qed.

End Matcher.

(** The pattern "/eth*" against the node names of the specification:
    [model] is found under "eth0", "eth" and "ethernet", not under "et";
    without the star "/eth" does not find it under "eth0". *)
Example eth_wildcard_lookups :
  get_fdt_prop (one_node_blob "eth0") 0 (Some (cstr "/eth*"))
    (Some (cstr "model")) = Ret (Some 76) /\
  get_fdt_prop (one_node_blob "eth") 0 (Some (cstr "/eth*"))
    (Some (cstr "model")) = Ret (Some 72) /\
  get_fdt_prop (one_node_blob "ethernet") 0 (Some (cstr "/eth*"))
    (Some (cstr "model")) = Ret (Some 80) /\
  get_fdt_prop (one_node_blob "et") 0 (Some (cstr "/eth*"))
    (Some (cstr "model")) = Ret None /\
  get_fdt_prop (one_node_blob "eth0") 0 (Some (cstr "/eth"))
    (Some (cstr "model")) = Ret None.
Proof. repeat split; vm_compute; reflexivity. Qed.

Lemma wildcard_segment_matches_prefix_witness :
  exists r,
    check_search_target soc_blob soc_ctx 84 = Ret r /\
    (r = 0 <-> cstr "eth" `prefix_of` cstr "eth0").
Proof.
  apply (wildcard_segment_matches_prefix soc_blob soc_ctx 84 true false
           [cstr "soc"] [] (cstr "eth") (cstr "model") [cstr "soc"] []
           (cstr "eth0") 0).
  - reflexivity.
  - repeat constructor; try discriminate;
      vm_compute; intros H;
      repeat (apply elem_of_cons in H as [H|H]; [discriminate|]);
      inversion H.
  - reflexivity.
  - reflexivity.
  - reflexivity.
  - reflexivity.
  - reflexivity.
  - intros k anc Hk. destruct k as [|[|k]]; simpl in Hk.
    + injection Hk as <-. exists 68. split; reflexivity.
    + injection Hk as <-. exists 76. split; reflexivity.
    + discriminate.
  - constructor; [reflexivity | constructor].
  - constructor.
Defined.

(** Patterns of two segments against [/soc/eth0]. *)
Example soc_wildcard_lookups :
  get_fdt_prop soc_blob 0 (Some (cstr "/soc/eth*")) (Some (cstr "model"))
    = Ret (Some 84) /\
  get_fdt_prop soc_blob 0 (Some (cstr "soc/eth*/")) (Some (cstr "model"))
    = Ret (Some 84) /\
  get_fdt_prop soc_blob 0 (Some (cstr "/s*/eth0")) (Some (cstr "model"))
    = Ret (Some 84) /\
  get_fdt_prop soc_blob 0 (Some (cstr "/soc/ethx*")) (Some (cstr "model"))
    = Ret None /\
  get_fdt_prop soc_blob 0 (Some (cstr "/soc/et")) (Some (cstr "model"))
    = Ret None /\
  get_fdt_prop soc_blob 0 (Some (cstr "/eth*")) (Some (cstr "model"))
    = Ret None.
Proof. repeat split; vm_compute; reflexivity. Qed.

(** * Further properties of the code *)

(** ** The validator *)

Lemma get_fdt_totalsize_cases (mem : list byte) (image offset : Z)
    (check : bool) (r : Z) :
  get_fdt_totalsize mem image offset check = Ret r ->
  r = -1 \/
  (sizeof_fdt_header + 128 <= r < INT_MAX /\
   load32be mem (image + offset + o_magic) = Ret FDT_MAGIC /\
   load32be mem (image + offset + o_totalsize) = Ret r).
Proof.
  unfold get_fdt_totalsize, sizeof_fdt_header, INT_MAX. intros H.
  apply bind_Ret in H as (magic & Hmagic & H).
  destruct (Z.eqb_spec magic FDT_MAGIC) as [->|]; simpl in H;
    [|injection H as <-; left; reflexivity].
  apply bind_Ret in H as (ts & Hts & H).
  change (u32 (40 + 128)) with 168 in H. rewrite Z.geb_leb in H.
  destruct (Z.leb_spec 2147483647 ts); simpl in H;
    [injection H as <-; left; reflexivity|].
  destruct (Z.ltb_spec ts 168); simpl in H;
    [injection H as <-; left; reflexivity|].
  assert (to_int ts = ts) as Hto by (apply to_int_small; lia).
  rewrite Hto in H.
  assert (r = -1 \/ r = ts) as [->| ->]; [|left; reflexivity|right; auto].
  destruct check; simpl in H; [|injection H as <-; auto].
  inv_all; subst; auto.
Qed.

(** What a header that strict validation accepts holds in the fields the
    validator reads. *)
Lemma get_fdt_totalsize_strict_inv (mem : list byte) (image offset : Z)
    (r : Z) :
  get_fdt_totalsize mem image offset true = Ret r -> r <> -1 ->
  exists os ss ot st,
    load32be mem (image + offset + o_off_dt_struct) = Ret os /\
    load32be mem (image + offset + o_size_dt_struct) = Ret ss /\
    load32be mem (image + offset + o_off_dt_strings) = Ret ot /\
    load32be mem (image + offset + o_size_dt_strings) = Ret st /\
    load32be mem (image + offset + o_version) = Ret 17 /\
    load32be mem (image + offset + o_last_comp_version) = Ret 16 /\
    load32be mem (image + offset + o_boot_cpuid_phys) = Ret 0 /\
    sizeof_fdt_header < os < r /\ u32 (os + ss) <= r /\
    sizeof_fdt_header < ot < r /\ u32 (ot + st) <= r.
Proof.
  intros H Hr.
  pose proof (get_fdt_totalsize_cases _ _ _ _ _ H)
    as [->|(Hrange & Hmagic & Hts)]; [contradiction|].
  unfold get_fdt_totalsize in H. inv_all; try (subst r; contradiction).
  { match goal with Hb : negb true = true |- _ => discriminate Hb end. }
  repeat match goal with
  | Hb : (_ || _) = false |- _ => apply orb_false_iff in Hb as [? ?]
  | Hb : negb _ = false |- _ => apply negb_false_iff in Hb
  | Hb : (_ =? _) = true |- _ => apply Z.eqb_eq in Hb
  | Hb : (_ >? _) = false |- _ => rewrite Z.gtb_ltb in Hb
  | Hb : (_ >=? _) = false |- _ => rewrite Z.geb_leb in Hb
  | Hb : (_ <=? _) = false |- _ => apply Z.leb_gt in Hb
  | Hb : (_ <? _) = false |- _ => apply Z.ltb_ge in Hb
  end.
  subst.
  repeat match goal with
  | H1 : load32be mem ?p = Ret ?x, H2 : load32be mem ?p = Ret ?y |- _ =>
      assert (x = y) by congruence; subst; clear H2
  end.
  unfold sizeof_fdt_header in *.
  eexists _, _, _, _.
  repeat match goal with |- _ /\ _ => split end;
    try eassumption; try lia.
Qed.

(** X1: whatever the mode, the validator returns -1 or the [totalsize]
    field of a header that starts with the magic word, and that value
    lies between 168 and [INT_MAX - 1]: it is never 0, never another
    negative number. *)
Theorem get_fdt_totalsize_result (mem : list byte) (image offset : Z)
    (check : bool) (r : Z) :
  get_fdt_totalsize mem image offset check = Ret r ->
  r = -1 \/
  (sizeof_fdt_header + 128 <= r < INT_MAX /\
   load32be mem (image + offset + o_magic) = Ret FDT_MAGIC /\
   load32be mem (image + offset + o_totalsize) = Ret r).
Proof. apply get_fdt_totalsize_cases. Qed.

Lemma get_fdt_totalsize_result_witness :
  168 = -1 \/
  (sizeof_fdt_header + 128 <= 168 < INT_MAX /\
   load32be good_header (0 + 0 + o_magic) = Ret FDT_MAGIC /\
   load32be good_header (0 + 0 + o_totalsize) = Ret 168).
Proof.
  apply (get_fdt_totalsize_result good_header 0 0 true 168).
  reflexivity.
Defined.

(** X2: a header that strict validation accepts is accepted with the same
    size by the size-only mode; the strict mode only adds reasons to
    refuse. *)
Theorem strict_accept_implies_lax_accept (mem : list byte)
    (image offset : Z) (r : Z) :
  get_fdt_totalsize mem image offset true = Ret r -> r <> -1 ->
  get_fdt_totalsize mem image offset false = Ret r.
Proof.
  intros H Hr.
  apply get_fdt_totalsize_cases in H as [->|(Hrange & Hmagic & Hts)];
    [contradiction|].
  unfold get_fdt_totalsize. rewrite Hmagic, Hts. cbn [bind].
  change (u32 (sizeof_fdt_header + 128)) with 168.
  unfold sizeof_fdt_header, INT_MAX in *.
  rewrite Z.geb_leb.
  destruct (Z.eqb_spec FDT_MAGIC FDT_MAGIC); [|contradiction].
  destruct (Z.leb_spec 2147483647 r); [lia|].
  destruct (Z.ltb_spec r 168); [lia|].
  simpl. f_equal. apply to_int_small. lia.
Qed.

Lemma strict_accept_implies_lax_accept_witness :
  get_fdt_totalsize good_header 0 0 false = Ret 168.
Proof.
  apply (strict_accept_implies_lax_accept good_header 0 0 168).
  - reflexivity.
  - discriminate.
Defined.

(** X3: on a header whose two [offset + size] sums stay below 2^32,
    strict validation decides the header invariants exactly: it returns
    [totalsize] when they all hold and -1 when one of them fails. *)
Theorem strict_validation_decides_invariants (mem : list byte)
    (image offset : Z) (h : fdt_header) :
  header_at mem (image + offset) h ->
  off_dt_struct h + size_dt_struct h < 2 ^ 32 ->
  off_dt_strings h + size_dt_strings h < 2 ^ 32 ->
  (header_ok h /\
   get_fdt_totalsize mem image offset true = Ret (totalsize h)) \/
  (~ header_ok h /\ get_fdt_totalsize mem image offset true = Ret (-1)).
Proof.
  intros Hat W1 W2.
  assert (header_ok h \/ ~ header_ok h) as [Hok|Hok].
  { unfold header_ok, magic_ok, totalsize_ok, version_ok, struct_ok,
      strings_ok, cpuid_ok. lia. }
  - left. split; [assumption|]. apply get_fdt_totalsize_valid; assumption.
  - right. split; [assumption|].
    apply (get_fdt_totalsize_invalid_nowrap _ _ _ h); assumption.
Qed.

Lemma strict_validation_decides_invariants_witness :
  (header_ok good_fields /\
   get_fdt_totalsize good_header 0 0 true = Ret (totalsize good_fields)) \/
  (~ header_ok good_fields /\
   get_fdt_totalsize good_header 0 0 true = Ret (-1)).
Proof.
  apply (strict_validation_decides_invariants good_header 0 0 good_fields).
  - repeat split; reflexivity.
  - reflexivity.
  - reflexivity.
Defined.

(** ** The locator *)

Lemma load8_in (mem : list byte) (p : Z) :
  0 <= p < Z.of_nat (length mem) -> exists b, load8 mem p = Ret b.
Proof.
  intros H. destruct (lookup_lt_is_Some_2 mem (Z.to_nat p)) as [b Hb]; [lia|].
  exists b. apply load8_Ret. split; [lia | assumption].
Qed.

Lemma load32be_in (mem : list byte) (p : Z) :
  0 <= p -> p + 4 <= Z.of_nat (length mem) ->
  exists v, load32be mem p = Ret v.
Proof.
  intros H0 H4. unfold load32be.
  destruct (load8_in mem p) as [b0 ->]; [lia|].
  destruct (load8_in mem (p + 1)) as [b1 ->]; [lia|].
  destruct (load8_in mem (p + 2)) as [b2 ->]; [lia|].
  destruct (load8_in mem (p + 3)) as [b3 ->]; [lia|].
  eexists. reflexivity.
Qed.

(** The validator reads inside the 40 bytes of the header only. *)
Lemma get_fdt_totalsize_in (mem : list byte) (image offset : Z)
    (check : bool) :
  0 <= image + offset ->
  image + offset + sizeof_fdt_header <= Z.of_nat (length mem) ->
  exists r, get_fdt_totalsize mem image offset check = Ret r.
Proof.
  unfold sizeof_fdt_header. intros H0 H40. unfold get_fdt_totalsize.
  unfold o_magic, o_totalsize, o_version, o_last_comp_version,
    o_off_dt_struct, o_size_dt_struct, o_off_dt_strings, o_size_dt_strings,
    o_boot_cpuid_phys.
  repeat first
    [ match goal with
      | |- exists r, bind (load32be mem ?p) _ = Ret r =>
          let v := fresh "v" in
          destruct (load32be_in mem p) as [v ->]; [lia | lia |];
          cbn [bind]
      | |- exists r, (if ?b then _ else _) = Ret r => destruct b
      end
    | (eexists; reflexivity) ].
Qed.

Lemma find_fdt_bound_long (size : Z) :
  sizeof_fdt_header + 8 <= size < 2 ^ 64 ->
  size_t (size_t (size - sizeof_fdt_header) - 8) = size - 48.
Proof.
  unfold sizeof_fdt_header, size_t. intros H.
  rewrite (Z.mod_small (size - 40)) by lia.
  rewrite Z.mod_small by lia. lia.
Qed.

Lemma candidate_magic (mem : list byte) (image max_fdt_size p m : Z) :
  candidate_ok mem image max_fdt_size p ->
  load32be mem (image + p) = Ret m -> m = FDT_MAGIC.
Proof.
  intros (ts & Hts & Hpos & _) Hm.
  apply get_fdt_totalsize_cases in Hts as [->|(_ & Hmagic & _)]; [lia|].
  replace (image + p + 0 + o_magic) with (image + p) in Hmagic
    by (unfold o_magic; lia).
  congruence.
Qed.

(** The scan from [pos] on: -1 when no candidate from there to the end of
    the range passes, else the first candidate that passes. *)
Lemma find_fdt_loop_first (mem : list byte) (image size max_fdt_size : Z)
    (fuel : nat) (pos r : Z) :
  sizeof_fdt_header + 8 <= size <= INT_MAX -> 0 <= pos ->
  find_fdt_loop mem fuel image size max_fdt_size pos = Ret r ->
  (r = -1 /\
   forall p, pos <= p < size - 48 ->
             ~ candidate_ok mem image max_fdt_size p) \/
  (pos <= r < size - 48 /\ candidate_ok mem image max_fdt_size r /\
   forall p, pos <= p < r -> ~ candidate_ok mem image max_fdt_size p).
Proof.
  unfold INT_MAX, sizeof_fdt_header. intros Hsize. revert pos r.
  induction fuel as [|fuel IH]; intros pos r Hpos H; [discriminate|].
  simpl in H.
  rewrite find_fdt_bound_long in H by (unfold sizeof_fdt_header; lia).
  destruct (Z.ltb_spec pos (size - 48)) as [Hlt|Hge].
  2:{ injection H as <-. left. split; [reflexivity|]. intros p Hp. lia. }
  rewrite size_t_small in H by lia.
  assert (forall r',
            find_fdt_loop mem fuel image size max_fdt_size (pos + 1) = Ret r' ->
            ~ candidate_ok mem image max_fdt_size pos ->
            (r' = -1 /\
             forall p, pos <= p < size - 48 ->
                       ~ candidate_ok mem image max_fdt_size p) \/
            (pos <= r' < size - 48 /\
             candidate_ok mem image max_fdt_size r' /\
             forall p, pos <= p < r' ->
                       ~ candidate_ok mem image max_fdt_size p)) as Hnext.
  { intros r' Hr' Hnot.
    destruct (IH (pos + 1) r' ltac:(lia) Hr')
      as [(-> & Hall) | (Hrange & Hok & Hall)].
    - left. split; [reflexivity|]. intros p Hp.
      destruct (Z.eq_dec p pos) as [->|]; [assumption | apply Hall; lia].
    - right. split; [lia|]. split; [assumption|]. intros p Hp.
      destruct (Z.eq_dec p pos) as [->|]; [assumption | apply Hall; lia]. }
  apply bind_Ret in H as (m & Hm & H).
  destruct (Z.eqb_spec m FDT_MAGIC) as [->|Hne]; cbn [negb] in H.
  2:{ apply Hnext; [assumption|]. intros Hc.
      apply Hne. eapply candidate_magic; eassumption. }
  apply bind_Ret in H as (ts & Hts & H).
  destruct (Z.leb_spec ts 0) as [Hle|Hgt].
  { apply Hnext; [assumption|]. intros (ts' & Hts' & Hpos' & _).
    rewrite Hts in Hts'. injection Hts' as <-. lia. }
  rewrite !Z.gtb_ltb in H.
  destruct (Z.ltb_spec 0 max_fdt_size) as [Hmax|Hmax];
    destruct (Z.ltb_spec max_fdt_size ts) as [Hbig|Hbig]; cbn [andb] in H.
  - apply Hnext; [assumption|]. intros (ts' & Hts' & _ & Hfit).
    rewrite Hts in Hts'. injection Hts' as <-. lia.
  - injection H as <-. rewrite to_int_small by lia.
    right. split; [lia|]. split; [|intros p Hp; lia].
    exists ts. auto.
  - injection H as <-. rewrite to_int_small by lia.
    right. split; [lia|]. split; [|intros p Hp; lia].
    exists ts. split; [assumption|]. split; [lia | left; lia].
  - injection H as <-. rewrite to_int_small by lia.
    right. split; [lia|]. split; [|intros p Hp; lia].
    exists ts. split; [assumption|]. split; [lia | left; lia].
Qed.

(** X4: for a size between 48 and [INT_MAX], the locator returns the
    first offset below [size - 48] whose candidate passes strict
    validation and the size limit, and -1 when there is none. *)
Theorem find_fdt_offset_first_candidate (mem : list byte)
    (image size max_fdt_size r : Z) :
  sizeof_fdt_header + 8 <= size <= INT_MAX ->
  find_fdt_offset mem image size max_fdt_size = Ret r ->
  (r = -1 /\
   forall p, 0 <= p < size - 48 ->
             ~ candidate_ok mem image max_fdt_size p) \/
  (0 <= r < size - 48 /\ candidate_ok mem image max_fdt_size r /\
   forall p, 0 <= p < r -> ~ candidate_ok mem image max_fdt_size p).
Proof.
  intros Hsize H. unfold find_fdt_offset in H.
  eapply find_fdt_loop_first; [eassumption | lia | eassumption].
Qed.

Lemma find_fdt_offset_first_candidate_witness :
  (5 = -1 /\
   forall p, 0 <= p < 229 - 48 -> ~ candidate_ok shifted_blob 0 0 p) \/
  (0 <= 5 < 229 - 48 /\ candidate_ok shifted_blob 0 0 5 /\
   forall p, 0 <= p < 5 -> ~ candidate_ok shifted_blob 0 0 p).
Proof.
  apply (find_fdt_offset_first_candidate shifted_blob 0 229 0 5).
  - unfold sizeof_fdt_header, INT_MAX. lia.
  - vm_compute. reflexivity.
Defined.

Lemma find_fdt_loop_in_bounds (mem : list byte)
    (image size max_fdt_size : Z) (fuel : nat) (pos : Z) :
  0 <= image -> sizeof_fdt_header + 8 <= size < 2 ^ 64 ->
  image + size <= Z.of_nat (length mem) -> 0 <= pos ->
  find_fdt_loop mem fuel image size max_fdt_size pos <> Fault.
Proof.
  intros Himg Hsize Hlen. revert pos.
  induction fuel as [|fuel IH]; intros pos Hpos; [discriminate|].
  simpl. rewrite find_fdt_bound_long by assumption.
  unfold sizeof_fdt_header in *.
  destruct (Z.ltb_spec pos (size - 48)); [|discriminate].
  rewrite size_t_small by lia.
  destruct (load32be_in mem (image + pos)) as [m ->]; [lia | lia |].
  cbn [bind]. specialize (IH (pos + 1) ltac:(lia)).
  destruct (negb (m =? FDT_MAGIC)); [assumption|].
  destruct (get_fdt_totalsize_in mem (image + pos) 0 true) as [ts ->];
    [lia | unfold sizeof_fdt_header; lia |].
  cbn [bind]. destruct (ts <=? 0); [assumption|].
  destruct ((max_fdt_size >? 0) && (ts >? max_fdt_size));
    [assumption | discriminate].
Qed.

(** X5: when the image and its [size] bytes lie inside the buffer and
    [size] is at least 48, the locator reads nothing outside the buffer
    and returns a result. *)
Theorem find_fdt_offset_in_bounds (mem : list byte)
    (image size max_fdt_size : Z) :
  0 <= image -> sizeof_fdt_header + 8 <= size < 2 ^ 64 ->
  image + size <= Z.of_nat (length mem) ->
  exists r, find_fdt_offset mem image size max_fdt_size = Ret r.
Proof.
  intros Himg Hsize Hlen.
  pose proof (find_fdt_offset_terminates mem image size max_fdt_size) as Ht.
  pose proof (find_fdt_loop_in_bounds mem image size max_fdt_size
                (S (length mem)) 0 Himg Hsize Hlen ltac:(lia)) as Hf.
  unfold find_fdt_offset in *.
  destruct (find_fdt_loop mem (S (length mem)) image size max_fdt_size 0)
    as [r| |]; [eauto | contradiction | contradiction].
Qed.

Lemma find_fdt_offset_in_bounds_witness :
  exists r, find_fdt_offset shifted_blob 0 229 0 = Ret r.
Proof.
  apply (find_fdt_offset_in_bounds shifted_blob 0 229 0).
  - lia.
  - unfold sizeof_fdt_header. lia.
  - vm_compute. discriminate.
Defined.

(** ** The parse context *)

(** What [init_fdt_ctx] returns: -1 and the zeroed context when strict
    validation refuses the header, else 0 and the context filled in from
    the header fields. *)
Lemma init_fdt_ctx_cases (mem : list byte) (img rc : Z) (ctx : fdt_ctx) :
  init_fdt_ctx mem img = Ret (rc, ctx) ->
  (rc = -1 /\ ctx = ctx_zero /\
   get_fdt_totalsize mem img 0 true = Ret (-1)) \/
  (rc = 0 /\
   exists ts os ss ot st,
     get_fdt_totalsize mem img 0 true = Ret ts /\
     sizeof_fdt_header + 128 <= ts < INT_MAX /\
     load32be mem (img + o_off_dt_struct) = Ret os /\
     load32be mem (img + o_size_dt_struct) = Ret ss /\
     load32be mem (img + o_off_dt_strings) = Ret ot /\
     load32be mem (img + o_size_dt_strings) = Ret st /\
     sizeof_fdt_header < os < ts /\ sizeof_fdt_header < ot < ts /\
     ctx = mk_ctx img ts (img + os) ss (img + ot) st 0 (path ctx_zero) 0
             None 0 None None false false).
Proof.
  unfold init_fdt_ctx. intros H.
  apply bind_Ret in H as (ts & Hts & H).
  pose proof (get_fdt_totalsize_cases _ _ _ _ _ Hts) as Hcases.
  destruct (Z.leb_spec ts 0) as [Hle|Hgt].
  - injection H as <- <-. left.
    destruct Hcases as [->|(Hrange & _)];
      [auto | unfold sizeof_fdt_header in Hrange; lia].
  - right.
    destruct Hcases as [->|(Hrange & _)]; [lia|].
    destruct (get_fdt_totalsize_strict_inv _ _ _ _ Hts ltac:(lia))
      as (os & ss & ot & st & Hos & Hss & Hot & Hst & _ & _ & _ & Ros & _
          & Rot & _).
    rewrite Z.add_0_r in Hos, Hss, Hot, Hst.
    rewrite Hos, Hss, Hot, Hst in H. cbn [bind] in H.
    injection H as <- <-. split; [reflexivity|].
    exists ts, os, ss, ot, st.
    rewrite u32_small by (unfold INT_MAX, sizeof_fdt_header in Hrange; lia).
    repeat match goal with |- _ /\ _ => split end;
      try assumption; try lia; reflexivity.
Qed.

(** X6: the context of a header that strict validation accepts: the image
    size is the validated [totalsize], and the struct and strings pointers
    lie after the 40 header bytes and before the end of the blob; the
    walk state is cleared. *)
Theorem init_fdt_ctx_regions (mem : list byte) (img : Z) (ctx : fdt_ctx) :
  init_fdt_ctx mem img = Ret (0, ctx) ->
  image ctx = img /\
  get_fdt_totalsize mem img 0 true = Ret (image_size ctx) /\
  sizeof_fdt_header + 128 <= image_size ctx < INT_MAX /\
  img + sizeof_fdt_header < tree ctx < img + image_size ctx /\
  img + sizeof_fdt_header < strings ctx < img + image_size ctx /\
  res ctx = None /\ target_path ctx = None /\ target_name ctx = None /\
  path ctx = replicate 33 None.
Proof.
  intros H. apply init_fdt_ctx_cases in H as [(H & _) | (_ & H)];
    [discriminate|].
  destruct H as (ts & os & ss & ot & st & Hts & Hrange & _ & _ & _ & _
                 & Ros & Rot & ->).
  simpl. repeat match goal with |- _ /\ _ => split end;
    try assumption; try lia; reflexivity.
Qed.

Lemma init_fdt_ctx_regions_witness :
  image (mk_ctx 0 224 56 148 204 20 0 (path ctx_zero) 0 None 0 None None
           false false) = 0 /\
  get_fdt_totalsize demo_blob 0 0 true = Ret 224 /\
  sizeof_fdt_header + 128 <= 224 < INT_MAX /\
  0 + sizeof_fdt_header < 56 < 0 + 224 /\
  0 + sizeof_fdt_header < 204 < 0 + 224 /\
  (None : option Z) = None /\ (None : option cstring) = None /\
  (None : option cstring) = None /\
  path ctx_zero = replicate 33 None.
Proof.
  apply (init_fdt_ctx_regions demo_blob 0
           (mk_ctx 0 224 56 148 204 20 0 (path ctx_zero) 0 None 0 None None
              false false)).
  vm_compute. reflexivity.
Defined.

Lemma init_fdt_ctx_accepts (mem : list byte) (h ts : Z) :
  get_fdt_totalsize mem h 0 true = Ret ts -> 0 < ts ->
  exists ctx, init_fdt_ctx mem h = Ret (0, ctx).
Proof.
  intros Hts Hpos.
  destruct (get_fdt_totalsize_strict_inv _ _ _ _ Hts ltac:(lia))
    as (os & ss & ot & st & Hos & Hss & Hot & Hst & _).
  rewrite Z.add_0_r in Hos, Hss, Hot, Hst.
  unfold init_fdt_ctx. rewrite Hts. cbn [bind].
  destruct (Z.leb_spec ts 0); [lia|].
  rewrite Hos, Hss, Hot, Hst. cbn [bind]. eexists. reflexivity.
Qed.

(** X7: for a size between 48 and [INT_MAX], a header pointer returned
    by [find_fdt] lies in the scanned part of the image, and the header
    there is one that [init_fdt_ctx] accepts. *)
Theorem find_fdt_result_opens (mem : list byte)
    (image size max_fdt_size h : Z) :
  sizeof_fdt_header + 8 <= size <= INT_MAX ->
  find_fdt mem image size max_fdt_size = Ret (Some h) ->
  image <= h < image + size - 48 /\
  exists ctx, init_fdt_ctx mem h = Ret (0, ctx).
Proof.
  intros Hsize H. unfold find_fdt in H.
  apply bind_Ret in H as (pos & Hpos & H).
  rewrite Z.geb_leb in H.
  destruct (Z.leb_spec 0 pos) as [Hge|Hlt]; [|discriminate].
  injection H as <-.
  unfold find_fdt_offset in Hpos.
  destruct (find_fdt_loop_first _ _ _ _ _ _ _ Hsize (Z.le_refl 0) Hpos)
    as [(-> & _) | (Hrange & (ts & Hts & Hgt & _) & _)]; [lia|].
  split; [lia|]. eapply init_fdt_ctx_accepts; eassumption.
Qed.

Lemma find_fdt_result_opens_witness :
  0 <= 5 < 0 + 229 - 48 /\
  exists ctx, init_fdt_ctx shifted_blob 5 = Ret (0, ctx).
Proof.
  apply (find_fdt_result_opens shifted_blob 0 229 0 5).
  - unfold sizeof_fdt_header, INT_MAX. lia.
  - vm_compute. reflexivity.
Defined.

(** X8: when strict validation refuses the header at [img], every
    accessor fails whatever the path and the name: no property, no
    value and the size argument untouched, -1, no string. *)
Theorem accessors_refuse_invalid_header (mem : list byte) (img : Z)
    (path name : option cstring) (size : option Z) :
  get_fdt_totalsize mem img 0 true = Ret (-1) ->
  get_fdt_prop mem img path name = Ret None /\
  get_fdt_prop_val mem img path name size = Ret (None, size) /\
  get_fdt_prop_u32 mem img path name = Ret (-1) /\
  get_fdt_prop_str mem img path name = Ret None.
Proof.
  intros H.
  assert (get_fdt_prop mem img path name = Ret None) as Hp.
  { unfold get_fdt_prop, init_fdt_ctx. rewrite H. reflexivity. }
  unfold get_fdt_prop_u32, get_fdt_prop_str, get_fdt_prop_val.
  rewrite Hp. repeat split; reflexivity.
Qed.

Lemma accessors_refuse_invalid_header_witness :
  get_fdt_prop (tail demo_blob) 0 (Some (cstr "/chosen"))
    (Some (cstr "bootargs")) = Ret None /\
  get_fdt_prop_val (tail demo_blob) 0 (Some (cstr "/chosen"))
    (Some (cstr "bootargs")) (Some 7) = Ret (None, Some 7) /\
  get_fdt_prop_u32 (tail demo_blob) 0 (Some (cstr "/chosen"))
    (Some (cstr "bootargs")) = Ret (-1) /\
  get_fdt_prop_str (tail demo_blob) 0 (Some (cstr "/chosen"))
    (Some (cstr "bootargs")) = Ret None.
Proof.
  apply (accessors_refuse_invalid_header (tail demo_blob) 0).
  vm_compute. reflexivity.
Defined.

(** ** The depth of a path *)

Lemma get_path_depth_loop_S (n : nat) (path : cstring)
    (tp tplen i dn d : Z) :
  get_path_depth_loop (S n) path tp tplen i dn d
  = if Byte.eqb (char_at path (tp + i)) SLASH || (i =? tplen) then
      if tp + i - dn =? 0 then -12
      else get_path_depth_loop n path tp tplen (i + 1) (tp + i + 1) (d + 1)
    else get_path_depth_loop n path tp tplen (i + 1) dn d.
Proof. reflexivity. Qed.

(** The loop runs to [i = tplen], where it closes a segment: it returns
    -12 or counts at least that segment. *)
Lemma get_path_depth_loop_range (n : nat) (path : cstring)
    (tp tplen i dn d : Z) :
  (1 <= n)%nat -> i + Z.of_nat n = tplen + 1 ->
  get_path_depth_loop n path tp tplen i dn d = -12 \/
  d + 1 <= get_path_depth_loop n path tp tplen i dn d.
Proof.
  revert i dn d. induction n as [|n IH]; intros i dn d Hn Hi; [lia|].
  rewrite get_path_depth_loop_S.
  destruct n as [|n].
  - replace i with tplen by lia. rewrite Z.eqb_refl, orb_true_r.
    destruct (tp + tplen - dn =? 0); [left; reflexivity|].
    right. simpl. lia.
  - destruct (Byte.eqb (char_at path (tp + i)) SLASH || (i =? tplen)).
    + destruct (tp + i - dn =? 0); [left; reflexivity|].
      destruct (IH (i + 1) (tp + i + 1) (d + 1) ltac:(lia) ltac:(lia))
        as [H|H]; [left; exact H | right; lia].
    + apply IH; lia.
Qed.

Lemma cstrlen_nonneg (s : cstring) : 0 <= cstrlen s.
Proof.
  induction s as [|b s IH]; simpl; [lia|].
  destruct (Byte.eqb b NUL); lia.
Qed.

Lemma cstrlen_0 (s : cstring) : cstrlen s = 0 -> c_bytes s = [].
Proof.
  destruct s as [|b s]; simpl; [reflexivity|].
  destruct (Byte.eqb b NUL); [reflexivity|].
  pose proof (cstrlen_nonneg s). lia.
Qed.

(** The three outcomes of [get_path_depth]: an empty segment (-12), one
    segment or more, or a path without segments. *)
Lemma get_path_depth_cases (path : cstring) :
  get_path_depth path = -12 \/ 1 <= get_path_depth path \/
  (get_path_depth path = 0 /\ zero_segments path).
Proof.
  unfold get_path_depth, zero_segments.
  destruct path as [|b0 path].
  { right. right. split; reflexivity. }
  cbn [cstrlen c_bytes]. replace (char_at (b0 :: path) 0) with b0
    by reflexivity.
  destruct (Byte.eqb b0 NUL) eqn:E0.
  { apply byte_eqb_true in E0 as ->. right. right. split; reflexivity. }
  pose proof (cstrlen_nonneg path) as Hlen.
  destruct (Byte.eqb b0 SLASH) eqn:S0.
  - replace (1 + cstrlen path - 1) with (cstrlen path) by lia.
    destruct (Z.eqb_spec (cstrlen path) 0) as [H0|H0].
    { right. right. split; [reflexivity|].
      rewrite (cstrlen_0 _ H0). simpl. rewrite S0. reflexivity. }
    replace (0 + 1 + cstrlen path - 1) with (cstrlen path) by lia.
    destruct (Byte.eqb (char_at (b0 :: path) (cstrlen path)) SLASH) eqn:T.
    + destruct (Z.eqb_spec (cstrlen path - 1) 0) as [H1|H1].
      * right. right. split; [reflexivity|].
        destruct path as [|b1 path]; [simpl in H0; lia|].
        simpl in H1, T |- *.
        destruct (Byte.eqb b1 NUL) eqn:E1; [lia|].
        assert (cstrlen path = 0) as Hp by lia.
        rewrite Hp in T. rewrite (cstrlen_0 _ Hp).
        change (Byte.eqb b1 SLASH = true) in T.
        rewrite S0. unfold strip_trailing_slash. simpl. rewrite T.
        reflexivity.
      * destruct (get_path_depth_loop_range
                    (Z.to_nat (cstrlen path - 1 + 1)) (b0 :: path) (0 + 1)
                    (cstrlen path - 1) 0 (0 + 1) 0) as [H|H]; lia.
    + destruct (Z.eqb_spec (cstrlen path) 0); [contradiction|].
      destruct (get_path_depth_loop_range
                  (Z.to_nat (cstrlen path + 1)) (b0 :: path) (0 + 1)
                  (cstrlen path) 0 (0 + 1) 0) as [H|H]; lia.
  - destruct (Z.eqb_spec (1 + cstrlen path) 0); [lia|].
    replace (0 + (1 + cstrlen path) - 1) with (cstrlen path) by lia.
    destruct (Byte.eqb (char_at (b0 :: path) (cstrlen path)) SLASH) eqn:T.
    + destruct (Z.eqb_spec (1 + cstrlen path - 1) 0) as [H1|H1].
      * exfalso. replace (cstrlen path) with 0 in T by lia.
        change (Byte.eqb b0 SLASH = true) in T. congruence.
      * destruct (get_path_depth_loop_range
                    (Z.to_nat (1 + cstrlen path - 1 + 1)) (b0 :: path) 0
                    (1 + cstrlen path - 1) 0 0 0) as [H|H]; lia.
    + destruct (Z.eqb_spec (1 + cstrlen path) 0); [lia|].
      destruct (get_path_depth_loop_range
                  (Z.to_nat (1 + cstrlen path + 1)) (b0 :: path) 0
                  (1 + cstrlen path) 0 0 0) as [H|H]; lia.
Qed.

(** X9: [get_path_depth] returns -12 or a count that is not negative,
    and the count is 0 exactly for the paths of which nothing is left
    once one leading and one trailing slash are taken off. *)
Theorem get_path_depth_zero_iff (path : cstring) :
  (get_path_depth path = -12 \/ 0 <= get_path_depth path) /\
  (get_path_depth path = 0 <-> zero_segments path).
Proof.
  destruct (get_path_depth_cases path) as [H | [H | [H Hz]]].
  - split; [left; exact H|]. split; [lia | apply zero_segments_depth].
  - split; [right; lia|]. split; [lia | apply zero_segments_depth].
  - split; [right; lia|]. split; [intros _; exact Hz | intros _; exact H].
Qed.

Section DepthLoop.

Variables (path : cstring) (tp tplen : Z).

(** The iterations inside a segment do nothing. *)
Lemma get_path_depth_loop_skip (k m : nat) (i dn d : Z) :
  (forall j, i <= j < i + Z.of_nat k ->
             Byte.eqb (char_at path (tp + j)) SLASH = false /\ j <> tplen) ->
  get_path_depth_loop (k + S m) path tp tplen i dn d
  = get_path_depth_loop (S m) path tp tplen (i + Z.of_nat k) dn d.
Proof.
  revert i. induction k as [|k IH]; intros i Hns.
  - change (0 + S m)%nat with (S m).
    replace (i + Z.of_nat 0) with i by lia. reflexivity.
  - change (S k + S m)%nat with (S (k + S m)).
    rewrite get_path_depth_loop_S.
    destruct (Hns i ltac:(lia)) as [-> Hne].
    destruct (Z.eqb_spec i tplen); [contradiction|]. simpl orb. cbv iota.
    rewrite IH; [f_equal; lia|].
    intros j Hj. apply Hns. lia.
Qed.

(** The loop from the start of slash-free segments that end at [tplen]:
    it counts them when none is empty, and returns -12 at the first empty
    one. *)
Lemma get_path_depth_loop_segments (segs : list (list byte)) (i d : Z) :
  segs <> [] -> Forall plain_seg segs ->
  holds path (tp + i) (join_path segs) ->
  i + Z.of_nat (length (join_path segs)) = tplen ->
  (Forall (fun s => s <> []) segs ->
   get_path_depth_loop (S (length (join_path segs))) path tp tplen
     i (tp + i) d = d + Z.of_nat (length segs)) /\
  (Exists (fun s => s = []) segs ->
   get_path_depth_loop (S (length (join_path segs))) path tp tplen
     i (tp + i) d = -12).
Proof.
  revert i d. induction segs as [|s rest IH];
    intros i d Hne Hplain Hh Hend; [contradiction|].
  apply Forall_cons in Hplain as [(Hs_slash & _) Hplain].
  assert (forall j, i <= j < i + Z.of_nat (length s) ->
            Byte.eqb (char_at path (tp + j)) SLASH = false) as Hin.
  { intros j Hj. apply byte_eqb_false.
    destruct (lookup_lt_is_Some_2 s (Z.to_nat (j - i))) as [x Hx]; [lia|].
    assert (holds path (tp + i) s) as Hs.
    { destruct rest; [exact Hh|].
      rewrite join_path_cons in Hh. apply holds_app in Hh. tauto. }
    replace (tp + j) with (tp + i + Z.of_nat (Z.to_nat (j - i))) by lia.
    rewrite (Hs _ _ Hx). intros ->. apply Hs_slash.
    eapply list_elem_of_lookup_2. eassumption. }
  destruct rest as [|s' rest].
  - (* the last segment *)
    simpl join_path in *.
    replace (S (length s)) with (length s + 1)%nat by lia.
    rewrite get_path_depth_loop_skip.
    2:{ intros j Hj. split; [apply Hin; assumption | lia]. }
    rewrite get_path_depth_loop_S.
    destruct (Z.eqb_spec (i + Z.of_nat (length s)) tplen); [|lia].
    rewrite orb_true_r.
    replace (tp + (i + Z.of_nat (length s)) - (tp + i))
      with (Z.of_nat (length s)) by lia.
    split.
    + intros HF. apply Forall_cons in HF as [Hs_ne _].
      destruct (Z.eqb_spec (Z.of_nat (length s)) 0) as [H0|_].
      { destruct s; [contradiction | simpl in H0; lia]. }
      simpl. lia.
    + intros HE. apply Exists_cons in HE as [-> | HE];
        [reflexivity | inversion HE].
  - (* a segment followed by a slash *)
    rewrite join_path_cons in *.
    set (J := join_path (s' :: rest)) in *.
    apply holds_app in Hh as [Hs Hrest].
    rewrite length_app in *. simpl length in *.
    replace (S (length s + S (length J)))
      with (length s + S (S (length J)))%nat by lia.
    rewrite get_path_depth_loop_skip.
    2:{ intros j Hj. split; [apply Hin; assumption | lia]. }
    rewrite get_path_depth_loop_S.
    assert (Byte.eqb (char_at path (tp + (i + Z.of_nat (length s)))) SLASH
            = true) as ->.
    { apply byte_eqb_true.
      replace (tp + (i + Z.of_nat (length s)))
        with (tp + i + Z.of_nat (length s) + Z.of_nat 0) by lia.
      apply Hrest. reflexivity. }
    simpl orb. cbv iota.
    replace (tp + (i + Z.of_nat (length s)) - (tp + i))
      with (Z.of_nat (length s)) by lia.
    destruct (Z.eqb_spec (Z.of_nat (length s)) 0) as [H0|H0].
    + split.
      * intros HF. apply Forall_cons in HF as [Hs_ne _].
        destruct s; [contradiction | simpl in H0; lia].
      * intros _. reflexivity.
    + destruct (IH (i + Z.of_nat (length s) + 1) (d + 1))
        as [Hall Hex]; try assumption; try discriminate.
      * intros k x Hk.
        replace (tp + (i + Z.of_nat (length s) + 1) + Z.of_nat k)
          with (tp + i + Z.of_nat (length s) + Z.of_nat (S k)) by lia.
        apply Hrest. exact Hk.
      * fold J. lia.
      * fold J in Hall, Hex.
        replace (tp + (i + Z.of_nat (length s)) + 1)
          with (tp + (i + Z.of_nat (length s) + 1)) by lia.
        split.
        -- intros HF. apply Forall_cons in HF as [_ HF].
           rewrite (Hall HF). simpl length. lia.
        -- intros HE. apply Exists_cons in HE as [-> | HE];
             [simpl in H0; lia|].
           apply Hex. exact HE.
Qed.

End DepthLoop.

Lemma join_path_no_nul (segs : list (list byte)) :
  Forall plain_seg segs -> NUL ∉ join_path segs.
Proof.
  induction segs as [|s rest IH]; intros Hp; [inversion 1|].
  apply Forall_cons in Hp as [(_ & Hs_nul) Hp].
  destruct rest as [|s' rest]; [exact Hs_nul|].
  rewrite join_path_cons. intros Hin.
  apply elem_of_app in Hin as [Hin|Hin]; [contradiction|].
  apply elem_of_cons in Hin as [Hin|Hin]; [discriminate|].
  apply IH in Hin; [exact Hin | exact Hp].
Qed.

Lemma join_path_last (segs : list (list byte)) (l : list byte) (y : byte) :
  last segs = Some (l ++ [y]) ->
  exists l', join_path segs = l' ++ [y].
Proof.
  induction segs as [|s rest IH]; [discriminate|].
  destruct rest as [|s' rest].
  - intros [= ->]. exists l. reflexivity.
  - intros H. destruct (IH H) as [l' Hl'].
    rewrite join_path_cons, Hl'. exists (s ++ SLASH :: l').
    rewrite <- app_assoc. reflexivity.
Qed.

(** [get_path_depth] on slash-free segments joined by slashes, with or
    without a leading and a trailing slash, when the slashes taken off
    are those two and something is left: the number of segments when
    none is empty, -12 when one is. *)
Lemma get_path_depth_segments (lead trail : bool)
    (segs : list (list byte)) :
  Forall plain_seg segs -> join_path segs <> [] ->
  (lead = false -> head segs <> Some []) ->
  (trail = false -> last segs <> Some []) ->
  let path := (if lead then [SLASH] else []) ++ join_path segs
              ++ (if trail then [SLASH] else []) in
  (Forall (fun s => s <> []) segs ->
   get_path_depth path = Z.of_nat (length segs)) /\
  (Exists (fun s => s = []) segs -> get_path_depth path = -12).
Proof.
  intros Hplain HJne Hhead Hlast.
  assert (segs <> []) as Hne by (intros ->; apply HJne; reflexivity).
  set (pre := if lead then [SLASH] else []).
  set (post := if trail then [SLASH] else []).
  set (J := join_path segs) in *.
  intros path. subst path. set (path := pre ++ J ++ post).
  pose proof (join_path_no_nul _ Hplain) as Hnul. fold J in Hnul.
  assert (0 < length J)%nat as HJpos.
  { destruct J; [contradiction | simpl; lia]. }
  assert (cstrlen path
          = Z.of_nat (length pre) + Z.of_nat (length J)
            + Z.of_nat (length post)) as Hcl.
  { rewrite cstrlen_no_nul.
    - unfold path. rewrite !length_app. lia.
    - unfold path, pre, post. intros Hin.
      apply elem_of_app in Hin as [Hin|Hin].
      + destruct lead; [|inversion Hin].
        apply list_elem_of_singleton in Hin. discriminate.
      + apply elem_of_app in Hin as [Hin|Hin]; [contradiction|].
        destruct trail; [|inversion Hin].
        apply list_elem_of_singleton in Hin. discriminate. }
  assert (Byte.eqb (char_at path 0) SLASH = lead) as Hfirst.
  { unfold path, pre. destruct lead; [reflexivity|].
    apply byte_eqb_false.
    destruct segs as [|s0 segs]; [contradiction|].
    destruct s0 as [|x l0]; [exfalso; apply Hhead; reflexivity|].
    apply Forall_cons in Hplain as [(Hsl & _) _].
    assert (char_at ([] ++ J ++ post) 0 = x) as ->.
    { unfold J. destruct segs; reflexivity. }
    intros ->. apply Hsl. left. }
  assert (Byte.eqb
            (char_at path
               (Z.of_nat (length pre)
                + (Z.of_nat (length J) + Z.of_nat (length post)) - 1))
            SLASH = trail) as Htrail.
  { unfold post. destruct trail.
    - unfold path, post. replace (Z.of_nat (length pre)
               + (Z.of_nat (length J) + Z.of_nat (length [SLASH])) - 1)
        with (Z.of_nat (length pre) + (Z.of_nat (length J) + 0))
        by (simpl; lia).
      rewrite !char_at_app_r by lia. reflexivity.
    - apply byte_eqb_false.
      destruct (proj2 (last_is_Some segs) Hne) as [sn Hsn].
      assert (sn <> []) as Hsn_ne.
      { intros ->. apply Hlast; [reflexivity | exact Hsn]. }
      destruct (proj2 (last_is_Some sn) Hsn_ne) as [y Hy].
      pose proof Hy as Hy'. apply last_Some in Hy' as [ln ->].
      destruct (join_path_last _ _ _ Hsn) as [l' HJy]. fold J in HJy.
      replace (Z.of_nat (length pre)
               + (Z.of_nat (length J) + Z.of_nat (length (@nil byte))) - 1)
        with (Z.of_nat (length pre) + Z.of_nat (length l'))
        by (rewrite HJy, length_app; simpl; lia).
      unfold path, post.
      rewrite (holds_middle pre J [] (length l') y).
      + apply last_Some_elem_of in Hsn.
        rewrite Forall_forall in Hplain.
        destruct (Hplain _ Hsn) as [Hsl _].
        intros ->. apply Hsl. apply elem_of_app. right. left.
      + rewrite HJy. rewrite lookup_app_r by lia.
        rewrite Nat.sub_diag. reflexivity. }
  unfold get_path_depth. rewrite Hfirst, Hcl.
  assert ((if lead
           then (0 + 1,
                 Z.of_nat (length pre) + Z.of_nat (length J)
                 + Z.of_nat (length post) - 1)
           else (0, Z.of_nat (length pre) + Z.of_nat (length J)
                    + Z.of_nat (length post)))
          = (Z.of_nat (length pre),
             Z.of_nat (length J) + Z.of_nat (length post))) as ->.
  { unfold pre. destruct lead; simpl length; f_equal; lia. }
  destruct (Z.eqb_spec (Z.of_nat (length J) + Z.of_nat (length post)) 0);
    [lia|].
  rewrite Htrail.
  assert ((if trail
           then Z.of_nat (length J) + Z.of_nat (length post) - 1
           else Z.of_nat (length J) + Z.of_nat (length post))
          = Z.of_nat (length J)) as ->.
  { unfold post. destruct trail; simpl length; lia. }
  destruct (Z.eqb_spec (Z.of_nat (length J)) 0); [lia|].
  replace (Z.to_nat (Z.of_nat (length J) + 1)) with (S (length J)) by lia.
  pose proof (get_path_depth_loop_segments path (Z.of_nat (length pre))
                (Z.of_nat (length J)) segs 0 0 Hne Hplain) as Hloop.
  replace (Z.of_nat (length pre) + 0) with (Z.of_nat (length pre)) in Hloop
    by lia.
  fold J in Hloop. apply Hloop.
  - apply holds_middle.
  - lia.
Qed.

Lemma good_segs_plain (segs : list (list byte)) :
  segs <> [] -> Forall good_seg segs ->
  Forall plain_seg segs /\ Forall (fun s => s <> []) segs /\
  join_path segs <> [] /\ head segs <> Some [] /\ last segs <> Some [].
Proof.
  intros Hne Hgood.
  assert (Forall (fun s => s <> []) segs) as Hall.
  { eapply Forall_impl; [exact Hgood|]. intros s (H & _). exact H. }
  split; [|split; [exact Hall|]].
  { eapply Forall_impl; [exact Hgood|]. intros s (_ & H1 & H2).
    split; assumption. }
  rewrite Forall_forall in Hall. split; [|split].
  - destruct segs as [|[|x l] segs]; [contradiction| |].
    + exfalso. apply (Hall []); [left | reflexivity].
    + destruct segs; discriminate.
  - intros H. apply (Hall []); [|reflexivity].
    destruct segs; [discriminate|]. injection H as <-. left.
  - intros H. apply last_Some_elem_of in H. apply (Hall [] H). reflexivity.
Qed.

(** X10: a path of segments that are not empty and hold no slash, joined
    by single slashes, with or without one leading and one trailing
    slash, has as many levels as segments. *)
Theorem get_path_depth_counts_segments (lead trail : bool)
    (segs : list (list byte)) :
  segs <> [] -> Forall good_seg segs ->
  get_path_depth ((if lead then [SLASH] else []) ++ join_path segs
                  ++ (if trail then [SLASH] else []))
  = Z.of_nat (length segs).
Proof.
  intros Hne Hgood.
  destruct (good_segs_plain segs Hne Hgood)
    as (Hplain & Hall & HJ & Hhead & Hlast).
  apply (get_path_depth_segments lead trail segs Hplain HJ); auto.
Qed.

Lemma get_path_depth_counts_segments_witness :
  get_path_depth ([SLASH] ++ join_path [cstr "soc"; cstr "eth*"; cstr "phy"]
                  ++ [SLASH]) = 3.
Proof.
  apply (get_path_depth_counts_segments true true
           [cstr "soc"; cstr "eth*"; cstr "phy"]).
  - discriminate.
  - repeat constructor; try discriminate;
      vm_compute; intros H;
      repeat (apply elem_of_cons in H as [H|H]; [discriminate|]);
      inversion H.
Defined.

(** X11: a path with an empty segment (two slashes in a row once one
    leading and one trailing slash are taken off) is refused with -12,
    wherever the empty segment stands; the segments hold no slash, and
    more than the two slashes taken off is left of the path. *)
Theorem get_path_depth_empty_segment (lead trail : bool)
    (segs : list (list byte)) :
  Forall plain_seg segs -> Exists (fun s => s = []) segs ->
  join_path segs <> [] ->
  (lead = false -> head segs <> Some []) ->
  (trail = false -> last segs <> Some []) ->
  get_path_depth ((if lead then [SLASH] else []) ++ join_path segs
                  ++ (if trail then [SLASH] else []))
  = -12.
Proof.
  intros Hplain Hex HJ Hhead Hlast.
  apply (get_path_depth_segments lead trail segs Hplain HJ Hhead Hlast).
  exact Hex.
Qed.

Lemma get_path_depth_empty_segment_witness :
  get_path_depth ([SLASH] ++ join_path [cstr "soc"; []; cstr "eth0"] ++ [])
  = -12.
Proof.
  apply (get_path_depth_empty_segment true false
           [cstr "soc"; []; cstr "eth0"]).
  - repeat constructor;
      vm_compute; intros H;
      repeat (apply elem_of_cons in H as [H|H]; [discriminate|]);
      inversion H.
  - right. left. reflexivity.
  - discriminate.
  - discriminate.
  - discriminate.
Defined.

(** ** What a lookup returns *)

Section LookupSound.

Variable mem : list byte.

Lemma cstring_at_nil (a : Z) :
  load8 mem a = Ret NUL -> cstring_at mem a = Some [].
Proof.
  intros H. apply load8_Ret in H as [Ha Hlk]. unfold cstring_at.
  destruct (Z.ltb_spec a 0); [lia|].
  rewrite (drop_S _ _ _ Hlk). reflexivity.
Qed.

Lemma cstring_at_step (a : Z) (y : byte) (t : list byte) :
  load8 mem a = Ret y -> y <> NUL -> cstring_at mem (a + 1) = Some t ->
  cstring_at mem a = Some (y :: t).
Proof.
  intros H Hy Ht. apply load8_Ret in H as [Ha Hlk]. unfold cstring_at in *.
  destruct (Z.ltb_spec a 0); [lia|].
  destruct (Z.ltb_spec (a + 1) 0); [lia|].
  rewrite (drop_S _ _ _ Hlk). simpl.
  apply byte_eqb_false in Hy. rewrite Hy.
  replace (Z.to_nat (a + 1)) with (S (Z.to_nat a)) in Ht by lia.
  rewrite Ht. reflexivity.
Qed.

(** [strcmp] returns 0 only when the string in the buffer is the host
    string. *)
Lemma strcmp_zero (nm : cstring) (a : Z) :
  strcmp mem a nm = Ret 0 -> cstring_at mem a = Some (c_bytes nm).
Proof.
  revert a. induction nm as [|b nm IH]; intros a H; simpl in H.
  - apply bind_Ret in H as (y & Hy & H). injection H as H.
    assert (y = NUL) as -> by (apply byte_val_inj; rewrite H; reflexivity).
    apply cstring_at_nil. exact Hy.
  - apply bind_Ret in H as (y & Hy & H).
    destruct (Byte.eqb y b) eqn:E.
    + apply byte_eqb_true in E as <-. simpl.
      destruct (Byte.eqb y NUL) eqn:En.
      * apply byte_eqb_true in En as ->. apply cstring_at_nil. exact Hy.
      * apply byte_eqb_false in En.
        apply cstring_at_step; [exact Hy | exact En | apply IH; exact H].
    + apply byte_eqb_false in E. injection H as H.
      exfalso. apply E. apply byte_val_inj. lia.
Qed.

Lemma check_search_target_match_name (ctx : fdt_ctx) (prop : Z) :
  check_search_target mem ctx prop = Ret 0 ->
  exists nm nameoff,
    target_name ctx = Some nm /\
    load32be mem (prop + o_prop_nameoff) = Ret nameoff /\
    cstring_at mem (strings ctx + nameoff) = Some (c_bytes nm).
Proof.
  unfold check_search_target. intros H.
  destruct (target_path ctx) as [tpath|]; [|discriminate].
  destruct (target_name ctx) as [nm|]; [|discriminate].
  destruct (negb (depth ctx =? target_depth ctx)); [discriminate|].
  apply bind_Ret in H as (nameoff & Hoff & H).
  apply bind_Ret in H as (c & Hc & H).
  destruct (Z.eqb_spec c 0) as [->|]; [|discriminate].
  exists nm, nameoff. split; [reflexivity|]. split; [exact Hoff|].
  apply strcmp_zero. exact Hc.
Qed.

(** Once the walk reaches a pass that matches, with the tree dump off, it
    returns with the property of that pass. *)
Lemma enum_fdt_nodes_reaches_match (c0 cm : fdt_ctx) :
  show_tree c0 = false -> visits mem c0 cm -> matches mem cm ->
  enum_fdt_nodes mem (walk_fuel mem) c0
  = Ret (set_res cm (Some (pos cm)), None).
Proof.
  intros Hs0 Hv Hm.
  assert (show_tree cm = false) as Hs.
  { apply visits_frame in Hv as ((_ & _ & _ & _ & _ & _ & ->) & _).
    exact Hs0. }
  pose proof (matches_step_quiet _ _ Hm Hs) as Hstep.
  assert (enum_fdt_nodes mem 1 cm
          = Ret (set_res cm (Some (pos cm)), None)) as H1.
  { simpl. rewrite Hstep. reflexivity. }
  destruct (visits_enum _ _ _ _ _ Hv H1 ltac:(discriminate))
    as (fuel' & H').
  pose proof (enum_fdt_nodes_terminates mem c0) as Hnt.
  destruct (Nat.le_ge_cases (walk_fuel mem) fuel') as [Hle|Hle].
  - rewrite <- H'. symmetry. apply enum_fdt_nodes_more_fuel; assumption.
  - rewrite <- H'. apply enum_fdt_nodes_more_fuel; [assumption|].
    rewrite H'. discriminate.
Qed.

(** The walk of a lookup that returns a property. *)
Lemma get_fdt_prop_inv (img : Z) (path name : option cstring) (p : Z) :
  get_fdt_prop mem img path name = Ret (Some p) ->
  exists pth nm ctx cl,
    path = Some pth /\ name = Some nm /\
    init_fdt_ctx mem img = Ret (0, ctx) /\
    0 < get_path_depth pth /\
    load32be mem (tree ctx) = Ret FDT_BEGIN_NODE /\
    load32be mem (tree ctx + 4) = Ret 0 /\
    visits mem (lookup_start ctx pth nm) cl /\ matches mem cl /\
    pos cl = p.
Proof.
  unfold get_fdt_prop. intros H.
  apply bind_Ret in H as ([rc ctx] & Hinit & H). cbn [fst snd] in H.
  destruct (Z.eqb_spec rc 0) as [->|]; [|discriminate]. cbn [negb] in H.
  destruct name as [nm|].
  2:{ destruct path as [pth|]; [|discriminate].
      destruct (get_path_depth pth <? 0); [discriminate|].
      apply bind_Ret in H as (tag & _ & H).
      destruct (negb (tag =? FDT_BEGIN_NODE)); [discriminate|].
      apply bind_Ret in H as (w & _ & H).
      destruct (negb (w =? 0)); [discriminate|].
      apply bind_Ret in H as (r & _ & H). discriminate. }
  destruct (init_fdt_ctx_cases _ _ _ _ Hinit)
    as [(Hrc & _) | (_ & ts & os & ss & ot & st & _ & _ & _ & _ & _ & _
                     & _ & _ & Hctx)]; [discriminate|].
  assert (target_depth ctx = 0 /\ show_tree ctx = false) as [Htd0 Hst].
  { subst ctx. split; reflexivity. }
  assert (forall c0,
            pos c0 = tree ctx -> res c0 = None ->
            (let* tag := load32be mem (tree ctx) in
             if negb (tag =? FDT_BEGIN_NODE) then Ret None else
             let* w := load32be mem (tree ctx + 4) in
             if negb (w =? 0) then Ret None else
             let* r := enum_fdt_nodes mem (walk_fuel mem) c0 in
             match res (fst r) with
             | Some prop => Ret (Some prop)
             | None => Ret None
             end) = Ret (Some p) ->
            load32be mem (tree ctx) = Ret FDT_BEGIN_NODE /\
            load32be mem (tree ctx + 4) = Ret 0 /\
            0 < target_depth c0 /\
            exists cl, visits mem c0 cl /\ matches mem cl /\ pos cl = p)
    as Hwalk.
  { intros c0 Hpos Hres Hrun.
    apply bind_Ret in Hrun as (tag & Htag & Hrun).
    destruct (Z.eqb_spec tag FDT_BEGIN_NODE) as [->|]; [|discriminate].
    cbn [negb] in Hrun.
    apply bind_Ret in Hrun as (w & Hw & Hrun).
    destruct (Z.eqb_spec w 0) as [->|]; [|discriminate].
    cbn [negb] in Hrun.
    apply bind_Ret in Hrun as ([cf r] & Hrun & Hret). cbn [fst] in Hret.
    destruct (res cf) as [q|] eqn:Hq; [|discriminate].
    injection Hret as ->.
    split; [exact Htag|]. split; [exact Hw|].
    destruct (Z.leb_spec (target_depth c0) 0) as [Hle|Hgt].
    { pose proof (enum_fdt_nodes_no_target _ _ _ _ _ Hle Hrun). congruence. }
    split; [exact Hgt|].
    destruct (enum_fdt_nodes_last _ _ _ _ _ Hrun) as (cl & Hv & Hl).
    pose proof (visits_frame _ _ _ Hv) as (_ & Hrl & _).
    apply enum_step_frame in Hl as (_ & _ & _ & _ & Hcase).
    exists cl. split; [exact Hv|].
    destruct Hcase as [-> | [(-> & Hm) | (Hr & _)]].
    - congruence.
    - simpl in Hq. injection Hq as <-. split; [exact Hm | reflexivity].
    - congruence. }
  destruct path as [pth|].
  - destruct (Z.ltb_spec (get_path_depth pth) 0); [discriminate|].
    destruct (Hwalk (lookup_start ctx pth nm) eq_refl eq_refl H)
      as (Htag & Hw & Hd & cl & Hv & Hm & Hp).
    simpl in Hd. exists pth, nm, ctx, cl.
    repeat match goal with |- _ /\ _ => split end;
      try assumption; reflexivity.
  - exfalso.
    destruct (Hwalk (set_depth (set_res (set_pos ctx (tree ctx)) None) (-1))
                eq_refl eq_refl H) as (_ & _ & Hd & _).
    simpl in Hd. lia.
Qed.

End LookupSound.

(** X12: [get_fdt_prop] returns a property only when both a path and a
    name are given and the path has one segment or more; the root tag at
    the start of the struct block is then a BEGIN_NODE with an empty
    name. *)
Theorem get_fdt_prop_needs_path_and_name (mem : list byte) (img : Z)
    (path name : option cstring) (p : Z) :
  get_fdt_prop mem img path name = Ret (Some p) ->
  exists pth nm os,
    path = Some pth /\ name = Some nm /\
    0 < get_path_depth pth /\ ~ zero_segments pth /\
    load32be mem (img + o_off_dt_struct) = Ret os /\
    load32be mem (img + os) = Ret FDT_BEGIN_NODE /\
    load32be mem (img + os + 4) = Ret 0.
Proof.
  intros H. apply get_fdt_prop_inv in H
    as (pth & nm & ctx & cl & -> & -> & Hinit & Hd & Htag & Hw & _).
  destruct (init_fdt_ctx_cases _ _ _ _ Hinit)
    as [(Hrc & _) | (_ & ts & os & ss & ot & st & _ & _ & Hos & _ & _ & _
                     & _ & _ & ->)]; [discriminate|].
  exists pth, nm, os. simpl in Htag, Hw.
  repeat split; try assumption.
  intros Hz. apply zero_segments_depth in Hz. lia.
Qed.

Lemma get_fdt_prop_needs_path_and_name_witness :
  exists pth nm os,
    Some (cstr "/chosen") = Some pth /\ Some (cstr "bootargs") = Some nm /\
    0 < get_path_depth pth /\ ~ zero_segments pth /\
    load32be demo_blob (0 + o_off_dt_struct) = Ret os /\
    load32be demo_blob (0 + os) = Ret FDT_BEGIN_NODE /\
    load32be demo_blob (0 + os + 4) = Ret 0.
Proof.
  apply (get_fdt_prop_needs_path_and_name demo_blob 0
           (Some (cstr "/chosen")) (Some (cstr "bootargs")) 96).
  vm_compute. reflexivity.
Defined.

(** X13: the property that [get_fdt_prop] returns lies after the start
    of the struct block, carries the PROP tag and a length below
    [INT_MAX], and its name in the strings block is the name asked
    for. *)
Theorem get_fdt_prop_sound (mem : list byte) (img : Z)
    (path name : option cstring) (p : Z) :
  get_fdt_prop mem img path name = Ret (Some p) ->
  exists nm os ot len nameoff,
    name = Some nm /\
    load32be mem (img + o_off_dt_struct) = Ret os /\
    load32be mem (img + o_off_dt_strings) = Ret ot /\
    img + os < p /\
    load32be mem p = Ret FDT_PROP /\
    load32be mem (p + o_prop_len) = Ret len /\ len < INT_MAX /\
    load32be mem (p + o_prop_nameoff) = Ret nameoff /\
    cstring_at mem (img + ot + nameoff) = Some (c_bytes nm).
Proof.
  intros H. apply get_fdt_prop_inv in H
    as (pth & nm & ctx & cl & -> & -> & Hinit & Hd & Htag & Hw & Hv & Hm
        & <-).
  destruct (init_fdt_ctx_cases _ _ _ _ Hinit)
    as [(Hrc & _) | (_ & ts & os & ss & ot & st & _ & _ & Hos & _ & Hot & _
                     & _ & _ & ->)]; [discriminate|].
  pose proof (visits_frame _ _ _ Hv) as ((_ & Hstr & _ & _ & Hnm & _) & _
                                         & Hpos).
  destruct Hm as (Hprop & (len & Hlen & Hmax) & Hmatch).
  apply check_search_target_match_name in Hmatch
    as (nm' & nameoff & Hnm' & Hoff & Hname).
  rewrite Hnm in Hnm'. simpl in Hnm'. injection Hnm' as <-.
  rewrite Hstr in Hname. simpl in Hname, Htag, Hpos.
  exists nm, os, ot, len, nameoff.
  repeat split; try assumption.
  destruct Hpos as [-> | Hpos]; [|exact Hpos].
  simpl in Hprop. rewrite Htag in Hprop. discriminate.
Qed.

Lemma get_fdt_prop_sound_witness :
  exists nm os ot len nameoff,
    Some (cstr "bootargs") = Some nm /\
    load32be demo_blob (0 + o_off_dt_struct) = Ret os /\
    load32be demo_blob (0 + o_off_dt_strings) = Ret ot /\
    0 + os < 96 /\
    load32be demo_blob 96 = Ret FDT_PROP /\
    load32be demo_blob (96 + o_prop_len) = Ret len /\ len < INT_MAX /\
    load32be demo_blob (96 + o_prop_nameoff) = Ret nameoff /\
    cstring_at demo_blob (0 + ot + nameoff) = Some (c_bytes nm).
Proof.
  apply (get_fdt_prop_sound demo_blob 0 (Some (cstr "/chosen"))
           (Some (cstr "bootargs")) 96).
  vm_compute. reflexivity.
Defined.

(** X14: on a header that [init_fdt_ctx] accepts, with an empty-named
    BEGIN_NODE at the start of the struct block and a path that
    [get_path_depth] does not refuse, the lookup returns [p] exactly when
    the walk from the start of the struct block reaches a pass at [p]
    that matches. *)
Theorem get_fdt_prop_iff_walk_matches (mem : list byte) (img : Z)
    (ctx : fdt_ctx) (pth nm : cstring) (p : Z) :
  init_fdt_ctx mem img = Ret (0, ctx) ->
  load32be mem (tree ctx) = Ret FDT_BEGIN_NODE ->
  load32be mem (tree ctx + 4) = Ret 0 ->
  0 <= get_path_depth pth ->
  (get_fdt_prop mem img (Some pth) (Some nm) = Ret (Some p) <->
   exists cl,
     visits mem (lookup_start ctx pth nm) cl /\ matches mem cl /\
     pos cl = p).
Proof.
  intros Hinit Htag Hw Hd. split.
  - intros H. apply get_fdt_prop_inv in H
      as (pth' & nm' & ctx' & cl & [= <-] & [= <-] & Hinit' & _ & _ & _
          & Hv & Hm & Hp).
    rewrite Hinit in Hinit'. injection Hinit' as <-. eauto.
  - intros (cl & Hv & Hm & <-).
    assert (show_tree ctx = false) as Hst.
    { destruct (init_fdt_ctx_cases _ _ _ _ Hinit)
        as [(Hrc & _) | (_ & ts & os & ss & ot & st & _ & _ & _ & _ & _ & _
                         & _ & _ & ->)]; [discriminate | reflexivity]. }
    unfold get_fdt_prop. rewrite Hinit. cbn [bind fst snd].
    change (negb (0 =? 0)) with false. cbv iota.
    destruct (Z.ltb_spec (get_path_depth pth) 0); [lia|].
    cbn [pos set_pos set_target tree]. rewrite Htag. cbn [bind].
    change (negb (FDT_BEGIN_NODE =? FDT_BEGIN_NODE)) with false. cbv iota.
    rewrite Hw. cbn [bind]. change (negb (0 =? 0)) with false. cbv iota.
    fold (lookup_start ctx pth nm).
    rewrite (enum_fdt_nodes_reaches_match mem _ cl); try assumption.
    reflexivity.
Qed.

Lemma get_fdt_prop_iff_walk_matches_witness :
  get_fdt_prop demo_blob 0 (Some (cstr "/chosen")) (Some (cstr "bootargs"))
  = Ret (Some 96) <->
  exists cl,
    visits demo_blob
      (lookup_start
         (mk_ctx 0 224 56 148 204 20 0 (path ctx_zero) 0 None 0 None None
            false false)
         (cstr "/chosen") (cstr "bootargs")) cl /\
    matches demo_blob cl /\ pos cl = 96.
Proof.
  apply (get_fdt_prop_iff_walk_matches demo_blob 0
           (mk_ctx 0 224 56 148 204 20 0 (path ctx_zero) 0 None 0 None None
              false false)
           (cstr "/chosen") (cstr "bootargs") 96).
  - vm_compute. reflexivity.
  - vm_compute. reflexivity.
  - vm_compute. reflexivity.
  - vm_compute. discriminate.
Defined.

(** ** The value accessors *)

(** X15: [get_fdt_prop_val] fails exactly when the lookup does, and then
    leaves the size as it was; else it returns the address 12 bytes
    after the property and, when a size is asked for, the property's
    length, which lies in [0, INT_MAX). *)
Theorem get_fdt_prop_val_result (mem : list byte) (img : Z)
    (path name : option cstring) (size : option Z)
    (v : option Z) (n : option Z) :
  get_fdt_prop_val mem img path name size = Ret (v, n) ->
  (get_fdt_prop mem img path name = Ret None /\ v = None /\ n = size) \/
  (exists p len,
     get_fdt_prop mem img path name = Ret (Some p) /\
     v = Some (p + o_prop_data) /\
     load32be mem (p + o_prop_len) = Ret len /\ 0 <= len < INT_MAX /\
     n = match size with Some _ => Some len | None => None end).
Proof.
  unfold get_fdt_prop_val. intros H.
  apply bind_Ret in H as ([p|] & Hp & H).
  - right. pose proof Hp as Hinv.
    apply get_fdt_prop_inv in Hinv
      as (_ & _ & _ & cl & _ & _ & _ & _ & _ & _ & _ & Hm & <-).
    destruct Hm as (_ & (len & Hlen & Hmax) & _).
    pose proof (load32be_bounds _ _ _ Hlen) as (_ & _ & Hrange).
    exists (pos cl), len.
    apply bind_Ret in H as (n' & Hn & H). injection H as <- <-.
    repeat match goal with |- _ /\ _ => split end;
      try assumption; try reflexivity; try lia.
    destruct size as [sz|].
    + rewrite Hlen in Hn. cbn [bind] in Hn. injection Hn as <-.
      rewrite to_int_small by (unfold INT_MAX in Hmax; lia). reflexivity.
    + injection Hn as <-. reflexivity.
  - left. injection H as <- <-. auto.
Qed.

Lemma get_fdt_prop_val_result_witness :
  (get_fdt_prop demo_blob 0 (Some (cstr "/chosen")) (Some (cstr "cell"))
   = Ret None /\ Some 136 = None /\ Some 4 = Some (-1)) \/
  (exists p len,
     get_fdt_prop demo_blob 0 (Some (cstr "/chosen")) (Some (cstr "cell"))
     = Ret (Some p) /\
     Some 136 = Some (p + o_prop_data) /\
     load32be demo_blob (p + o_prop_len) = Ret len /\ 0 <= len < INT_MAX /\
     Some 4 = match Some (-1) with Some _ => Some len | None => None end).
Proof.
  apply (get_fdt_prop_val_result demo_blob 0 (Some (cstr "/chosen"))
           (Some (cstr "cell")) (Some (-1)) (Some 136) (Some 4)).
  vm_compute. reflexivity.
Defined.

(** A NUL at [a + k] ends the string at [a] within [k] bytes. *)
Lemma cstring_at_bounded (mem : list byte) (k : nat) (a : Z) :
  0 <= a -> load8 mem (a + Z.of_nat k) = Ret NUL ->
  exists s, cstring_at mem a = Some s /\ (length s <= k)%nat.
Proof.
  revert a. induction k as [|k IH]; intros a Ha H.
  - replace (a + Z.of_nat 0) with a in H by lia.
    exists []. split; [apply cstring_at_nil; exact H | reflexivity].
  - pose proof (load8_bounds _ _ _ H) as Hb.
    destruct (lookup_lt_is_Some_2 mem (Z.to_nat a)) as [y Hy]; [lia|].
    assert (load8 mem a = Ret y) as Hload by (apply load8_Ret; auto).
    destruct (Byte.eqb y NUL) eqn:E.
    + apply byte_eqb_true in E as ->. exists [].
      split; [apply cstring_at_nil; exact Hload | simpl; lia].
    + apply byte_eqb_false in E.
      destruct (IH (a + 1)) as (s & Hs & Hl); [lia| |].
      { replace (a + 1 + Z.of_nat k) with (a + Z.of_nat (S k)) by lia.
        exact H. }
      exists (y :: s).
      split; [apply cstring_at_step; assumption | simpl; lia].
Qed.

(** X16: the string that [get_fdt_prop_str] returns is the data of the
    property found, whose length is above 0, and it ends at a NUL inside
    that data. *)
Theorem get_fdt_prop_str_terminated (mem : list byte) (img : Z)
    (path name : option cstring) (v : Z) :
  get_fdt_prop_str mem img path name = Ret (Some v) ->
  exists p len s,
    get_fdt_prop mem img path name = Ret (Some p) /\
    v = p + o_prop_data /\
    load32be mem (p + o_prop_len) = Ret len /\ 0 < len < INT_MAX /\
    cstring_at mem v = Some s /\ Z.of_nat (length s) < len.
Proof.
  unfold get_fdt_prop_str, get_fdt_prop_val. intros H.
  apply bind_Ret in H as ([v' n'] & Hval & H).
  apply bind_Ret in Hval as ([p|] & Hp & Hval);
    [|injection Hval as <- <-; discriminate].
  pose proof Hp as Hinv.
  apply get_fdt_prop_inv in Hinv
    as (_ & _ & _ & cl & _ & _ & _ & _ & _ & _ & _ & Hm & <-).
  destruct Hm as (Htag & (len & Hlen & Hmax) & _).
  pose proof (load32be_bounds _ _ _ Hlen) as (_ & _ & Hrange).
  pose proof (load32be_bounds _ _ _ Htag) as (Hpos & _).
  rewrite Hlen in Hval. cbn [bind] in Hval. injection Hval as <- <-.
  rewrite to_int_small in H by (unfold INT_MAX in Hmax; lia).
  destruct (Z.gtb_spec len 0) as [Hgt|]; [|discriminate].
  apply bind_Ret in H as (last & Hlast & H).
  destruct (Byte.eqb last NUL) eqn:E; [|discriminate].
  apply byte_eqb_true in E as ->. injection H as <-.
  destruct (cstring_at_bounded mem (Z.to_nat (len - 1))
              (pos cl + o_prop_data)) as (s & Hs & Hl).
  { unfold o_prop_data. lia. }
  { replace (pos cl + o_prop_data + Z.of_nat (Z.to_nat (len - 1)))
      with (pos cl + o_prop_data + len - 1) by lia.
    exact Hlast. }
  exists (pos cl), len, s.
  repeat match goal with |- _ /\ _ => split end;
    try assumption; try reflexivity; lia.
Qed.

Lemma get_fdt_prop_str_terminated_witness :
  exists p len s,
    get_fdt_prop demo_blob 0 (Some (cstr "/chosen"))
      (Some (cstr "bootargs")) = Ret (Some p) /\
    108 = p + o_prop_data /\
    load32be demo_blob (p + o_prop_len) = Ret len /\ 0 < len < INT_MAX /\
    cstring_at demo_blob 108 = Some s /\ Z.of_nat (length s) < len.
Proof.
  apply (get_fdt_prop_str_terminated demo_blob 0 (Some (cstr "/chosen"))
           (Some (cstr "bootargs")) 108).
  vm_compute. reflexivity.
Defined.

(** ** The ancestor stack *)

Section Stack.

Variable mem : list byte.

Lemma strlen_from_cstring (l : list byte) (n : Z) :
  strlen_from l = Ret n -> exists s, cstring_from l = Some s.
Proof.
  revert n. induction l as [|b l IH]; intros n H; simpl in *;
    [discriminate|].
  destruct (Byte.eqb b NUL); [eauto|].
  apply bind_Ret in H as (m & Hm & _).
  destruct (IH _ Hm) as [s ->]. simpl. eauto.
Qed.

Lemma strlen_cstring (a n : Z) :
  strlen mem a = Ret n -> exists s, cstring_at mem a = Some s.
Proof.
  unfold strlen, cstring_at. destruct (a <? 0); [discriminate|].
  apply strlen_from_cstring.
Qed.

Lemma stack_ok_forward (c c' : fdt_ctx) :
  stack_ok mem c -> path c' = path c -> -1 <= depth c' <= depth c ->
  pos c <= pos c' -> stack_ok mem c'.
Proof.
  intros (Hd & Hlen & Hslots) Hpath Hdepth Hpos.
  split; [lia|]. split; [congruence|].
  intros k Hk. destruct (Hslots k ltac:(lia)) as (a & s & Hlk & Ha & Hs).
  exists a, s. rewrite Hpath. repeat split; try assumption. lia.
Qed.

(** A pass that goes on keeps the ancestor stack in order. *)
Lemma enum_step_stack (c : fdt_ctx) (a : action) :
  stack_ok mem c -> enum_step mem c = Ret a ->
  match a with
  | Return _ => True
  | Continue c' => stack_ok mem c'
  | Descend c' => stack_ok mem c'
  end.
Proof.
  intros Hok H. pose proof Hok as (Hd & Hlen & Hslots).
  unfold MAX_FDT_DEPTH in Hd, Hlen.
  unfold enum_step in H. apply bind_Ret in H as (tag & Htag & H).
  destruct (tag =? FDT_BEGIN_NODE).
  { unfold enum_begin_node in H.
    apply bind_Ret in H as (name0 & Hname0 & H).
    apply bind_Ret in H as (entered & Hent & H).
    destruct entered as [c1|]; [|injection H as <-; exact I].
    apply bind_Ret in H as (u & _ & H).
    destruct (Z.eqb_spec (depth c1) MAX_FDT_DEPTH) as [|Hne];
      [injection H as <-; exact I|].
    apply bind_Ret in H as (len & Hlen' & H). injection H as <-.
    pose proof (strlen_nonneg _ _ _ Hlen') as Hlen0.
    assert (pos c + 4 < pos c + 4 * (1 + (len + 4) / 4)) as Hfw.
    { assert (1 <= (len + 4) / 4) by (apply Z.div_le_lower_bound; lia).
      lia. }
    destruct (Z.ltb_spec (depth c) 0) as [Hneg|Hnn].
    - destruct (negb (Byte.eqb name0 NUL)).
      + apply bind_Ret in Hent as (u' & _ & Hent). discriminate.
      + injection Hent as <-. simpl.
        split; [simpl; unfold MAX_FDT_DEPTH; lia|].
        split; [exact Hlen|]. simpl. intros k Hk. lia.
    - destruct (Byte.eqb name0 NUL); [discriminate|].
      apply bind_Ret in Hent as (c2 & Hpush & Hent). injection Hent as <-.
      apply push_path_Ret in Hpush as [_ ->].
      simpl in Hne, Hlen' |- *. unfold MAX_FDT_DEPTH in Hne.
      split; [simpl; unfold MAX_FDT_DEPTH; lia|].
      split; [simpl; rewrite length_insert; exact Hlen|].
      simpl. intros k Hk.
      destruct (Nat.eq_dec k (Z.to_nat (depth c))) as [->|Hk'].
      + destruct (strlen_cstring _ _ Hlen') as [s Hs].
        exists (pos c + o_node_name), s.
        rewrite list_lookup_insert_eq by lia.
        unfold o_node_name in *. repeat split; [lia | exact Hs].
      + destruct (Hslots k ltac:(lia)) as (a' & s & Hlk & Ha & Hs).
        exists a', s. rewrite list_lookup_insert_ne by lia.
        repeat split; [exact Hlk | lia | exact Hs]. }
  destruct (tag =? FDT_PROP).
  { unfold enum_prop in H.
    apply bind_Ret in H as (nameoff & _ & H).
    apply bind_Ret in H as (size & _ & H).
    destruct (size >=? INT_MAX).
    { apply bind_Ret in H as (u & _ & H). injection H as <-. exact I. }
    apply bind_Ret in H as (u & _ & H).
    apply bind_Ret in H as (r & _ & H).
    destruct (r =? 0); injection H as <-; [exact I|].
    apply (stack_ok_forward c); [exact Hok | reflexivity | simpl; lia|].
    simpl. assert (0 <= u32 (size + 3) / 4).
    { apply Z.div_pos; [|lia]. unfold u32. apply Z.mod_pos_bound. lia. }
    lia. }
  destruct (tag =? FDT_NOP).
  { injection H as <-.
    apply (stack_ok_forward c); [exact Hok | reflexivity | simpl; lia|].
    simpl. lia. }
  destruct (tag =? FDT_END_NODE).
  { injection H as <-.
    destruct (Z.gtb_spec (depth c) 0).
    - apply (stack_ok_forward c); [exact Hok | reflexivity | simpl; lia|].
      simpl. lia.
    - apply (stack_ok_forward c); [exact Hok | reflexivity | simpl; lia|].
      simpl. lia. }
  destruct (tag =? FDT_END); injection H as <-; exact I.
Qed.

End Stack.

(** X17: along a walk that starts with the ancestor stack in order, every
    pass finds it in order: the depth is between -1 and 31, the array
    keeps its 33 slots, and every slot below the depth points to a
    NUL-terminated name in the buffer, behind the cursor. *)
Theorem walk_keeps_stack (mem : list byte) (c0 c : fdt_ctx) :
  stack_ok mem c0 -> visits mem c0 c -> stack_ok mem c.
Proof.
  intros H0 Hv. induction Hv as [|c1 c2 Hv IH Hn]; [exact H0|].
  destruct Hn as [Hn|Hn]; apply (enum_step_stack mem c1 _ IH Hn).
Qed.

Lemma walk_keeps_stack_witness :
  exists c, walk_to demo_blob 4 demo_start = Some c /\ stack_ok demo_blob c.
Proof.
  eexists. split; [vm_compute; reflexivity|].
  apply (walk_keeps_stack demo_blob demo_start).
  - split; [unfold MAX_FDT_DEPTH; simpl; lia|].
    split; [reflexivity|].
    intros k Hk. simpl in Hk. lia.
  - apply (walk_to_visits demo_blob 4). vm_compute. reflexivity.
Defined.

(** ** The matcher *)

Lemma seg_match_exact (s anc : list byte) :
  last s <> Some STAR -> (seg_match s anc <-> s = anc).
Proof.
  unfold seg_match. intros H. destruct (last s) as [b|]; [|reflexivity].
  destruct (Byte.eqb b STAR) eqn:E; [|reflexivity].
  apply byte_eqb_true in E. congruence.
Qed.

Lemma Forall2_seg_match_exact (segs ancs : list (list byte)) :
  Forall (fun s => last s <> Some STAR) segs ->
  (Forall2 seg_match segs ancs <-> segs = ancs).
Proof.
  revert ancs. induction segs as [|s segs IH]; intros ancs Hns.
  - split; [intros H; inversion H; reflexivity | intros <-; constructor].
  - apply Forall_cons in Hns as [Hs Hns]. split.
    + intros H. inversion H as [|? anc ? ancs' Hm HF]; subst.
      apply (seg_match_exact _ _ Hs) in Hm as ->.
      apply (IH _ Hns) in HF as ->. reflexivity.
    + intros <-. constructor.
      * apply (seg_match_exact _ _ Hs). reflexivity.
      * apply (IH _ Hns). reflexivity.
Qed.

(** X18: on a path of good segments none of which ends in a star, at a
    property of the target name found at the depth of the path, the
    matcher accepts (returns 0) exactly when the names on the ancestor
    stack are the segments of the path, one by one. *)
Theorem exact_segments_match_equal_names (mem : list byte) (ctx : fdt_ctx)
    (prop : Z) (lead trail : bool) (segs : list (list byte)) (nm : cstring)
    (ancs : list (list byte)) (nameoff : Z) :
  target_path ctx
    = Some ((if lead then [SLASH] else []) ++ join_path segs
            ++ (if trail then [SLASH] else [])) ->
  segs <> [] -> Forall good_seg segs ->
  Forall (fun s => last s <> Some STAR) segs ->
  target_name ctx = Some nm ->
  depth ctx = target_depth ctx ->
  target_depth ctx = Z.of_nat (length segs) ->
  load32be mem (prop + o_prop_nameoff) = Ret nameoff ->
  strcmp mem (strings ctx + nameoff) nm = Ret 0 ->
  length ancs = length segs -> names_at mem ctx 0 ancs ->
  exists r,
    check_search_target mem ctx prop = Ret r /\ (r = 0 <-> segs = ancs).
Proof.
  intros Htp Hne Hgood Hns Hname Hd Htd Hoff Hcmp Hlen Hnames.
  destruct (check_search_target_segments mem ctx prop lead trail segs nm
              ancs nameoff Htp Hne Hgood Hname Hd Htd Hoff Hcmp Hlen Hnames)
    as (r & Hr & Hiff).
  exists r. split; [exact Hr|].
  rewrite Hiff. apply Forall2_seg_match_exact. exact Hns.
Qed.

Lemma exact_segments_match_equal_names_witness :
  exists r,
    check_search_target soc_blob
      (set_target soc_ctx (Some (cstr "/soc/eth0")) 2 (Some (cstr "model")))
      84 = Ret r /\
    (r = 0 <-> [cstr "soc"; cstr "eth0"] = [cstr "soc"; cstr "eth0"]).
Proof.
  apply (exact_segments_match_equal_names soc_blob
           (set_target soc_ctx (Some (cstr "/soc/eth0")) 2
              (Some (cstr "model")))
           84 true false [cstr "soc"; cstr "eth0"] (cstr "model")
           [cstr "soc"; cstr "eth0"] 0).
  - reflexivity.
  - discriminate.
  - repeat constructor; try discriminate;
      vm_compute; intros H;
      repeat (apply elem_of_cons in H as [H|H]; [discriminate|]);
      inversion H.
  - repeat constructor; discriminate.
  - reflexivity.
  - reflexivity.
  - reflexivity.
  - reflexivity.
  - reflexivity.
  - reflexivity.
  - intros k anc Hk. destruct k as [|[|k]]; simpl in Hk.
    + injection Hk as <-. exists 68. split; reflexivity.
    + injection Hk as <-. exists 76. split; reflexivity.
    + discriminate.
Defined.

Section MatcherTotal.

Variable mem : list byte.

Lemma strcmp_total (nm : cstring) (a : Z) (s : list byte) :
  cstring_at mem a = Some s -> exists c, strcmp mem a nm = Ret c.
Proof.
  revert a s. induction nm as [|b nm IH]; intros a s Hs.
  - destruct s as [|y s].
    + unfold cstring_at in Hs. destruct (Z.ltb_spec a 0); [discriminate|].
      destruct (drop (Z.to_nat a) mem) as [|x l] eqn:Ed; [discriminate|].
      assert (load8 mem a = Ret x) as Hl.
      { apply load8_Ret. split; [assumption|].
        rewrite <- (Nat.add_0_r (Z.to_nat a)), <- lookup_drop, Ed.
        reflexivity. }
      simpl. rewrite Hl. simpl. eauto.
    + apply cstring_at_cons in Hs as (Hl & _ & _).
      simpl. rewrite Hl. simpl. eauto.
  - destruct s as [|y s].
    + unfold cstring_at in Hs. destruct (Z.ltb_spec a 0); [discriminate|].
      destruct (drop (Z.to_nat a) mem) as [|x l] eqn:Ed; [discriminate|].
      simpl in Hs. destruct (Byte.eqb x NUL) eqn:Ex.
      * assert (load8 mem a = Ret x) as Hl.
        { apply load8_Ret. split; [assumption|].
          rewrite <- (Nat.add_0_r (Z.to_nat a)), <- lookup_drop, Ed.
          reflexivity. }
        simpl. rewrite Hl. simpl.
        destruct (Byte.eqb x b); [rewrite Ex|]; eauto.
      * destruct (cstring_from l); discriminate.
    + apply cstring_at_cons in Hs as (Hl & Hy & Hs).
      simpl. rewrite Hl. simpl.
      destruct (Byte.eqb y b); [|eauto].
      apply byte_eqb_false in Hy. rewrite Hy. eapply IH. exact Hs.
Qed.

Lemma strncmp_total (tpath : cstring) (k : nat) (i a : Z)
    (s : list byte) :
  cstring_at mem a = Some s -> (k <= length s)%nat ->
  exists c, strncmp mem tpath i a k = Ret c.
Proof.
  revert i a s. induction k as [|k IH]; intros i a s Hs Hk; simpl;
    [eauto|].
  destruct s as [|y s]; [simpl in Hk; lia|].
  apply cstring_at_cons in Hs as (Hl & _ & Hs).
  rewrite Hl. simpl.
  destruct (Byte.eqb (char_at tpath i) y); [|eauto].
  destruct (Byte.eqb (char_at tpath i) NUL); [eauto|].
  eapply IH; [exact Hs | simpl in Hk; lia].
Qed.

(** The count never falls below the count so far. *)
Lemma get_path_depth_loop_lower (n : nat) (path : cstring)
    (tp tplen i dn d : Z) :
  get_path_depth_loop n path tp tplen i dn d <> -12 ->
  d <= get_path_depth_loop n path tp tplen i dn d.
Proof.
  revert i dn d. induction n as [|n IH]; intros i dn d H; [simpl; lia|].
  rewrite get_path_depth_loop_S in *.
  destruct (Byte.eqb (char_at path (tp + i)) SLASH || (i =? tplen)).
  - destruct (tp + i - dn =? 0); [contradiction|].
    pose proof (IH _ _ _ H). lia.
  - apply IH. exact H.
Qed.

(** The matcher runs the loop of [get_path_depth] on the same path: when
    that loop counts no more levels than the walk is deep, every slot
    the matcher reads holds a name, and it returns. *)
Lemma check_search_loop_total (ctx : fdt_ctx) (tpath : cstring)
    (tp tplen : Z) (n : nat) (i dn d : Z) :
  stack_ok mem ctx -> 0 <= d ->
  get_path_depth_loop n tpath tp tplen i dn d <> -12 ->
  get_path_depth_loop n tpath tp tplen i dn d <= depth ctx ->
  exists r, check_search_loop mem n ctx tpath tp tplen i dn d = Ret r.
Proof.
  intros (_ & _ & Hslots). revert i dn d.
  induction n as [|n IH]; intros i dn d Hd Hne Hle; [simpl; eauto|].
  rewrite check_search_loop_S. rewrite get_path_depth_loop_S in Hne, Hle.
  destruct (Byte.eqb (char_at tpath (tp + i)) SLASH || (i =? tplen));
    [|apply IH; assumption].
  cbv zeta. destruct (tp + i - dn =? 0); [eauto|].
  pose proof (get_path_depth_loop_lower _ _ _ _ _ _ _ Hne) as Hlow.
  destruct (Hslots (Z.to_nat d) ltac:(lia)) as (a & s & Hlk & _ & Hs).
  assert (path_at ctx d = Ret a) as Hpa.
  { unfold path_at. destruct (Z.ltb_spec d 0); [lia|].
    rewrite Hlk. reflexivity. }
  rewrite Hpa. cbn [bind].
  rewrite (cstring_at_strlen _ _ _ Hs). cbn [bind].
  destruct (IH (i + 1) (tp + i + 1) (d + 1) ltac:(lia) Hne Hle) as [r Hr].
  rewrite Hr.
  destruct (Byte.eqb (char_at tpath (dn + (tp + i - dn) - 1)) STAR).
  - destruct (Z.ltb_spec (Z.of_nat (length s)) (tp + i - dn - 1));
      [eauto|].
    destruct (strncmp_total tpath (Z.to_nat (tp + i - dn - 1)) dn a s Hs
                ltac:(lia)) as [c ->].
    cbn [bind]. destruct (negb (c =? 0)); eauto.
  - destruct (Z.eqb_spec (Z.of_nat (length s)) (tp + i - dn)) as [He|];
      [|simpl; eauto].
    cbn [negb].
    destruct (strncmp_total tpath (Z.to_nat (tp + i - dn)) dn a s Hs
                ltac:(lia)) as [c ->].
    cbn [bind]. destruct (negb (c =? 0)); eauto.
Qed.

End MatcherTotal.

(** X19: with the ancestor stack in order, a target depth that is the
    depth of the target path, and the name of the property a
    NUL-terminated string of the buffer, the matcher returns a value:
    every slot of the stack it reads holds a name, and no read leaves
    the buffer. *)
Theorem matcher_reads_within_stack (mem : list byte) (ctx : fdt_ctx)
    (prop : Z) (tpath : cstring) (nameoff : Z) (s : list byte) :
  stack_ok mem ctx ->
  target_path ctx = Some tpath ->
  target_depth ctx = get_path_depth tpath ->
  load32be mem (prop + o_prop_nameoff) = Ret nameoff ->
  cstring_at mem (strings ctx + nameoff) = Some s ->
  exists r, check_search_target mem ctx prop = Ret r.
Proof.
  intros Hok Htp Htd Hoff Hs. unfold check_search_target.
  rewrite Htp. destruct (target_name ctx) as [nm|]; [|eauto].
  destruct (Z.eqb_spec (depth ctx) (target_depth ctx)) as [Hd|];
    [|simpl; eauto].
  cbn [negb]. rewrite Hoff. cbn [bind].
  destruct (strcmp_total mem nm _ _ Hs) as [c ->]. cbn [bind].
  destruct (negb (c =? 0)); [eauto|].
  destruct (Z.leb_spec (target_depth ctx) 0) as [|Hpos]; [eauto|].
  rewrite Htd in Hpos, Hd. unfold get_path_depth in Hpos, Hd.
  destruct (if Byte.eqb (char_at tpath 0) SLASH
            then (0 + 1, cstrlen tpath - 1) else (0, cstrlen tpath))
    as [tp tplen].
  destruct (tplen =? 0); [eauto|].
  set (tplen' := if Byte.eqb (char_at tpath (tp + tplen - 1)) SLASH
                 then tplen - 1 else tplen) in *.
  destruct (tplen' =? 0); [eauto|].
  apply check_search_loop_total; [exact Hok | lia | lia | lia].
Qed.

Lemma matcher_reads_within_stack_witness :
  exists r, check_search_target soc_blob soc_ctx 84 = Ret r.
Proof.
  apply (matcher_reads_within_stack soc_blob soc_ctx 84 (cstr "/soc/eth*")
           0 (cstr "model")).
  - split; [unfold MAX_FDT_DEPTH; simpl; lia|].
    split; [reflexivity|].
    intros k Hk. destruct k as [|[|k]].
    + exists 68, (cstr "soc"). repeat split; reflexivity.
    + exists 76, (cstr "eth0"). repeat split; reflexivity.
    + simpl in Hk. lia.
  - reflexivity.
  - reflexivity.
  - reflexivity.
  - reflexivity.
Defined.

(** ** More on the validator, the locator and the cursor *)

(** X20: a header that does not start with the magic word is refused in
    both modes after that one read; and the size-only mode reads the
    magic word and [totalsize] and nothing else: it returns [totalsize]
    when the magic is right and the size lies in [168, INT_MAX), else
    -1. *)
Theorem lax_validation_reads_two_words (mem : list byte)
    (image offset m : Z) :
  load32be mem (image + offset + o_magic) = Ret m ->
  (m <> FDT_MAGIC ->
   forall check, get_fdt_totalsize mem image offset check = Ret (-1)) /\
  (forall ts,
     load32be mem (image + offset + o_totalsize) = Ret ts ->
     get_fdt_totalsize mem image offset false
     = Ret (if (m =? FDT_MAGIC) && (sizeof_fdt_header + 128 <=? ts)
               && (ts <? INT_MAX)
            then ts else -1)).
Proof.
  intros Hm. split.
  - intros Hne check. unfold get_fdt_totalsize. rewrite Hm. cbn [bind].
    destruct (Z.eqb_spec m FDT_MAGIC); [contradiction | reflexivity].
  - intros ts Hts. unfold get_fdt_totalsize. rewrite Hm. cbn [bind].
    destruct (Z.eqb_spec m FDT_MAGIC); [|reflexivity].
    cbn [negb andb]. rewrite Hts. cbn [bind].
    change (u32 (sizeof_fdt_header + 128)) with 168.
    unfold sizeof_fdt_header, INT_MAX. rewrite Z.geb_leb.
    pose proof (load32be_bounds _ _ _ Hts) as (_ & _ & Hr).
    destruct (Z.leb_spec 2147483647 ts); destruct (Z.ltb_spec ts 168);
      destruct (Z.leb_spec (40 + 128) ts);
      destruct (Z.ltb_spec ts 2147483647); try lia; try reflexivity.
    simpl. f_equal. apply to_int_small. lia.
Qed.

Lemma lax_validation_reads_two_words_witness :
  (FDT_MAGIC <> FDT_MAGIC ->
   forall check, get_fdt_totalsize (take 8 good_header) 0 0 check
                 = Ret (-1)) /\
  (forall ts,
     load32be (take 8 good_header) (0 + 0 + o_totalsize) = Ret ts ->
     get_fdt_totalsize (take 8 good_header) 0 0 false
     = Ret (if (FDT_MAGIC =? FDT_MAGIC) && (sizeof_fdt_header + 128 <=? ts)
               && (ts <? INT_MAX)
            then ts else -1)).
Proof.
  apply (lax_validation_reads_two_words (take 8 good_header) 0 0 FDT_MAGIC).
  reflexivity.
Defined.

Lemma find_fdt_loop_no_limit (mem : list byte) (fuel : nat)
    (image size m pos : Z) :
  m <= 0 ->
  find_fdt_loop mem fuel image size m pos
  = find_fdt_loop mem fuel image size 0 pos.
Proof.
  intros Hm. revert pos. induction fuel as [|fuel IH]; intros pos;
    [reflexivity|].
  simpl. rewrite IH.
  destruct (Z.gtb_spec m 0); [lia|]. reflexivity.
Qed.

(** X21: a [max_fdt_size] that is not positive sets no limit: the
    locator returns what it returns with 0. *)
Theorem find_fdt_offset_no_limit (mem : list byte)
    (image size max_fdt_size : Z) :
  max_fdt_size <= 0 ->
  find_fdt_offset mem image size max_fdt_size
  = find_fdt_offset mem image size 0.
Proof. intros H. apply find_fdt_loop_no_limit. exact H. Qed.

Lemma find_fdt_offset_no_limit_witness :
  find_fdt_offset shifted_blob 0 229 (-7)
  = find_fdt_offset shifted_blob 0 229 0.
Proof. apply (find_fdt_offset_no_limit shifted_blob 0 229 (-7)). lia. Defined.

Lemma enum_step_aligned (mem : list byte) (c : fdt_ctx) (a : action) :
  enum_step mem c = Ret a -> (pos (ctx_of a) - pos c) mod 4 = 0.
Proof.
  unfold enum_step. intros H.
  apply bind_Ret in H as (tag & _ & H).
  assert (forall x, (x + 4 * 1 - x) mod 4 = 0) as H4.
  { intros x. replace (x + 4 * 1 - x) with (1 * 4) by lia.
    apply Z.mod_mul. lia. }
  assert (forall x, (x - x) mod 4 = 0) as H0.
  { intros x. rewrite Z.sub_diag. reflexivity. }
  destruct (tag =? FDT_BEGIN_NODE).
  { unfold enum_begin_node in H.
    apply bind_Ret in H as (name0 & _ & H).
    apply bind_Ret in H as (entered & Hent & H).
    destruct entered as [c1|]; [|injection H as <-; apply H0].
    assert (pos c1 = pos c) as Hpos.
    { destruct (depth c <? 0).
      - destruct (negb (Byte.eqb name0 NUL)).
        + apply bind_Ret in Hent as (u & _ & Hent). discriminate.
        + injection Hent as <-. reflexivity.
      - destruct (Byte.eqb name0 NUL); [discriminate|].
        apply bind_Ret in Hent as (c2 & Hpush & Hent). injection Hent as <-.
        apply push_path_Ret in Hpush as [_ ->]. reflexivity. }
    apply bind_Ret in H as (u & _ & H).
    destruct (depth c1 =? MAX_FDT_DEPTH).
    { injection H as <-. simpl. rewrite Hpos. apply H0. }
    apply bind_Ret in H as (len & _ & H). injection H as <-. simpl.
    rewrite Hpos.
    replace (pos c + 4 * (1 + (len + 4) / 4) - pos c)
      with ((1 + (len + 4) / 4) * 4) by lia.
    apply Z.mod_mul. lia. }
  destruct (tag =? FDT_PROP).
  { unfold enum_prop in H.
    apply bind_Ret in H as (nameoff & _ & H).
    apply bind_Ret in H as (size & _ & H).
    destruct (size >=? INT_MAX).
    { apply bind_Ret in H as (u & _ & H). injection H as <-. apply H0. }
    apply bind_Ret in H as (u & _ & H).
    apply bind_Ret in H as (r & _ & H).
    destruct (r =? 0); injection H as <-; [apply H0|]. simpl.
    replace (pos c + 4 * 3 + 4 * (u32 (size + 3) / 4) - pos c)
      with ((3 + u32 (size + 3) / 4) * 4) by lia.
    apply Z.mod_mul. lia. }
  destruct (tag =? FDT_NOP); [injection H as <-; apply H4|].
  destruct (tag =? FDT_END_NODE).
  { injection H as <-. destruct (depth c >? 0); apply H4. }
  destruct (tag =? FDT_END); injection H as <-; apply H0.
Qed.

(** X22: the cursor moves by whole 32-bit words: every pass of a walk
    reads its tag at a multiple of 4 bytes from the start of the
    walk. *)
Theorem walk_keeps_alignment (mem : list byte) (c0 c : fdt_ctx) :
  visits mem c0 c -> (pos c - pos c0) mod 4 = 0.
Proof.
  intros Hv. induction Hv as [|c1 c2 Hv IH Hn];
    [rewrite Z.sub_diag; reflexivity|].
  assert ((pos c2 - pos c1) mod 4 = 0) as Hstep.
  { destruct Hn as [Hn|Hn]; apply enum_step_aligned in Hn; exact Hn. }
  replace (pos c2 - pos c0) with ((pos c2 - pos c1) + (pos c1 - pos c0))
    by lia.
  rewrite Z.add_mod, Hstep, IH by lia. reflexivity.
Qed.

Lemma walk_keeps_alignment_witness :
  exists c, walk_to demo_blob 4 demo_start = Some c /\
            (pos c - pos demo_start) mod 4 = 0.
Proof.
  eexists. split; [vm_compute; reflexivity|].
  apply (walk_keeps_alignment demo_blob demo_start).
  apply (walk_to_visits demo_blob 4). vm_compute. reflexivity.
Defined.
